(** * CGRtools: attributed molecule / CGR graphs and the merge engine

    A shallow embedding of [CGRtools/containers.py] and [CGRtools/core.py].

    - [Py]  : the Python values stored in attribute dictionaries, exceptions.
    - [nx]  : the part of the networkx [Graph] engine the containers call.
    - [MoleculeContainer], [CGRContainer] : the two entity classes.
    - [ReactionContainer] : a reaction, three lists of entities.
    - [CGRcore] : [split], [union] and [compose].

    Modelling choices.

    - A call that may raise returns a [res]; a method that mutates [self]
      returns the new state of the graph it worked on.
    - Attribute dictionaries are finite maps from key strings to values;
      their insertion order is never observed by the code.
    - Python sets of atom ids are [gset Z].  The order in which CPython
      iterates over a set is not modelled: a set is iterated in the order
      of [elements].
    - The atom and bond stores of a graph keep insertion order, because
      the order of adjacency iteration is observable ([reset_query_marks]).
    - [wf] is the representation invariant of the engine; the operations
      keep it, and the properties that need it assume it. *)

From Stdlib Require Import ZArith String List Permutation Lia.
From stdpp Require Import base option list gmap sets strings.

Set Warnings "-register-all,-clear-no-such-hyp".
Local Open Scope Z_scope.
Local Open Scope string_scope.
Local Open Scope list_scope.

(* ===================================================================== *)
(** ** Python values, truthiness, exceptions                              *)
(* ===================================================================== *)

Module Py.

(** The objects that occur as attribute values: [None], integers, strings,
    tuples and lists.  (Booleans and floats are not modelled.) *)
Inductive value : Type :=
| VNone
| VInt (z : Z)
| VStr (s : string)
| VTuple (l : list value)
| VList (l : list value).

(** Python [==] on these objects is structural. *)
Fixpoint eqb (a b : value) {struct a} : bool :=
  let fix eqb_list (l l' : list value) {struct l} : bool :=
    match l, l' with
    | [], [] => true
    | x :: l, y :: l' => eqb x y && eqb_list l l'
    | _, _ => false
    end in
  match a, b with
  | VNone, VNone => true
  | VInt x, VInt y => Z.eqb x y
  | VStr x, VStr y => String.eqb x y
  | VTuple l, VTuple l' => eqb_list l l'
  | VList l, VList l' => eqb_list l l'
  | _, _ => false
  end.

(** [bool(v)]. *)
Definition truthy (v : value) : bool :=
  match v with
  | VNone => false
  | VInt z => negb (Z.eqb z 0)
  | VStr s => negb (String.eqb s "")
  | VTuple l | VList l => match l with [] => false | _ => true end
  end.

(** Whether [hash(v)] succeeds: lists are unhashable, tuples hash their
    elements. *)
Fixpoint hashable (v : value) : bool :=
  match v with
  | VList _ => false
  | VTuple l => forallb hashable l
  | _ => true
  end.

(** [x in xs] for a tuple of candidates. *)
Definition member (x : value) (xs : list value) : bool :=
  existsb (eqb x) xs.

(** [a, b] as a 2-tuple. *)
Definition pair_ (a b : value) : value := VTuple [a; b].

Inductive exn : Type :=
| AttributeError
| KeyError
| TypeError
| Exception (msg : string).

(** Result of a call that may raise. *)
Inductive res (A : Type) : Type :=
| Ok (a : A)
| Raise (e : exn).
Arguments Ok {A} a.
Arguments Raise {A} e.

Definition bind {A B} (m : res A) (k : A → res B) : res B :=
  match m with
  | Ok a => k a
  | Raise e => Raise e
  end.

(** A [for] loop whose body may raise. *)
Fixpoint foldM {A S} (body : S → A → res S) (s : S) (l : list A) : res S :=
  match l with
  | [] => Ok s
  | x :: l => bind (body s x) (λ s', foldM body s' l)
  end.

End Py.

Export Py.

(** [res] is a monad; [x ← m; k] is stdpp's bind notation. *)
#[global] Instance res_ret : MRet res := @Ok.
#[global] Instance res_bind : MBind res := λ A B k m, Py.bind m k.

(** Attribute dictionaries. [get a k] is [a.get(k)]: the stored object, or
    [None] when the key is absent. *)
Abbreviation attrs := (gmap string value).

Definition get (a : attrs) (k : string) : value := default VNone (a !! k).

(** [a[k]]. *)
Definition item (a : attrs) (k : string) : res value :=
  match a !! k with Some v => Ok v | None => Raise KeyError end.

(** [{k: v for k, v in a.items() if k in keys}] and its complement. *)
Definition keep_keys (keys : list string) (a : attrs) : attrs :=
  filter (λ kv, kv.1 ∈ keys) a.

Definition drop_keys (keys : list string) (a : attrs) : attrs :=
  filter (λ kv, kv.1 ∉ keys) a.

(** [d.update(new)]: the entries of [new] win. *)
Definition update (d new : attrs) : attrs := new ∪ d.

(* ===================================================================== *)
(** ** The graph engine (networkx [Graph])                                *)
(* ===================================================================== *)

(** The engine is not part of the package; this is the behaviour of the
    calls the containers make.  A graph keeps its atoms in insertion order
    ([_node]) and its bonds in the order of their first insertion.  The
    adjacency dictionary [_adj[n]] of networkx holds, for every bond of [n]
    in that order, the other end and the bond's attribute dictionary, one
    dictionary shared by both directions; it is derived here from the bond
    store, so an update of a bond is seen from both ends. *)
Module nx.

Inductive cls : Type := PlainGraph | Molecule | CGR.

#[global] Instance cls_eq_dec : EqDecision cls.
Proof. solve_decision. Defined.

Record Graph : Type := mkGraph {
  class_ : cls;                       (* [__class__] *)
  node : list (Z * attrs);            (* [_node] *)
  edge : list (Z * Z * attrs);        (* bonds: first end, second end, data *)
  meta : attrs
}.

Definition empty (c : cls) : Graph := mkGraph c [] [] ∅.

Definition with_class (c : cls) (g : Graph) : Graph :=
  mkGraph c (node g) (edge g) (meta g).
Definition with_node (g : Graph) (ns : list (Z * attrs)) : Graph :=
  mkGraph (class_ g) ns (edge g) (meta g).
Definition with_edge (g : Graph) (es : list (Z * Z * attrs)) : Graph :=
  mkGraph (class_ g) (node g) es (meta g).
Definition with_meta (g : Graph) (m : attrs) : Graph :=
  mkGraph (class_ g) (node g) (edge g) m.

(** [list(g)], [n in g], [g.nodes[n]]. *)
Definition nodes_of (g : Graph) : list Z := (node g).*1.

Definition has_node (g : Graph) (n : Z) : bool := bool_decide (n ∈ nodes_of g).

Fixpoint alookup {V} (k : Z) (l : list (Z * V)) : option V :=
  match l with
  | [] => None
  | (k', v) :: l => if decide (k = k') then Some v else alookup k l
  end.

Fixpoint aalter {V} (f : V → V) (k : Z) (l : list (Z * V)) : list (Z * V) :=
  match l with
  | [] => []
  | (k', v) :: l =>
      if decide (k = k') then (k', f v) :: l else (k', v) :: aalter f k l
  end.

Definition node_get (g : Graph) (n : Z) : option attrs := alookup n (node g).

Definition node_attrs (g : Graph) (n : Z) : res attrs :=
  match node_get g n with Some a => Ok a | None => Raise KeyError end.

(** [g.order()], [g.size()]: number of atoms, number of bonds. *)
Definition order (g : Graph) : nat := length (node g).
Definition size (g : Graph) : nat := length (edge g).

(** A bond is an unordered pair of atoms. *)
Definition ekey (u v : Z) : Z * Z := (Z.min u v, Z.max u v).

Definition joins (u v : Z) (e : Z * Z * attrs) : bool :=
  bool_decide (ekey e.1.1 e.1.2 = ekey u v).

Definition edge_get (g : Graph) (u v : Z) : option attrs :=
  snd <$> List.find (joins u v) (edge g).

Definition has_edge (g : Graph) (u v : Z) : bool :=
  existsb (joins u v) (edge g).

(** [g.add_node(n, **a)]. *)
Definition add_node (g : Graph) (n : Z) (a : attrs) : Graph :=
  if has_node g n
  then with_node g (aalter (λ d, update d a) n (node g))
  else with_node g (node g ++ [(n, a)]).

(** [g.add_edge(u, v, **a)]: both ends are created when missing; the
    attributes of an existing bond are updated in place. *)
Definition add_edge (g : Graph) (u v : Z) (a : attrs) : Graph :=
  let g := if has_node g u then g else with_node g (node g ++ [(u, ∅)]) in
  let g := if has_node g v then g else with_node g (node g ++ [(v, ∅)]) in
  if has_edge g u v
  then with_edge g
         ((λ e, if joins u v e then (e.1, update e.2 a) else e) <$> edge g)
  else with_edge g (edge g ++ [(u, v, a)]).

Definition add_nodes_from (g : Graph) (l : list (Z * attrs)) : Graph :=
  foldl (λ g na, add_node g na.1 na.2) g l.

Definition add_edges_from (g : Graph) (l : list (Z * Z * attrs)) : Graph :=
  foldl (λ g e, add_edge g e.1.1 e.1.2 e.2) g l.

(** The other end of bond [e] seen from [n], if [e] is a bond of [n]. *)
Definition incident (n : Z) (e : Z * Z * attrs) : option (Z * attrs) :=
  if decide (e.1.1 = n) then Some (e.1.2, e.2)
  else if decide (e.1.2 = n) then Some (e.1.1, e.2)
  else None.

(** [g[n].items()]. *)
Definition adj_in (es : list (Z * Z * attrs)) (n : Z) : list (Z * attrs) :=
  omap (incident n) es.
Definition adj (g : Graph) (n : Z) : list (Z * attrs) := adj_in (edge g) n.

(** [g.nbunch_iter(nbunch)] for an iterable [nbunch]: its members that are
    atoms of [g]. *)
Definition nbunch_iter (g : Graph) (nbunch : list Z) : list Z :=
  filter (λ n, n ∈ nodes_of g) nbunch.

(** The iteration of an [EdgeDataView]: for each atom of the bunch, its
    bonds whose other end has not been visited yet. *)
Fixpoint edges_from (es : list (Z * Z * attrs)) (seen : gset Z) (ns : list Z)
  : list (Z * Z * attrs) :=
  match ns with
  | [] => []
  | n :: ns =>
      ((λ nd : Z * attrs, (n, nd.1, nd.2)) <$>
         filter (λ nd : Z * attrs, nd.1 ∉ seen) (adj_in es n))
      ++ edges_from es ({[n]} ∪ seen) ns
  end.

(** [g.edges(nbunch, data=True)]; [None] is the whole graph. *)
Definition edges (g : Graph) (nbunch : option (list Z)) : list (Z * Z * attrs) :=
  edges_from (edge g) ∅
    (match nbunch with None => nodes_of g | Some l => nbunch_iter g l end).

(** [Graph.copy()]: atoms in order, then every adjacency entry re-added. *)
Definition copy (g : Graph) : Graph :=
  let h := add_nodes_from (empty PlainGraph) (node g) in
  add_edges_from h
    (nodes_of g ≫= λ u, (λ nd : Z * attrs, (u, nd.1, nd.2)) <$> adj g u).

(** [Graph.subgraph(nbunch)]: the view induced on the atoms of the bunch,
    atoms and bonds in the order of [g]. *)
Definition induced (g : Graph) (nbunch : gset Z) : Graph :=
  mkGraph (class_ g)
    (filter (λ na : Z * attrs, na.1 ∈ nbunch) (node g))
    (filter (λ e : Z * Z * attrs, e.1.1 ∈ nbunch ∧ e.1.2 ∈ nbunch) (edge g))
    ∅.

(** [connected_components(g)].  The breadth-first search [_plain_bfs]
    works level by level: every atom of the level that was not seen is
    yielded and marked, and its neighbours form the next level; it stops at
    an empty level.  [fuel] bounds the number of levels ([None]: the bound
    was reached).  A component is the set of the atoms yielded. *)
Definition bfs_level (g : Graph) (st : gset Z * gset Z) (v : Z)
  : gset Z * gset Z :=
  if decide (v ∈ st.1) then st
  else ({[v]} ∪ st.1, list_to_set (adj g v).*1 ∪ st.2).

Fixpoint plain_bfs (g : Graph) (fuel : nat) (seen nextlevel : gset Z)
  : option (gset Z) :=
  if decide (nextlevel = ∅) then Some seen
  else match fuel with
       | O => None
       | S fuel =>
           let st := foldl (bfs_level g) (seen, ∅) (elements nextlevel) in
           plain_bfs g fuel st.1 st.2
       end.

Fixpoint components_from (g : Graph) (fuel : nat) (seen : gset Z)
    (ns : list Z) : option (list (gset Z)) :=
  match ns with
  | [] => Some []
  | v :: ns =>
      if decide (v ∈ seen) then components_from g fuel seen ns
      else c ← plain_bfs g fuel ∅ {[v]};
           cs ← components_from g fuel (c ∪ seen) ns;
           Some (c :: cs)
  end.

Definition connected_components (g : Graph) : option (list (gset Z)) :=
  components_from g (S (length (node g))) ∅ (nodes_of g).

(** The unordered pairs a bond store holds. *)
Definition ekeys (es : list (Z * Z * attrs)) : list (Z * Z) :=
  (λ e : Z * Z * attrs, ekey e.1.1 e.1.2) <$> es.

(** The representation invariant every graph built through the engine
    satisfies: atom ids are unique, there is one bond per unordered pair,
    and both ends of a bond are atoms. *)
Definition wf (g : Graph) : Prop :=
  NoDup (nodes_of g) ∧
  NoDup (ekeys (edge g)) ∧
  Forall (λ e : Z * Z * attrs, e.1.1 ∈ nodes_of g ∧ e.1.2 ∈ nodes_of g) (edge g).

#[global] Instance wf_dec g : Decision (wf g).
Proof. unfold wf. apply _. Defined.

End nx.

Export nx.

(* ===================================================================== *)
(** ** containers.py                                                      *)
(* ===================================================================== *)

(** [max(self, default=0)]. *)
Definition max_default0 (l : list Z) : Z :=
  match l with
  | [] => 0
  | x :: l => foldl Z.max x l
  end.

(** [g.nodes[i].update(label)]. *)
Definition node_update (g : Graph) (i : Z) (label : attrs) : Graph :=
  with_node g (aalter (λ d, update d label) i (node g)).

(** [list(set(l))]: hashing an unhashable member raises [TypeError]; the
    members are listed once each, in the order of their first occurrence
    (the order CPython lists a set in is not modelled). *)
Definition list_set (l : list value) : res (list value) :=
  if forallb hashable l
  then Ok (foldr (λ x acc, x :: List.filter (λ y, negb (eqb x y)) acc) [] l)
  else Raise TypeError.

(** [x for x, _ in l] and [x for _, x in l]. *)
Definition firsts (l : list value) : list value :=
  map (λ t, match t with VTuple (x :: _) => x | _ => VNone end) l.
Definition seconds (l : list value) : list value :=
  map (λ t, match t with VTuple (_ :: x :: _) => x | _ => VNone end) l.

(** The hybridization update of one bond of order [b_type] on the current
    class [h] (1 sp3, 2 sp2, 3 sp1, 4 aromatic). *)
Definition hyb_next (b_type : value) (h : Z) : Z :=
  if member b_type [VInt 1; VNone] || bool_decide (h = 3 ∨ h = 4) then h
  else if eqb b_type (VInt 4) then 4
  else if eqb b_type (VInt 3) || (eqb b_type (VInt 2) && bool_decide (h = 2))
       then 3
  else if eqb b_type (VInt 2) && negb (bool_decide (h = 3)) then 2
  else h.

(** One pass of the inner loop of [reset_query_marks] for the channel read
    from bond key [b]: the state is [(label[h], label[n])]. *)
Definition scan_bond (g : Graph) (b : string) (st : Z * Z) (nb : Z * attrs)
  : res (Z * Z) :=
  let '(h, n) := st in
  let '(node, bond) := nb in
  let b_type := get bond b in
  n' ← (if truthy b_type
        then a ← node_attrs g node;
             el ← item a "element";
             Ok (if negb (eqb el (VStr "H")) then n + 1 else n)
        else Ok n);
  Ok (hyb_next b_type h, n').

(** The hybridization an atom derives from its bond orders, in the order
    they are iterated. *)
Definition hyb_of (orders : list value) : Z :=
  foldl (λ h b, hyb_next b h) 1 orders.

Module MoleculeContainer.

Definition __node_base : list string :=
  ["element"; "isotope"; "mark"; "s_x"; "s_y"; "s_z"].
Definition _node_marks : list string :=
  ["s_neighbors"; "s_hyb"; "s_charge"; "s_stereo"].
Definition _node_s : list string := _node_marks ++ __node_base.
Definition _edge_marks : list string := ["s_bond"; "s_stereo"].
Definition _edge_s : list string := _edge_marks.

Definition _attr_renew (attr : attrs) (marks : list string) : attrs :=
  foldl (λ new_attr s,
           match get attr s with
           | VNone => new_attr
           | ls => <[s := ls]> new_attr
           end) ∅ marks.

Definition add_atom (self : Graph) (element s_charge : value)
    (_map : option Z) (mark x y z : value) : res Graph :=
  m ← match _map with
      | None => Ok (max_default0 (nodes_of self) + 1)
      | Some m => if has_node self m then Raise (Exception "mapping exists")
                  else Ok m
      end;
  Ok (add_node self m
        (<["element" := element]> (<["s_charge" := s_charge]>
        (<["mark" := mark]> (<["s_x" := x]> (<["s_y" := y]> (<["s_z" := z]>
        (<["map" := VInt m]> ∅)))))))).

Definition add_bond (self : Graph) (atom1 atom2 : Z) (mark : value)
  : res Graph :=
  if negb (has_node self atom1) || negb (has_node self atom2)
  then Raise (Exception "atoms not found")
  else if negb (truthy mark) then Raise (Exception "no bond data")
  else Ok (add_edge self atom1 atom2 {["s_bond" := mark]}).

(** [copy()]: the engine's copy, with the class and the meta data of
    [self]. *)
Definition copy (self : Graph) : Graph :=
  let c := with_class (class_ self) (nx.copy self) in
  with_meta c (update (meta c) (meta self)).

(** [_fix_stereo] is a stub. *)
Definition _fix_stereo (self : Graph) : Graph := self.

Definition subgraph (self : Graph) (nbunch : gset Z) (meta_ : bool) : Graph :=
  let sub := with_class (class_ self) (nx.copy (induced self nbunch)) in
  let sub := if meta_ then with_meta sub (update (meta sub) (meta self))
             else sub in
  _fix_stereo sub.

(** The label of atom [i]: only the [s_] channel is scanned; [p_hyb] and
    [p_neighbors] keep their initial values and are written as well. *)
Definition label_of (g : Graph) (i : Z) : res attrs :=
  '(h, n) ← foldM (scan_bond g "s_bond") (1, 0) (adj g i);
  Ok (<["s_hyb" := VInt h]> (<["p_hyb" := VInt 1]>
     (<["s_neighbors" := VInt n]> (<["p_neighbors" := VInt 0]> ∅)))).

(** [reset_query_marks(copy)]: the graph [g] the method worked on ([self]
    itself, mutated, unless [copy]). *)
Definition reset_query_marks (self : Graph) (copy_ : bool) : res Graph :=
  let g := if copy_ then copy self else self in
  foldM (λ g i, label ← label_of g i; Ok (node_update g i label))
        g (nodes_of g).

(** The expansion loop of [get_environment]: [k] iterations left, [i] the
    loop variable. *)
Fixpoint expand (self : Graph) (k : nat) (i : nat) (nodes : list (gset Z))
  : list (gset Z) :=
  match k with
  | O => nodes
  | S k =>
      let n : gset Z :=
        list_to_set
          (edges self (Some (elements (nodes !!! i)))
             ≫= λ e : Z * Z * attrs, [e.1.1; e.1.2]) in
      if bool_decide (n = ∅) || bool_decide (n ∈ nodes) then nodes
      else expand self k (S i) (nodes ++ [n])
  end.

Definition environment_nodes (self : Graph) (atoms : list Z) (deep : Z)
  : list (gset Z) :=
  expand self (Z.to_nat deep) 0 [list_to_set atoms].

(** [get_environment(atoms, dante, deep)]: a list of subgraphs when [dante],
    else the subgraph on the last node set. *)
Definition get_environment (self : Graph) (atoms : list Z) (dante : bool)
    (deep : Z) : list Graph + Graph :=
  let nodes := environment_nodes self atoms deep in
  if dante then inl ((λ a, subgraph self a false) <$> nodes)
  else inr (subgraph self (List.last nodes ∅) false).

(** [bond(atom1, atom2)] is [self[atom1][atom2]], [atom(n)] is
    [self.nodes[n]]; a missing atom or bond is a [KeyError]. *)
Definition bond (self : Graph) (atom1 atom2 : Z) : res attrs :=
  if has_node self atom1
  then match alookup atom2 (adj self atom1) with
       | Some a => Ok a
       | None => Raise KeyError
       end
  else Raise KeyError.

Definition atom (self : Graph) (n : Z) : res attrs := node_attrs self n.

Definition bonds_count (self : Graph) : nat := size self.

Definition atoms_count (self : Graph) : nat := order self.

End MoleculeContainer.

Module CGRContainer.

Definition __node_base : list string :=
  ["element"; "isotope"; "mark"; "s_x"; "s_y"; "s_z"].

Definition triple (mark : string) : string * string * string :=
  (String.append "s_" mark, String.append "p_" mark, String.append "sp_" mark).

Definition _node_marks : list (string * string * string) :=
  map triple ["neighbors"; "hyb"; "charge"; "stereo"].
Definition _edge_marks : list (string * string * string) :=
  map triple ["bond"; "stereo"].
Definition _node_sp : list string :=
  flat_map (λ x : string * string * string, [x.1.1; x.1.2]) _node_marks
  ++ __node_base ++ ["p_x"; "p_y"; "p_z"].
Definition _edge_sp : list string := ["s_bond"; "p_bond"; "s_stereo"; "p_stereo"].

(** The three stores made in the list branches. *)
Definition store3 (new_attr : attrs) (s p sp : string) (vs vp vsp : value)
  : attrs :=
  <[p := vp]> (<[s := vs]> (<[sp := vsp]> new_attr)).

(** One iteration of the loop of [_attr_renew]. *)
Definition renew_step (attr : attrs) (new_attr : attrs)
    (m : string * string * string) : res attrs :=
  let '(s, p, sp) := m in
  let ls := get attr s in
  let lp := get attr p in
  match ls, lp with
  | VList xs, VList ys =>
      if eqb ls lp
      then u ← list_set xs;
           Ok (store3 new_attr s p sp (VList u) (VList u) (VList u))
      else u ← list_set (map (λ xy : value * value, pair_ xy.1 xy.2)
                           (List.filter (λ xy : value * value, negb (eqb xy.1 xy.2))
                                        (combine xs ys)));
           Ok (store3 new_attr s p sp (VList (firsts u)) (VList (seconds u))
                      (VList u))
  | VList xs, _ =>
      u ← list_set (map (λ x, pair_ x lp)
                      (List.filter (λ x, negb (eqb x lp)) xs));
      Ok (store3 new_attr s p sp (VList (firsts u)) (VList (seconds u))
                 (VList u))
  | _, VList ys =>
      u ← list_set (map (λ x, pair_ ls x)
                      (List.filter (λ x, negb (eqb x ls)) ys));
      Ok (store3 new_attr s p sp (VList (firsts u)) (VList (seconds u))
                 (VList u))
  | _, _ =>
      if negb (eqb ls lp) then Ok (<[sp := pair_ ls lp]> new_attr)
      else match ls with
           | VNone => Ok new_attr
           | _ => Ok (<[sp := ls]> new_attr)
           end
  end.

Definition _attr_renew (attr : attrs) (marks : list (string * string * string))
  : res attrs :=
  foldM (renew_step attr) ∅ marks.

(** Reaction centre: atoms whose charges differ, ends of bonds whose orders
    differ. *)
Definition center_nodes (self : Graph) : gset Z :=
  let nodes : gset Z :=
    foldl (λ (nodes : gset Z) (na : Z * attrs),
             if negb (eqb (get na.2 "s_charge") (get na.2 "p_charge"))
             then {[na.1]} ∪ nodes else nodes) ∅ (node self) in
  foldl (λ (nodes : gset Z) (e : Z * Z * attrs),
           if negb (eqb (get e.2 "s_bond") (get e.2 "p_bond"))
           then {[e.1.1; e.1.2]} ∪ nodes else nodes) nodes (edges self None).

Definition get_center_atoms (self : Graph) : list Z :=
  elements (center_nodes self).

Definition add_atom (self : Graph) (element s_charge : value)
    (p_charge : value) (_map : option Z) (mark s_x s_y s_z p_x p_y p_z : value)
  : res Graph :=
  m ← match _map with
      | None => Ok (max_default0 (nodes_of self) + 1)
      | Some m => if has_node self m then Raise (Exception "mapping exists")
                  else Ok m
      end;
  let p_charge := match p_charge with VNone => s_charge | _ => p_charge end in
  let p_x := match p_x with VNone => s_x | _ => p_x end in
  let p_y := match p_y with VNone => s_y | _ => p_y end in
  let p_z := match p_z with VNone => s_z | _ => p_z end in
  Ok (add_node self m
        (<["element" := element]> (<["s_charge" := s_charge]>
        (<["p_charge" := p_charge]> (<["mark" := mark]>
        (<["s_x" := s_x]> (<["s_y" := s_y]> (<["s_z" := s_z]>
        (<["p_x" := p_x]> (<["p_y" := p_y]> (<["p_z" := p_z]>
        (<["map" := VInt m]> ∅)))))))))))).

Definition add_bond (self : Graph) (atom1 atom2 : Z) (s_mark p_mark : value)
  : res Graph :=
  if negb (has_node self atom1) || negb (has_node self atom2)
  then Raise (Exception "atoms not found")
  else
    let attr : attrs := if truthy s_mark then {["s_bond" := s_mark]} else ∅ in
    let attr := if truthy p_mark then <["p_bond" := p_mark]> attr else attr in
    if bool_decide (attr = ∅) then Raise (Exception "no bonds data")
    else Ok (add_edge self atom1 atom2 attr).

(** [add_stereo] is a stub. *)
Definition add_stereo (self : Graph) (atom1 atom2 : Z) (s_mark p_mark : value)
  : Graph := self.

(** [(a, b) if a != b else a]. *)
Definition combined (a b : Z) : value :=
  if bool_decide (a ≠ b) then pair_ (VInt a) (VInt b) else VInt a.

Definition label_of (g : Graph) (i : Z) : res attrs :=
  '(sh, sn) ← foldM (scan_bond g "s_bond") (1, 0) (adj g i);
  '(ph, pn) ← foldM (scan_bond g "p_bond") (1, 0) (adj g i);
  Ok (<["s_hyb" := VInt sh]> (<["p_hyb" := VInt ph]>
     (<["sp_hyb" := combined sh ph]>
     (<["s_neighbors" := VInt sn]> (<["p_neighbors" := VInt pn]>
     (<["sp_neighbors" := combined sn pn]> ∅)))))).

Definition reset_query_marks (self : Graph) (copy_ : bool) : res Graph :=
  let g := if copy_ then MoleculeContainer.copy self else self in
  foldM (λ g i, label ← label_of g i; Ok (node_update g i label))
        g (nodes_of g).

End CGRContainer.

(** *** Methods of [MoleculeContainer] inherited by [CGRContainer]

    [fix_data], [pickle] and [unpickle] are defined once and reach the
    class-specific [_attr_renew] and mark tables through [self]. *)

Definition renew_node_attr (self : Graph) (a : attrs) : res attrs :=
  match class_ self with
  | CGR => CGRContainer._attr_renew a CGRContainer._node_marks
  | _ => Ok (MoleculeContainer._attr_renew a MoleculeContainer._node_marks)
  end.

Definition renew_edge_attr (self : Graph) (a : attrs) : res attrs :=
  match class_ self with
  | CGR => CGRContainer._attr_renew a CGRContainer._edge_marks
  | _ => Ok (MoleculeContainer._attr_renew a MoleculeContainer._edge_marks)
  end.

(** [a.clear(); a.update(new)] on the dictionary of an atom, of a bond. *)
Definition node_set (g : Graph) (x : Z) (new : attrs) : Graph :=
  with_node g (aalter (λ _, new) x (node g)).

Definition edge_set (g : Graph) (u v : Z) (new : attrs) : Graph :=
  with_edge g ((λ e : Z * Z * attrs,
                  if joins u v e then (e.1, new) else e) <$> edge g).

Definition edge_attrs (g : Graph) (u v : Z) : res attrs :=
  match edge_get g u v with Some a => Ok a | None => Raise KeyError end.

(** [fix_data(copy, nodes_bunch, edges_bunch)]: the graph [g] the method
    worked on.  Each dictionary is read when its turn comes. *)
Definition fix_data (self : Graph) (copy_ : bool)
    (nodes_bunch edges_bunch : option (list Z)) : res Graph :=
  let g := if copy_ then MoleculeContainer.copy self else self in
  g ← foldM (λ g x,
               a ← node_attrs g x;
               new ← renew_node_attr self a;
               Ok (node_set g x new))
            g (match nodes_bunch with
               | None => nodes_of g
               | Some l => nbunch_iter g l
               end);
  foldM (λ g (e : Z * Z * attrs),
           a ← edge_attrs g e.1.1 e.1.2;
           new ← renew_edge_attr self a;
           Ok (edge_set g e.1.1 e.1.2 new))
        g (edges g edges_bunch).

(** The node-link document: [nodes] holds one entry per atom (its id under
    the key [atom], its attributes), [bonds] one per bond (its ends under
    [atom1] and [atom2], its attributes). *)
Record node_link : Type := mkNodeLink {
  nl_nodes : list (Z * attrs);
  nl_bonds : list (Z * Z * attrs);
  nl_meta : attrs;
  nl_s_only : bool
}.

Definition pickle (self : Graph) : node_link :=
  let '(s_only, node_marks, edge_marks) :=
    match class_ self with
    | CGR => (false, CGRContainer._node_sp, CGRContainer._edge_sp)
    | _ => (true, MoleculeContainer._node_s, MoleculeContainer._edge_s)
    end in
  let g := add_nodes_from (empty PlainGraph)
             ((λ na : Z * attrs, (na.1, keep_keys node_marks na.2))
                <$> node self) in
  let g := add_edges_from g
             ((λ e : Z * Z * attrs, (e.1, keep_keys edge_marks e.2))
                <$> edges self None) in
  mkNodeLink (node g) (edges g None) (meta self) s_only.

Definition node_link_graph (data : node_link) : Graph :=
  add_edges_from (add_nodes_from (empty PlainGraph) (nl_nodes data))
                 (nl_bonds data).

Definition unpickle (data : node_link) : res Graph :=
  let g := node_link_graph data in
  let g := with_class (if nl_s_only data then Molecule else CGR) g in
  g ← fix_data g false None None;
  Ok (with_meta g (update (meta g) (nl_meta data))).

(** *** [ReactionContainer]

    Three lists of entities and the meta data.  A call that may issue a
    [DeprecationWarning] returns the messages it issued with its result. *)
Module ReactionContainer.

Record t : Type := mk {
  __reagents : list Graph;
  __products : list Graph;
  __reactants : list Graph;
  __meta : attrs
}.

Definition deprecated : string := "deprecated key. use reagents instead".

(** [a or b] on lists; an omitted argument is [None]. *)
Definition or_ {A} (a : option (list A)) (b : list A) : list A :=
  match a with
  | Some (x :: l) => x :: l
  | _ => b
  end.

Definition __init__ (substrats products reactants : option (list Graph))
    (meta : option attrs) (reagents : option (list Graph)) : t * list string :=
  (mk (or_ substrats (or_ reagents [])) (or_ products []) (or_ reactants [])
      (default ∅ meta),
   match substrats with Some (_ :: _) => [deprecated] | _ => [] end).

(** What [self[item]] returns: a list of entities or the meta data. *)
Inductive field : Type :=
| Members (l : list Graph)
| Meta (m : attrs).

Definition __getitem__ (self : t) (item : string) : res field * list string :=
  if String.eqb item "substrats" then (Ok (Members (__reagents self)), [deprecated])
  else if String.eqb item "reagents" then (Ok (Members (__reagents self)), [])
  else if String.eqb item "products" then (Ok (Members (__products self)), [])
  else if String.eqb item "reactants" then (Ok (Members (__reactants self)), [])
  else if String.eqb item "meta" then (Ok (Meta (__meta self)), [])
  else (Raise (Exception "Invalid key"), []).

(** The serialized reaction: a dictionary that may hold the keys
    [reagents], [substrats], [products], [reactants] and [meta]. *)
Record document : Type := mkDocument {
  d_reagents : option (list node_link);
  d_substrats : option (list node_link);
  d_products : option (list node_link);
  d_reactants : option (list node_link);
  d_meta : option attrs
}.

Definition pickle (self : t) : document :=
  mkDocument (Some (pickle <$> __reagents self)) None
             (Some (pickle <$> __products self))
             (Some (pickle <$> __reactants self))
             (Some (__meta self)).

(** [data[k]]. *)
Definition key {A} (v : option A) : res A :=
  match v with Some a => Ok a | None => Raise KeyError end.

Definition unpickle (data : document) : res (t * list string) :=
  rs ← match d_reagents data with
       | Some l => Ok l
       | None => key (d_substrats data)
       end;
  reagents ← mapM unpickle rs;
  ps ← key (d_products data);
  products ← mapM unpickle ps;
  meta ← key (d_meta data);
  reactants ← mapM unpickle (default [] (d_reactants data));
  Ok (__init__ None (Some products) (Some reactants) (Some meta)
               (Some reagents)).

Definition copy (self : t) : t * list string :=
  __init__ None (Some (MoleculeContainer.copy <$> __products self))
           (Some (MoleculeContainer.copy <$> __reactants self))
           (Some (__meta self))
           (Some (MoleculeContainer.copy <$> __reagents self)).

End ReactionContainer.

(* ===================================================================== *)
(** ** core.py                                                            *)
(* ===================================================================== *)

Module CGRcore.

(** [split(m, meta)]: the subgraphs on the connected components, in the
    order the components are found ([None]: the search did not end). *)
Definition split (m : Graph) (meta_ : bool) : option (list Graph) :=
  match connected_components m with
  | Some cs => Some ((λ c : gset Z, MoleculeContainer.subgraph m c meta_) <$> cs)
  | None => None
  end.

Definition union (m1 m2 : Graph) : res Graph :=
  if bool_decide ((list_to_set (nodes_of m1) : gset Z)
                  ∩ list_to_set (nodes_of m2) ≠ ∅)
  then Raise (Exception "The node sets of m1 and m2 are not disjoint.")
  else
    let u := empty (if bool_decide (class_ m1 = CGR ∨ class_ m2 = CGR)
                    then CGR else Molecule) in
    let u := add_nodes_from u (node m1) in
    let u := add_nodes_from u (node m2) in
    let u := add_edges_from u (edges m1 None) in
    let u := add_edges_from u (edges m2 None) in
    Ok u.

Inductive role_name : Type := reagents | products.

Record role : Type := mkRole {
  r_edge : string;
  r_stereo : string;
  r_node : list string;
  r_ext_node : list string
}.

Definition __popdict (i : role_name) : role :=
  match i with
  | products =>
      mkRole "p_bond" "p"
        ["p_charge"; "p_neighbors"; "p_hyb"; "p_x"; "p_y"; "p_z";
         "mark"; "element"; "map"]
        ["s_neighbors"; "s_hyb"; "sp_neighbors"; "sp_hyb"]
  | reagents =>
      mkRole "s_bond" "s"
        ["s_charge"; "s_neighbors"; "s_hyb"; "s_x"; "s_y"; "s_z"]
        ["p_neighbors"; "p_hyb"; "sp_neighbors"; "sp_hyb"]
  end.

(** [g.stereo]: the attribute is read, but no class of the hierarchy
    ([MoleculeContainer], [CGRContainer], the engine's [Graph]) defines it
    and no constructor sets it, so the lookup raises. *)
Definition stereo (g : Graph) : res (gmap Z (gmap Z attrs)) :=
  Raise AttributeError.

(** The staged stereo table [new_stereo], keyed by [s['atoms']]. *)
Abbreviation staged := (list (value * attrs)).

Fixpoint staged_set (k : value) (f : option attrs → attrs) (t : staged)
  : staged :=
  match t with
  | [] => [(k, f None)]
  | (k', d) :: t =>
      if eqb k k' then (k', f (Some d)) :: t else (k', d) :: staged_set k f t
  end.

(** The stereo part of the body of the loop over the bonds of the common
    atoms. *)
Definition stage_common (g : Graph) (s_pop : string) (n m : Z)
    (new_stereo : staged) : res staged :=
  st ← stereo g;
  match st !! n ≫= (λ sn, sn !! m) with
  | Some s =>
      let stereo := get s s_pop in
      if truthy stereo
      then k ← item s "atoms";
           Ok (staged_set k (λ d, <[s_pop := stereo]> (default ∅ d)) new_stereo)
      else Ok new_stereo
  | None => Ok new_stereo
  end.

(** The stereo part of the body of the loop over the bonds of the atoms
    of one graph only. *)
Definition stage_uniq (g : Graph) (n m : Z) (new_stereo : staged)
  : res staged :=
  st ← stereo g;
  match st !! n ≫= (λ sn, sn !! m) with
  | Some s => k ← item s "atoms"; Ok (staged_set k (λ _, s) new_stereo)
  | None => Ok new_stereo
  end.

(** The body of the loop over the bonds of the common atoms: both ends
    join [ext_common]; a marked bond is written to [h] with this role's
    mark alone, and its stereo is staged. *)
Definition common_bond_step (g : Graph) (pop s_pop : string)
    (st : Graph * gset Z * staged) (e : Z * Z * attrs)
  : res (Graph * gset Z * staged) :=
  let '(h, ext_common, new_stereo) := st in
  let '(n, m, attr) := e in
  let ext_common : gset Z := {[m]} ∪ ({[n]} ∪ ext_common) in
  let bond := get attr pop in
  if truthy bond
  then let h := add_edge h n m {[pop := bond]} in
       new_stereo ← stage_common g s_pop n m new_stereo;
       Ok (h, ext_common, new_stereo)
  else Ok (h, ext_common, new_stereo).

(** The body of the loop over the bonds of the atoms of this graph only. *)
Definition uniq_bond_step (g : Graph) (st : Graph * staged)
    (e : Z * Z * attrs) : res (Graph * staged) :=
  let '(h, new_stereo) := st in
  let '(n, m, attr) := e in
  let h := add_edge h n m attr in
  new_stereo ← stage_uniq g n m new_stereo;
  Ok (h, new_stereo).

(** The three loops that copy atoms into [h]. *)
Definition copy_atoms (g : Graph) (pick : attrs → attrs) (h : Graph)
    (ns : list Z) : res Graph :=
  foldM (λ h n, a ← node_attrs g n; Ok (add_node h n (pick a))) h ns.

(** One iteration of the loop over [(('reagents', m1), ('products', m2))]. *)
Definition compose_role (common : gset Z) (i : role_name) (g : Graph)
    (st : Graph * gset Z * staged) : res (Graph * gset Z * staged) :=
  let '(h, extended_common, new_stereo) := st in
  let pdi := __popdict i in
  let pop := r_edge pdi in
  let s_pop := r_stereo pdi in
  '(h, ext_common, new_stereo) ←
    foldM (common_bond_step g pop s_pop) (h, common, new_stereo)
          (edges g (Some (elements common)));
  let uniq : gset Z := list_to_set (nodes_of g) ∖ ext_common in
  '(h, new_stereo) ←
    foldM (uniq_bond_step g) (h, new_stereo)
          (edges g (Some (elements uniq)));
  h ← copy_atoms g (keep_keys (r_node pdi)) h (elements common);
  h ← copy_atoms g (drop_keys (r_ext_node pdi)) h
                 (elements (ext_common ∖ common));
  h ← copy_atoms g id h (elements uniq);
  Ok (h, extended_common ∪ ext_common, new_stereo).

(** The final loop: the stereo hook on every staged pair. *)
Definition apply_stereo (h : Graph) (kx : value * attrs) : res Graph :=
  match kx.1 with
  | VTuple [VInt a1; VInt a2] =>
      Ok (CGRContainer.add_stereo h a1 a2 (get kx.2 "s") (get kx.2 "p"))
  | _ => Raise TypeError
  end.

Definition compose (m1 m2 : Graph) : res Graph :=
  let common : gset Z :=
    list_to_set (nodes_of m1) ∩ list_to_set (nodes_of m2) in
  st ← compose_role common reagents m1 (empty CGR, ∅, []);
  '(h, extended_common, new_stereo) ← compose_role common products m2 st;
  h ← fix_data h false (Some (elements extended_common))
                       (Some (elements common));
  foldM apply_stereo h new_stereo.

End CGRcore.

(* ===================================================================== *)
(** ** Vocabulary of the properties                                       *)
(* ===================================================================== *)

(** A bond up to the order of its ends: unordered pair and data. *)
Definition bond_id (e : Z * Z * attrs) : Z * Z * attrs := (ekey e.1.1 e.1.2, e.2).

(** The class of the result of [union]. *)
Definition union_class (m1 m2 : Graph) : cls :=
  if bool_decide (class_ m1 = CGR ∨ class_ m2 = CGR) then CGR else Molecule.

(** *** [compose]: where the stereo table is read

    The atoms present in both graphs; a bond of [g] that touches a common
    atom and carries the bond mark [pop]; an atom of [g] that is neither
    common nor bonded to a common atom, and a bond at such an atom. *)
Definition common_atoms (m1 m2 : Graph) : gset Z :=
  list_to_set (nodes_of m1) ∩ list_to_set (nodes_of m2).

Definition marked_common_bond (pop : string) (g : Graph) (common : gset Z)
  : Prop :=
  ∃ u v d, (u, v, d) ∈ edge g ∧ (u ∈ common ∨ v ∈ common) ∧
           truthy (get d pop) = true.

Definition role_local (g : Graph) (common : gset Z) (n : Z) : Prop :=
  n ∈ nodes_of g ∧ (n ∉ common) ∧
  (∀ u v d, (u, v, d) ∈ edge g → (u ∈ common ∨ v ∈ common) → n ≠ u ∧ n ≠ v).

Definition local_bond (g : Graph) (common : gset Z) : Prop :=
  ∃ u v d, (u, v, d) ∈ edge g ∧
           (role_local g common u ∨ role_local g common v).

Definition reads_stereo (pop : string) (g : Graph) (common : gset Z) : Prop :=
  marked_common_bond pop g common ∨ local_bond g common.

(** *** Hybridization

    The bond orders an atom sees in one channel, in iteration order; how
    many of them are double bonds; whether one has order [k]. *)
Definition orders (b : string) (g : Graph) (i : Z) : list value :=
  (λ nd : Z * attrs, get nd.2 b) <$> adj g i.

Definition doubles (bs : list value) : nat :=
  length (filter (λ b, eqb b (VInt 2) = true) bs).

Definition has_order (k : Z) (bs : list value) : bool :=
  existsb (λ b, eqb b (VInt k)) bs.

(** The double bond already counted in the class [h]. *)
Definition counted (h : Z) : nat := if bool_decide (h = 2) then 1%nat else 0%nat.

(** The bonds do not hold an aromatic bond together with a triple bond or
    two double bonds. *)
Definition order_stable (bs : list value) : Prop :=
  has_order 4 bs = false ∨ (has_order 3 bs = false ∧ (doubles bs ≤ 1)%nat).

(** The attribute [k] of atom [n]. *)
Definition node_mark (g : Graph) (n : Z) (k : string) : option value :=
  a ← node_get g n; a !! k.

(** *** Example entities

    Atoms as [add_atom] writes them. *)
Definition molecule_atom (element : string) (charge m : Z) : attrs :=
  <["element" := VStr element]> (<["s_charge" := VInt charge]>
  (<["mark" := VStr "0"]> (<["s_x" := VInt 0]> (<["s_y" := VInt 0]>
  (<["s_z" := VInt 0]> (<["map" := VInt m]> ∅)))))).

Definition cgr_atom (element : string) (s_charge p_charge m : Z) : attrs :=
  <["element" := VStr element]> (<["s_charge" := VInt s_charge]>
  (<["p_charge" := VInt p_charge]> (<["mark" := VStr "0"]>
  (<["s_x" := VInt 0]> (<["s_y" := VInt 0]> (<["s_z" := VInt 0]>
  (<["p_x" := VInt 0]> (<["p_y" := VInt 0]> (<["p_z" := VInt 0]>
  (<["map" := VInt m]> ∅)))))))))).

(** Reagents: atoms 1, 2, 3 with a single bond 1-2.  Products: the same
    atoms with a double bond 2-3 on the product side. *)
Definition c1_reagents : Graph :=
  mkGraph Molecule
    [(1, molecule_atom "C" 0 1); (2, molecule_atom "C" 0 2);
     (3, molecule_atom "O" 0 3)]
    [(1, 2, {["s_bond" := VInt 1]})] ∅.

Definition c1_products : Graph :=
  mkGraph CGR
    [(1, cgr_atom "C" 0 0 1); (2, cgr_atom "C" 0 0 2); (3, cgr_atom "O" 0 0 3)]
    [(2, 3, {["p_bond" := VInt 2]})] ∅.

(** Two entities without bonds: here [compose] completes. *)
Definition c2_reagents : Graph :=
  mkGraph CGR [(1, cgr_atom "C" 0 0 1); (2, cgr_atom "O" 0 0 2)] [] ∅.
Definition c2_products : Graph :=
  mkGraph CGR [(1, cgr_atom "C" 0 1 1); (2, cgr_atom "O" 0 0 2)] [] ∅.

(** A one-atom molecule and a one-atom CGR whose atoms hold the keys of
    the serialization schema and no other. *)
Definition c3_molecule : Graph :=
  mkGraph Molecule [(1, delete "map" (molecule_atom "C" 0 1))] [] ∅.

Definition c3_cgr : Graph :=
  mkGraph CGR [(1, delete "map" (cgr_atom "C" 0 1 1))] [] ∅.

(** A one-atom CGR whose charge changes, and a one-atom molecule, as
    [add_atom] builds them. *)
Definition c4_cgr : Graph :=
  mkGraph CGR [(1, cgr_atom "C" 0 1 1)] [] ∅.

Definition c5_molecule : Graph :=
  mkGraph Molecule [(1, molecule_atom "C" 0 1)] [] ∅.

(** Atom 1 with a triple and an aromatic bond, stored in either order. *)
Definition c6_triple_first : Graph :=
  mkGraph Molecule
    [(1, molecule_atom "C" 0 1); (2, molecule_atom "C" 0 2);
     (3, molecule_atom "C" 0 3)]
    [(1, 2, {["s_bond" := VInt 3]}); (1, 3, {["s_bond" := VInt 4]})] ∅.

Definition c6_aromatic_first : Graph :=
  mkGraph Molecule
    [(1, molecule_atom "C" 0 1); (2, molecule_atom "C" 0 2);
     (3, molecule_atom "C" 0 3)]
    [(1, 3, {["s_bond" := VInt 4]}); (1, 2, {["s_bond" := VInt 3]})] ∅.

(** Two molecules with disjoint atom ids. *)
Definition c7_left : Graph :=
  mkGraph Molecule
    [(1, molecule_atom "C" 0 1); (2, molecule_atom "O" 0 2)]
    [(1, 2, {["s_bond" := VInt 2]})] ∅.

Definition c7_right : Graph :=
  mkGraph CGR
    [(3, cgr_atom "N" 0 1 3); (4, cgr_atom "C" 0 0 4)]
    [(4, 3, <["p_bond" := VInt 1]> {["s_bond" := VInt 3]})] ∅.

(** Atoms 1 and 2 bonded, atom 3 without bonds. *)
Definition c9_graph : Graph :=
  mkGraph Molecule
    [(1, molecule_atom "C" 0 1); (2, molecule_atom "O" 0 2);
     (3, molecule_atom "N" 0 3)]
    [(1, 2, {["s_bond" := VInt 1]})] ∅.

(** *** Product-side marks

    A key is a product-side mark; an atom carries none; every atom of an
    entity carries none. *)
Definition p_marked (k : string) : bool := String.prefix "p_" k.

Definition s_only (a : attrs) : Prop :=
  ∀ k, is_Some (a !! k) → p_marked k = false.

Definition molecule_s_only (g : Graph) : Prop :=
  ∀ n a, node_get g n = Some a → s_only a.

(** [a'] is [a] updated with one or more labels that satisfy [K]. *)
Inductive relabelled (K : attrs → Prop) (a : attrs) : attrs → Prop :=
| relabelled_once label : K label → relabelled K a (update a label)
| relabelled_again a' label :
    relabelled K a a' → K label → relabelled K a (update a' label).

(** What [reset_query_marks] of a molecule writes on every atom. *)
Definition molecule_label (label : attrs) : Prop :=
  label !! "p_hyb" = Some (VInt 1) ∧ label !! "p_neighbors" = Some (VInt 0) ∧
  ∀ k, is_Some (label !! k) →
       k ∈ ["s_hyb"; "p_hyb"; "s_neighbors"; "p_neighbors"].

(** The results of [fix_data] on [c4_cgr], once and twice. *)
Definition c4_once : Graph :=
  mkGraph CGR [(1, {["sp_charge" := pair_ (VInt 0) (VInt 1)]})] [] ∅.

Definition c4_twice : Graph := mkGraph CGR [(1, ∅)] [] ∅.

(** Products with a fragment of their own: atoms 5 and 6, bonded. *)
Definition c2_products_fragment : Graph :=
  mkGraph CGR
    [(1, cgr_atom "C" 0 1 1); (5, cgr_atom "O" 0 0 5); (6, cgr_atom "H" 0 0 6)]
    [(5, 6, {["p_bond" := VInt 1]})] ∅.

(** A CGR whose atom 1 gains a charge and whose bond 2-3 is unchanged. *)
Definition c8_cgr : Graph :=
  mkGraph CGR
    [(1, cgr_atom "N" 0 1 1); (2, cgr_atom "C" 0 0 2); (3, cgr_atom "C" 0 0 3)]
    [(2, 3, <["p_bond" := VInt 1]> {["s_bond" := VInt 1]})] ∅.

(** *** Normalization

    What [_attr_renew] of a molecule keeps of key [k]; the atom store with
    the atoms of [ns] rewritten by [f]; the bond store with the bonds of
    the pairs [ks] rewritten by [f]. *)
Definition kept (a : attrs) (k : string) : option value :=
  match get a k with VNone => None | v => Some v end.

Definition renewed_nodes (ns : list Z) (f : attrs → attrs)
    (l : list (Z * attrs)) : list (Z * attrs) :=
  (λ na : Z * attrs, if decide (na.1 ∈ ns) then (na.1, f na.2) else na) <$> l.

Definition renewed_edges (ks : list (Z * Z)) (f : attrs → attrs)
    (es : list (Z * Z * attrs)) : list (Z * Z * attrs) :=
  (λ e : Z * Z * attrs,
     if decide (ekey e.1.1 e.1.2 ∈ ks) then (e.1, f e.2) else e) <$> es.

(** The atoms a bunch selects; the two rewritings of a molecule. *)
Definition bunch (g : Graph) (nodes_bunch : option (list Z)) : list Z :=
  match nodes_bunch with None => nodes_of g | Some l => nbunch_iter g l end.

Definition renew_atom (a : attrs) : attrs :=
  MoleculeContainer._attr_renew a MoleculeContainer._node_marks.

Definition renew_bond (a : attrs) : attrs :=
  MoleculeContainer._attr_renew a MoleculeContainer._edge_marks.

(** The one-atom molecule with the query marks [reset_query_marks]
    writes on it. *)
Definition c5_marked : Graph :=
  mkGraph Molecule
    [(1, <["s_hyb" := VInt 1]> (<["p_hyb" := VInt 1]>
         (<["s_neighbors" := VInt 0]> (<["p_neighbors" := VInt 0]>
         (molecule_atom "C" 0 1)))))] [] ∅.

(** The keys [reset_query_marks] of a molecule writes. *)
Definition query_marks : list string :=
  ["s_hyb"; "p_hyb"; "s_neighbors"; "p_neighbors"].

(** *** Building an entity

    The dictionaries [add_atom] writes for a new atom. *)
Definition molecule_record (element s_charge mark x y z : value) (m : Z)
  : attrs :=
  <["element" := element]> (<["s_charge" := s_charge]>
  (<["mark" := mark]> (<["s_x" := x]> (<["s_y" := y]> (<["s_z" := z]>
  (<["map" := VInt m]> ∅)))))).

(** [b if a is None else a]. *)
Definition or_default (a b : value) : value :=
  match a with VNone => b | _ => a end.

Definition cgr_record (element s_charge p_charge mark s_x s_y s_z p_x p_y p_z
    : value) (m : Z) : attrs :=
  <["element" := element]> (<["s_charge" := s_charge]>
  (<["p_charge" := p_charge]> (<["mark" := mark]>
  (<["s_x" := s_x]> (<["s_y" := s_y]> (<["s_z" := s_z]>
  (<["p_x" := p_x]> (<["p_y" := p_y]> (<["p_z" := p_z]>
  (<["map" := VInt m]> ∅)))))))))).

(** An entity built from an empty container by the [add_atom] and
    [add_bond] of its class. *)
Inductive built : Graph → Prop :=
| built_molecule meta_ : built (mkGraph Molecule [] [] meta_)
| built_cgr meta_ : built (mkGraph CGR [] [] meta_)
| built_add_atom g element s_charge _map mark x y z g' :
    built g → class_ g = Molecule →
    MoleculeContainer.add_atom g element s_charge _map mark x y z = Ok g' →
    built g'
| built_add_bond g atom1 atom2 mark g' :
    built g → class_ g = Molecule →
    MoleculeContainer.add_bond g atom1 atom2 mark = Ok g' →
    built g'
| built_cgr_add_atom g element s_charge p_charge _map mark
    s_x s_y s_z p_x p_y p_z g' :
    built g → class_ g = CGR →
    CGRContainer.add_atom g element s_charge p_charge _map mark
                          s_x s_y s_z p_x p_y p_z = Ok g' →
    built g'
| built_cgr_add_bond g atom1 atom2 s_mark p_mark g' :
    built g → class_ g = CGR →
    CGRContainer.add_bond g atom1 atom2 s_mark p_mark = Ok g' →
    built g'.

(** Every atom records its own id under [map] and has an element; every
    bond carries a mark. *)
Definition atoms_recorded (g : Graph) : Prop :=
  ∀ n a, node_get g n = Some a →
         a !! "map" = Some (VInt n) ∧ is_Some (a !! "element").

Definition bonds_marked (g : Graph) : Prop :=
  ∀ u v d, (u, v, d) ∈ edge g →
           truthy (get d "s_bond") = true ∨ truthy (get d "p_bond") = true.

(** Every bond of a molecule carries a reagent-side mark. *)
Definition s_bonds_marked (g : Graph) : Prop :=
  ∀ u v d, (u, v, d) ∈ edge g → truthy (get d "s_bond") = true.

(** *** Serialization

    The attribute keys [pickle] writes for the atoms and for the bonds of
    an entity; the schema filter on an atom store and on a bond store. *)
Definition node_schema (g : Graph) : list string :=
  match class_ g with
  | CGR => CGRContainer._node_sp
  | _ => MoleculeContainer._node_s
  end.

Definition edge_schema (g : Graph) : list string :=
  match class_ g with
  | CGR => CGRContainer._edge_sp
  | _ => MoleculeContainer._edge_s
  end.

Definition keep_nodes (keys : list string) (l : list (Z * attrs))
  : list (Z * attrs) :=
  (λ na : Z * attrs, (na.1, keep_keys keys na.2)) <$> l.

Definition keep_edges (keys : list string) (l : list (Z * Z * attrs))
  : list (Z * Z * attrs) :=
  (λ e : Z * Z * attrs, (e.1, keep_keys keys e.2)) <$> l.

(** The atom store with every dictionary rewritten by [f]. *)
Definition map_nodes (f : attrs → attrs) (l : list (Z * attrs))
  : list (Z * attrs) :=
  (λ na : Z * attrs, (na.1, f na.2)) <$> l.

(** *** Normalization of a part of an entity

    Whether atom [x] is selected by a bunch ([None] selects all). *)
Definition in_bunch (nbunch : option (list Z)) (x : Z) : bool :=
  match nbunch with
  | None => true
  | Some l => bool_decide (x ∈ l)
  end.

(** *** Normalization of a CGR

    A value that is no list; the combined mark [_attr_renew] of a CGR
    stores for two such values: the pair when they differ, the common
    value when it is not [None], nothing otherwise. *)
Definition scalar (v : value) : bool :=
  match v with VList _ => false | _ => true end.

Definition sp_mark (ls lp : value) : option value :=
  if negb (eqb ls lp) then Some (pair_ ls lp)
  else match ls with VNone => None | _ => Some ls end.

Definition sp_store (attr new_attr : attrs) (m : string * string * string)
  : attrs :=
  match sp_mark (get attr m.1.1) (get attr m.1.2) with
  | Some v => <[m.2 := v]> new_attr
  | None => new_attr
  end.

(** *** Query marks

    The atom store with the label [lab n] written on every atom [n] of
    [ns]; a neighbour that counts for [neighbors] in the channel of bond
    key [b]: the bond is marked there and the neighbour is no hydrogen;
    their number around atom [i]. *)
Definition labelled (lab : Z → attrs) (ns : list Z) (l : list (Z * attrs))
  : list (Z * attrs) :=
  (λ na : Z * attrs,
     if decide (na.1 ∈ ns) then (na.1, update na.2 (lab na.1)) else na) <$> l.

Definition heavy (g : Graph) (b : string) (nd : Z * attrs) : bool :=
  truthy (get nd.2 b) &&
  match node_mark g nd.1 "element" with
  | Some el => negb (eqb el (VStr "H"))
  | None => false
  end.

Definition neighbors_of (b : string) (g : Graph) (i : Z) : Z :=
  Z.of_nat (length (filter (λ nd, heavy g b nd = true) (adj g i))).

(** The labels [reset_query_marks] writes on atom [i]. *)
Definition molecule_marks (g : Graph) (i : Z) : attrs :=
  <["s_hyb" := VInt (hyb_of (orders "s_bond" g i))]> (<["p_hyb" := VInt 1]>
  (<["s_neighbors" := VInt (neighbors_of "s_bond" g i)]>
  (<["p_neighbors" := VInt 0]> ∅))).

Definition cgr_marks (g : Graph) (i : Z) : attrs :=
  let sh := hyb_of (orders "s_bond" g i) in
  let ph := hyb_of (orders "p_bond" g i) in
  let sn := neighbors_of "s_bond" g i in
  let pn := neighbors_of "p_bond" g i in
  <["s_hyb" := VInt sh]> (<["p_hyb" := VInt ph]>
  (<["sp_hyb" := CGRContainer.combined sh ph]>
  (<["s_neighbors" := VInt sn]> (<["p_neighbors" := VInt pn]>
  (<["sp_neighbors" := CGRContainer.combined sn pn]> ∅))))).

(** Every atom has an element. *)
Definition elements_known (g : Graph) : Prop :=
  ∀ n a, node_get g n = Some a → is_Some (a !! "element").

(** *** Environments

    One expansion step of [get_environment]: the ends of the bonds of the
    atoms of [A]; a list of node sets in which each set is the step of the
    one before and is not empty. *)
Definition step (g : Graph) (A : gset Z) : gset Z :=
  list_to_set (edges g (Some (elements A)) ≫= λ e : Z * Z * attrs, [e.1.1; e.1.2]).

Fixpoint chain (g : Graph) (cur : gset Z) (ext : list (gset Z)) : Prop :=
  match ext with
  | [] => True
  | n :: ext => n = step g cur ∧ n ≠ ∅ ∧ chain g n ext
  end.

(** *** Reactions

    [g'] is [g] as a molecule read back from its serialization: the same
    atoms, bonds and meta data, every dictionary normalized. *)
Definition read_back (g g' : Graph) : Prop :=
  wf g' ∧ class_ g' = Molecule ∧ meta g' = meta g ∧
  node g' = map_nodes renew_atom (node g) ∧
  (∀ u v, edge_get g' u v = renew_bond <$> edge_get g u v).

(** [g'] is a faithful copy of [g]. *)
Definition same_entity (g g' : Graph) : Prop :=
  wf g' ∧ class_ g' = class_ g ∧ meta g' = meta g ∧ node g' = node g ∧
  (∀ u v, edge_get g' u v = edge_get g u v).

(** Every member of a reaction satisfies [P]. *)
Definition members (P : Graph → Prop) (r : ReactionContainer.t) : Prop :=
  Forall P (ReactionContainer.__reagents r) ∧
  Forall P (ReactionContainer.__products r) ∧
  Forall P (ReactionContainer.__reactants r).

(** *** Connected components

    Atom [x] can be reached from atom [s] along bonds. *)
Inductive connected (g : Graph) (s : Z) : Z → Prop :=
| connected_refl : connected g s s
| connected_step u v d :
    connected g s u → (v, d) ∈ adj g u → connected g s v.

(** The invariant of the breadth-first search from [s]: the source is
    known, every known atom can be reached from [s], and the neighbours
    of a seen atom are known. *)
Definition bfs_inv (g : Graph) (s : Z) (seen next : gset Z) : Prop :=
  s ∈ seen ∪ next ∧
  (∀ x, x ∈ seen ∪ next → connected g s x) ∧
  (∀ x y d, x ∈ seen → (y, d) ∈ adj g x → y ∈ seen ∪ next).

(** A set of atoms that no bond leaves. *)
Definition closed (g : Graph) (A : gset Z) : Prop :=
  ∀ x y, x ∈ A → connected g x y → y ∈ A.

(** *** Further example entities

    A reaction of two molecules, without reactants. *)
Definition c7_reaction : ReactionContainer.t :=
  ReactionContainer.mk [c7_left] [c5_molecule] [] ∅.

(* ===================================================================== *)
(** * Properties                                                          *)
(* ===================================================================== *)

(** ** Values *)

Section value_induction.
Variable P : value → Prop.
Hypothesis HNone : P VNone.
Hypothesis HInt : ∀ z, P (VInt z).
Hypothesis HStr : ∀ s, P (VStr s).
Hypothesis HTuple : ∀ l, Forall P l → P (VTuple l).
Hypothesis HList : ∀ l, Forall P l → P (VList l).

Fixpoint value_nested_ind (v : value) : P v :=
  let fix all (l : list value) : Forall P l :=
    match l with
    | [] => @List.Forall_nil value P
    | x :: l => @List.Forall_cons value P x l (value_nested_ind x) (all l)
    end in
  match v with
  | VNone => HNone
  | VInt z => HInt z
  | VStr s => HStr s
  | VTuple l => HTuple l (all l)
  | VList l => HList l (all l)
  end.
End value_induction.

Lemma eqb_eq (a b : value) : eqb a b = true ↔ a = b.
Proof.
  revert b. induction a as [| z | s | l IH | l IH] using value_nested_ind;
    intros [| z' | s' | l' | l']; simpl; try (split; [discriminate | congruence]);
    try done.
  - rewrite Z.eqb_eq. split; congruence.
  - rewrite String.eqb_eq. split; congruence.
  - revert l'. induction IH as [| x l Hx _ IHl]; intros [| y l']; simpl;
      try (split; [discriminate | congruence]); try done.
    rewrite andb_true_iff, Hx, (IHl l'). split; [intros [-> ?] | intros ?]; [|split]; congruence.
  - revert l'. induction IH as [| x l Hx _ IHl]; intros [| y l']; simpl;
      try (split; [discriminate | congruence]); try done.
    rewrite andb_true_iff, Hx, (IHl l'). split; [intros [-> ?] | intros ?]; [|split]; congruence.
Qed.

Lemma eqb_neq (a b : value) : eqb a b = false ↔ a ≠ b.
Proof.
  rewrite <- eqb_eq. destruct (eqb a b); split; congruence.
Qed.

(** ** The graph engine *)

Section alist.
Context {V : Type}.
Implicit Types (l : list (Z * V)) (k : Z).

Lemma alookup_None k l : alookup k l = None ↔ k ∉ l.*1.
Proof.
  induction l as [| [k' v] l IH]; simpl.
  - split; [intros _; apply not_elem_of_nil | done].
  - rewrite not_elem_of_cons. destruct (decide (k = k')); [|tauto].
    split; [discriminate | tauto].
Qed.

Lemma alookup_Some_elem k v l : alookup k l = Some v → (k, v) ∈ l.
Proof.
  induction l as [| [k' v'] l IH]; simpl; [discriminate|].
  destruct (decide (k = k')) as [->|]; intros H.
  - injection H as ->. apply elem_of_cons; by left.
  - apply elem_of_cons; right; auto.
Qed.

Lemma alookup_is_Some k l : is_Some (alookup k l) ↔ k ∈ l.*1.
Proof.
  rewrite <- not_eq_None_Some, alookup_None.
  destruct (decide (k ∈ l.*1)); tauto.
Qed.

Lemma elem_alookup k v l : NoDup l.*1 → (k, v) ∈ l → alookup k l = Some v.
Proof.
  induction l as [| [k' v'] l IH]; simpl; intros Hnd Hin.
  - by apply elem_of_nil in Hin.
  - apply NoDup_cons in Hnd as [Hk Hnd].
    apply elem_of_cons in Hin as [Heq | Hin].
    + injection Heq as -> ->. by rewrite decide_True.
    + rewrite decide_False; [auto|]. intros ->. apply Hk.
      apply list_elem_of_fmap. by exists (k', v).
Qed.

Lemma alookup_app k l1 l2 :
  alookup k (l1 ++ l2) =
  match alookup k l1 with Some v => Some v | None => alookup k l2 end.
Proof.
  induction l1 as [| [k' v'] l1 IH]; simpl; [done|].
  by destruct (decide (k = k')).
Qed.

Lemma aalter_keys (f : V → V) k l : (aalter f k l).*1 = l.*1.
Proof.
  induction l as [| [k' v'] l IH]; [done|]. simpl.
  destruct (decide (k = k')); [done|]. rewrite !fmap_cons. by f_equal.
Qed.

Lemma alookup_aalter (f : V → V) k k' l :
  alookup k' (aalter f k l) =
  if decide (k = k') then f <$> alookup k' l else alookup k' l.
Proof.
  induction l as [| [k0 v0] l IH]; simpl; [by destruct (decide (k = k'))|].
  destruct (decide (k = k0)) as [->|Hk]; simpl.
  - destruct (decide (k' = k0)) as [->|].
    + by rewrite decide_True.
    + rewrite decide_False by done. done.
  - destruct (decide (k' = k0)) as [->|].
    + rewrite decide_False by done. done.
    + done.
Qed.
End alist.

Lemma has_node_true g n : has_node g n = true ↔ n ∈ nodes_of g.
Proof. unfold has_node. apply bool_decide_eq_true. Qed.

Lemma has_node_false g n : has_node g n = false ↔ n ∉ nodes_of g.
Proof. unfold has_node. apply bool_decide_eq_false. Qed.

Lemma node_get_is_Some g n : is_Some (node_get g n) ↔ n ∈ nodes_of g.
Proof. apply alookup_is_Some. Qed.

Lemma node_attrs_ok g n : n ∈ nodes_of g → ∃ a, node_attrs g n = Ok a ∧ node_get g n = Some a.
Proof.
  intros [a Ha]%node_get_is_Some. exists a. unfold node_attrs. by rewrite Ha.
Qed.

(** [add_node] *)

Lemma add_node_nodes_of g n a x :
  x ∈ nodes_of (add_node g n a) ↔ x = n ∨ x ∈ nodes_of g.
Proof.
  unfold add_node. destruct (has_node g n) eqn:Hn; unfold nodes_of; simpl.
  - rewrite aalter_keys. apply has_node_true in Hn. split; [tauto|].
    intros [->|]; done.
  - rewrite fmap_app, elem_of_app. simpl. rewrite list_elem_of_singleton. tauto.
Qed.

Lemma add_node_fresh g n a :
  n ∉ nodes_of g → add_node g n a = with_node g (node g ++ [(n, a)]).
Proof. intros Hn%has_node_false. unfold add_node. by rewrite Hn. Qed.

Lemma node_get_add_node g n a x :
  node_get (add_node g n a) x =
  if decide (n = x)
  then Some (match node_get g x with Some d => update d a | None => a end)
  else node_get g x.
Proof.
  unfold add_node, node_get. destruct (has_node g n) eqn:Hn; simpl.
  - rewrite alookup_aalter. destruct (decide (n = x)) as [->|]; [|done].
    apply has_node_true, alookup_is_Some in Hn as [d Hd].
    unfold node_get in *. by rewrite Hd.
  - rewrite alookup_app. apply has_node_false in Hn.
    destruct (decide (n = x)) as [->|Hne].
    + apply alookup_None in Hn. rewrite Hn. simpl. by rewrite decide_True.
    + destruct (alookup x (node g)); [done|]. simpl. by rewrite decide_False.
Qed.

Lemma add_nodes_from_fresh g l :
  NoDup l.*1 → (∀ k, k ∈ l.*1 → k ∉ nodes_of g) →
  add_nodes_from g l = with_node g (node g ++ l).
Proof.
  unfold add_nodes_from. revert g.
  induction l as [| [k a] l IH]; simpl; intros g Hnd Hfresh.
  - rewrite app_nil_r. by destruct g.
  - apply NoDup_cons in Hnd as [Hk Hnd].
    rewrite add_node_fresh by (apply Hfresh, elem_of_cons; by left).
    rewrite IH; [| done |].
    + unfold with_node; simpl. by rewrite <- app_assoc.
    + intros k' Hk'. unfold nodes_of; simpl.
      rewrite fmap_app, elem_of_app. simpl. rewrite list_elem_of_singleton.
      intros [?| ->]; [|done].
      eapply Hfresh; [|done]. apply elem_of_cons; by right.
Qed.

(** [g[n]]: the adjacency derived from the bond store. *)

Lemma elem_of_adj_in es u v d :
  (v, d) ∈ adj_in es u ↔
  ∃ a b, (a, b, d) ∈ es ∧ ((a = u ∧ b = v) ∨ (a = v ∧ b = u)).
Proof.
  unfold adj_in. rewrite list_elem_of_omap. split.
  - intros ([[a b] d'] & Hin & Hinc). unfold incident in Hinc; simpl in Hinc.
    exists a, b. repeat case_decide; simplify_eq; auto.
  - intros (a & b & Hin & Hab). exists (a, b, d). split; [done|].
    unfold incident; simpl. repeat case_decide; naive_solver.
Qed.

Lemma adj_in_sym es u v d : (v, d) ∈ adj_in es u → (u, d) ∈ adj_in es v.
Proof. rewrite !elem_of_adj_in. naive_solver. Qed.

Lemma adj_in_app es1 es2 n : adj_in (es1 ++ es2) n = adj_in es1 n ++ adj_in es2 n.
Proof. apply omap_app. Qed.

(** The bonds an [EdgeDataView] reports. *)

Lemma elem_of_edges_from es seen ns u v d :
  (u, v, d) ∈ edges_from es seen ns →
  u ∈ ns ∧ (v, d) ∈ adj_in es u ∧ v ∉ seen.
Proof.
  revert seen. induction ns as [| n ns IH]; simpl; intros seen.
  - by intros ?%elem_of_nil.
  - rewrite elem_of_app, list_elem_of_fmap. intros [([v' d'] & Heq & Hin) | Hin].
    + simpl in Heq. simplify_eq. apply list_elem_of_filter in Hin as [Hs Hin].
      split; [by left|done].
    + apply IH in Hin as (? & ? & ?). split; [by right|]. split; [done|set_solver].
Qed.

Lemma edges_from_covers es seen ns u v d :
  u ∈ ns → u ∉ seen → v ∉ seen → (v, d) ∈ adj_in es u →
  (u, v, d) ∈ edges_from es seen ns ∨ (v, u, d) ∈ edges_from es seen ns.
Proof.
  revert seen. induction ns as [| n ns IH]; simpl; intros seen Hu Hus Hvs Hadj.
  - by apply elem_of_nil in Hu.
  - rewrite !elem_of_app, !list_elem_of_fmap.
    destruct (decide (u = n)) as [->|Hun].
    { left; left. exists (v, d). split; [done|]. by apply list_elem_of_filter. }
    destruct (decide (v = n)) as [->|Hvn].
    { right; left. exists (u, d). split; [done|].
      apply list_elem_of_filter. split; [done|]. by apply adj_in_sym. }
    apply elem_of_cons in Hu as [?|Hu]; [done|].
    destruct (IH ({[n]} ∪ seen)) as [?|?]; [done|set_solver|set_solver|done|..]; auto.
Qed.

(** The ends of the reported bonds: the bunch atoms that have a bond, and
    their neighbours. *)
Lemma edges_from_ends es ns (x : Z) :
  x ∈ (edges_from es ∅ ns ≫= λ e : Z * Z * attrs, [e.1.1; e.1.2]) ↔
  ∃ u v d, u ∈ ns ∧ (v, d) ∈ adj_in es u ∧ (x = u ∨ x = v).
Proof.
  rewrite list_elem_of_bind. split.
  - intros ([[u v] d] & Hx & Hin). simpl in Hx.
    apply elem_of_edges_from in Hin as (? & ? & _).
    exists u, v, d. set_solver.
  - intros (u & v & d & Hu & Hadj & Hx).
    destruct (edges_from_covers es ∅ ns u v d) as [H|H]; [done|set_solver..|done| |].
    + exists (u, v, d). set_solver.
    + exists (v, u, d). set_solver.
Qed.

(** Splitting the bond store: the report on [es1 ++ es2] is a reordering of
    the reports on [es1] and on [es2]. *)
Lemma edges_from_app es1 es2 seen ns :
  edges_from (es1 ++ es2) seen ns ≡ₚ
  edges_from es1 seen ns ++ edges_from es2 seen ns.
Proof.
  revert seen. induction ns as [| n ns IH]; simpl; intros seen; [done|].
  rewrite IH, adj_in_app, filter_app, fmap_app.
  rewrite <- !app_assoc. apply Permutation_app_head.
  rewrite !app_assoc. apply Permutation_app_tail, Permutation_app_comm.
Qed.

(** A bond none of whose ends can still be reported is not reported. *)
Lemma edges_from_single_nil a b d seen ns :
  (∀ n, n ∈ ns → (n = a → b ∈ seen) ∧ (n = b → a ∈ seen)) →
  edges_from [(a, b, d)] seen ns = [].
Proof.
  revert seen. induction ns as [| n ns IH]; simpl; intros seen H; [done|].
  rewrite IH.
  2:{ intros n' Hn'. destruct (H n') as [? ?]; [by right|]. set_solver. }
  destruct (H n) as [Ha Hb]; [by left|].
  unfold adj_in, incident; simpl. repeat case_decide; simpl; try done.
  - subst. rewrite filter_cons_False; [done|]. simpl. tauto.
  - subst. rewrite filter_cons_False; [done|]. simpl. tauto.
Qed.

(** A bond both of whose ends are in the bunch is reported once, from the
    end that comes first. *)
Lemma edges_from_single a b d seen ns :
  NoDup ns → a ∈ ns → b ∈ ns → a ∉ seen → b ∉ seen →
  edges_from [(a, b, d)] seen ns = [(a, b, d)] ∨
  edges_from [(a, b, d)] seen ns = [(b, a, d)].
Proof.
  revert seen. induction ns as [| n ns IH]; intros seen Hnd Ha Hb Has Hbs.
  - by apply elem_of_nil in Ha.
  - apply NoDup_cons in Hnd as [Hn Hnd]. cbn [edges_from].
    destruct (decide (a = n)) as [->|Han].
    { left. rewrite edges_from_single_nil.
      2:{ intros n' Hn'. split; [intros ->; done|set_solver]. }
      unfold adj_in, incident; simpl. rewrite decide_True by done. simpl.
      rewrite filter_cons_True by done. done. }
    destruct (decide (b = n)) as [->|Hbn].
    { right. rewrite edges_from_single_nil.
      2:{ intros n' Hn'. split; [set_solver|intros ->; done]. }
      unfold adj_in, incident; simpl. rewrite decide_False by done.
      rewrite decide_True by done. simpl.
      rewrite filter_cons_True by done. done. }
    apply elem_of_cons in Ha as [?|Ha]; [done|].
    apply elem_of_cons in Hb as [?|Hb]; [done|].
    assert (adj_in [(a, b, d)] n = []) as ->.
    { unfold adj_in, incident; simpl. by rewrite !decide_False by done. }
    simpl. apply IH; [done..|set_solver|set_solver].
Qed.

Lemma ekey_comm u v : ekey u v = ekey v u.
Proof. unfold ekey. by rewrite Z.min_comm, Z.max_comm. Qed.

Lemma ekey_inj u v u' v' :
  ekey u v = ekey u' v' ↔ (u = u' ∧ v = v') ∨ (u = v' ∧ v = u').
Proof. unfold ekey. split; [intros [=]|intros [[-> ->]|[-> ->]]; f_equal]; lia. Qed.

Lemma edges_from_bond_ids es seen ns :
  NoDup ns →
  Forall (λ e : Z * Z * attrs,
            (e.1.1 ∈ ns ∧ e.1.1 ∉ seen) ∧ (e.1.2 ∈ ns ∧ e.1.2 ∉ seen)) es →
  bond_id <$> edges_from es seen ns ≡ₚ bond_id <$> es.
Proof.
  intros Hnd. induction es as [| [[a b] d] es IH]; intros Hall.
  - clear. revert seen. induction ns as [| n ns IH]; intros seen; simpl; [done|].
    by rewrite (IH _).
  - apply Forall_cons in Hall as [[[Ha Has] [Hb Hbs]] Hall]. simpl in *.
    change ((a, b, d) :: es) with ([(a, b, d)] ++ es).
    rewrite edges_from_app, !fmap_app, IH by done.
    destruct (edges_from_single a b d seen ns) as [-> | ->]; try done.
    simpl. unfold bond_id at 1 3; simpl. by rewrite (ekey_comm b a).
Qed.

Lemma edges_all_bond_ids g :
  wf g → bond_id <$> edges g None ≡ₚ bond_id <$> edge g.
Proof.
  intros (Hnd & _ & Hends). apply edges_from_bond_ids; [done|].
  eapply Forall_impl; [exact Hends|]. simpl. set_solver.
Qed.

Lemma edges_all_length g : wf g → length (edges g None) = size g.
Proof.
  intros Hwf. unfold size.
  rewrite <- (length_fmap bond_id (edges g None)), <- (length_fmap bond_id (edge g)).
  by rewrite edges_all_bond_ids.
Qed.

(** [add_edge], [edge_get] *)

Lemma ekeys_bond_id es : ekeys es = (bond_id <$> es).*1.
Proof. unfold ekeys. by rewrite <- list_fmap_compose. Qed.

Lemma joins_true u v e : joins u v e = true ↔ ekey e.1.1 e.1.2 = ekey u v.
Proof. unfold joins. apply bool_decide_eq_true. Qed.

Lemma has_edge_false g u v : has_edge g u v = false ↔ ekey u v ∉ ekeys (edge g).
Proof.
  unfold has_edge, ekeys. induction (edge g) as [| e es IH]; simpl.
  - split; [intros _; apply not_elem_of_nil|done].
  - rewrite orb_false_iff, IH, not_elem_of_cons.
    rewrite <- not_true_iff_false, joins_true. naive_solver.
Qed.

Lemma bond_id_eq e k d : bond_id e = (k, d) ↔ ekey e.1.1 e.1.2 = k ∧ e.2 = d.
Proof. unfold bond_id. split; [intros [= <- <-]; done|intros [<- <-]; done]. Qed.

Lemma edge_get_Some g u v d :
  NoDup (ekeys (edge g)) →
  edge_get g u v = Some d ↔ (ekey u v, d) ∈ bond_id <$> edge g.
Proof.
  unfold edge_get, ekeys. induction (edge g) as [| e es IH]; simpl; intros Hnd.
  - split; [done|by intros ?%elem_of_nil].
  - apply NoDup_cons in Hnd as [He Hnd]. rewrite elem_of_cons.
    destruct (joins u v e) eqn:Hj; simpl.
    + apply joins_true in Hj. split.
      * intros [= <-]. left. symmetry. by apply bond_id_eq.
      * intros [Heq|Hin].
        { symmetry in Heq. apply bond_id_eq in Heq as [_ ->]. done. }
        exfalso. apply He.
        apply list_elem_of_fmap in Hin as (e' & Heq & Hin).
        symmetry in Heq. apply bond_id_eq in Heq as [Hk _].
        apply list_elem_of_fmap. exists e'. split; [congruence|done].
    + rewrite IH by done. split; [by right|]. intros [Heq|]; [|done].
      symmetry in Heq. apply bond_id_eq in Heq as [Hk _].
      apply not_true_iff_false in Hj. by rewrite joins_true in Hj.
Qed.

Lemma add_edge_fresh g u v a :
  u ∈ nodes_of g → v ∈ nodes_of g → ekey u v ∉ ekeys (edge g) →
  add_edge g u v a = with_edge g (edge g ++ [(u, v, a)]).
Proof.
  intros Hu%has_node_true Hv%has_node_true He%has_edge_false.
  unfold add_edge. by rewrite Hu, Hv, He.
Qed.

Lemma add_edges_from_fresh g l :
  Forall (λ e : Z * Z * attrs, e.1.1 ∈ nodes_of g ∧ e.1.2 ∈ nodes_of g) l →
  NoDup (ekeys (edge g ++ l)) →
  add_edges_from g l = with_edge g (edge g ++ l).
Proof.
  unfold add_edges_from. revert g.
  induction l as [| [[u v] a] l IH]; simpl; intros g Hends Hnd.
  - rewrite app_nil_r. by destruct g.
  - apply Forall_cons in Hends as [[Hu Hv] Hends]. simpl in *.
    unfold ekeys in Hnd. rewrite fmap_app, fmap_cons in Hnd.
    rewrite add_edge_fresh; [|done..|].
    2:{ apply NoDup_app in Hnd as (_ & Hnd & _). intros Hin.
        apply (Hnd _ Hin). by left. }
    rewrite IH; simpl.
    + unfold with_edge; simpl. by rewrite <- app_assoc.
    + done.
    + unfold ekeys. by rewrite <- app_assoc, fmap_app.
Qed.

(** The operations of the engine keep the representation invariant. *)

Lemma wf_empty c : wf (empty c).
Proof.
  unfold wf, empty, nodes_of, ekeys; simpl. split_and!; constructor.
Qed.

Lemma wf_ensure_node g n :
  wf g → wf (if has_node g n then g else with_node g (node g ++ [(n, ∅)])).
Proof.
  intros (Hn & He & Hends). destruct (has_node g n) eqn:E; [done|].
  apply has_node_false in E. unfold wf, nodes_of in *; simpl.
  rewrite fmap_app. simpl. split_and!; [|done|].
  - apply NoDup_app. split_and!; [done| |apply NoDup_singleton].
    intros x Hx ->%list_elem_of_singleton. done.
  - eapply Forall_impl; [exact Hends|]. simpl. intros e [? ?].
    rewrite !elem_of_app. auto.
Qed.

Lemma wf_add_node g n a : wf g → wf (add_node g n a).
Proof.
  intros Hwf. unfold add_node. destruct (has_node g n) eqn:E.
  - destruct Hwf as (Hn & He & Hends). unfold wf, nodes_of in *; simpl.
    by rewrite aalter_keys.
  - pose proof (wf_ensure_node g n Hwf) as H. rewrite E in H.
    destruct H as (Hn & He & Hends). unfold wf, nodes_of in *; simpl in *.
    rewrite fmap_app in *. done.
Qed.

Lemma ekeys_relabel (f : Z * Z * attrs → attrs) (c : Z * Z * attrs → bool) es :
  ekeys ((λ e, if c e then (e.1, f e) else e) <$> es) = ekeys es.
Proof.
  unfold ekeys. rewrite <- list_fmap_compose. apply list_fmap_ext.
  intros i e _. simpl. by destruct (c e).
Qed.

Lemma wf_add_edge g u v a : wf g → wf (add_edge g u v a).
Proof.
  intros Hwf. unfold add_edge.
  set (g1 := if has_node g u then g else _).
  assert (wf g1) as Hwf1 by by apply wf_ensure_node.
  assert (u ∈ nodes_of g1) as Hu1.
  { unfold g1. destruct (has_node g u) eqn:E; [by apply has_node_true|].
    unfold nodes_of; simpl. rewrite fmap_app, elem_of_app. right. by left. }
  clearbody g1.
  set (g2 := if has_node g1 v then g1 else _).
  assert (wf g2) as Hwf2 by by apply wf_ensure_node.
  assert (u ∈ nodes_of g2 ∧ v ∈ nodes_of g2) as [Hu Hv].
  { unfold g2. destruct (has_node g1 v) eqn:E.
    - split; [done|by apply has_node_true].
    - unfold nodes_of; simpl. rewrite fmap_app, !elem_of_app. split; [by left|].
      right. by left. }
  clearbody g2. destruct Hwf2 as (Hn & He & Hends).
  destruct (has_edge g2 u v) eqn:E; unfold wf; simpl.
  - change (nodes_of (with_edge g2 ?es)) with (nodes_of g2).
    rewrite (ekeys_relabel (λ e, update e.2 a) (joins u v)). split_and!; [done..|].
    apply Forall_fmap. eapply Forall_impl; [exact Hends|].
    intros e [? ?]. simpl. by destruct (joins u v e).
  - change (nodes_of (with_edge g2 ?es)) with (nodes_of g2).
    apply has_edge_false in E. split_and!; [done| |].
    + unfold ekeys in *. rewrite fmap_app. apply NoDup_app. split_and!; [done| |].
      * intros k Hk ->%list_elem_of_singleton. done.
      * apply NoDup_singleton.
    + apply Forall_app. split; [done|]. by apply Forall_singleton.
Qed.

Lemma wf_add_nodes_from g l : wf g → wf (add_nodes_from g l).
Proof.
  unfold add_nodes_from. revert g. induction l as [| na l IH]; simpl; [done|].
  intros g Hwf. by apply IH, wf_add_node.
Qed.

Lemma wf_add_edges_from g l : wf g → wf (add_edges_from g l).
Proof.
  unfold add_edges_from. revert g. induction l as [| e l IH]; simpl; [done|].
  intros g Hwf. by apply IH, wf_add_edge.
Qed.

Lemma wf_add_atom self element s_charge _map mark x y z g' :
  wf self →
  MoleculeContainer.add_atom self element s_charge _map mark x y z = Ok g' →
  wf g'.
Proof.
  intros Hwf. unfold MoleculeContainer.add_atom.
  destruct (match _map with None => _ | Some m => _ end) as [m|]; simpl; [|done].
  intros [= <-]. by apply wf_add_node.
Qed.

Lemma wf_add_bond self atom1 atom2 mark g' :
  wf self → MoleculeContainer.add_bond self atom1 atom2 mark = Ok g' → wf g'.
Proof.
  intros Hwf. unfold MoleculeContainer.add_bond.
  destruct (_ || _); [done|]. destruct (negb _); [done|].
  intros [= <-]. by apply wf_add_edge.
Qed.

Lemma wf_cgr_add_atom self element s_charge p_charge _map mark
    s_x s_y s_z p_x p_y p_z g' :
  wf self →
  CGRContainer.add_atom self element s_charge p_charge _map mark
                        s_x s_y s_z p_x p_y p_z = Ok g' →
  wf g'.
Proof.
  intros Hwf. unfold CGRContainer.add_atom.
  destruct (match _map with None => _ | Some m => _ end) as [m|]; simpl; [|done].
  intros [= <-]. by apply wf_add_node.
Qed.

Lemma wf_cgr_add_bond self atom1 atom2 s_mark p_mark g' :
  wf self → CGRContainer.add_bond self atom1 atom2 s_mark p_mark = Ok g' → wf g'.
Proof.
  intros Hwf. unfold CGRContainer.add_bond.
  destruct (_ || _); [done|]. destruct (bool_decide _); [done|].
  intros [= <-]. by apply wf_add_edge.
Qed.

Lemma edges_ends_nodes g nbunch :
  wf g →
  Forall (λ e : Z * Z * attrs, e.1.1 ∈ nodes_of g ∧ e.1.2 ∈ nodes_of g)
         (edges g nbunch).
Proof.
  intros (_ & _ & Hends). apply Forall_forall. intros [[u v] d] Hin.
  apply elem_of_edges_from in Hin as (_ & Hadj & _).
  apply elem_of_adj_in in Hadj as (a & b & Hin & Hab).
  rewrite Forall_forall in Hends. apply Hends in Hin. simpl in *.
  naive_solver.
Qed.

Lemma edges_all_ekeys g : wf g → ekeys (edges g None) ≡ₚ ekeys (edge g).
Proof. intros Hwf. by rewrite !ekeys_bond_id, edges_all_bond_ids. Qed.

(** ** [CGRcore.union] *)

Lemma union_ekeys_NoDup m1 m2 :
  wf m1 → wf m2 → (∀ n, n ∈ nodes_of m1 → n ∉ nodes_of m2) →
  NoDup (ekeys (edges m1 None ++ edges m2 None)).
Proof.
  intros Hwf1 Hwf2 Hdisj.
  pose proof (edges_ends_nodes m1 None Hwf1) as Hy1.
  pose proof (edges_ends_nodes m2 None Hwf2) as Hy2.
  unfold ekeys. rewrite fmap_app. apply NoDup_app. split_and!.
  - fold (ekeys (edges m1 None)). rewrite (edges_all_ekeys m1) by done.
    by destruct Hwf1 as (_ & ? & _).
  - intros k Hk1 Hk2.
    apply list_elem_of_fmap in Hk1 as (e1 & -> & Hin1).
    apply list_elem_of_fmap in Hk2 as (e2 & Hk & Hin2).
    rewrite Forall_forall in Hy1, Hy2.
    apply Hy1 in Hin1 as [H1 _]. apply Hy2 in Hin2 as [H2 H2'].
    apply ekey_inj in Hk as [[Hk _]|[Hk _]]; apply (Hdisj _ H1); congruence.
  - fold (ekeys (edges m2 None)). rewrite (edges_all_ekeys m2) by done.
    by destruct Hwf2 as (_ & ? & _).
Qed.

(** On disjoint inputs the result is the splice of the two stores. *)
Lemma union_disjoint m1 m2 :
  wf m1 → wf m2 → (∀ n, n ∈ nodes_of m1 → n ∉ nodes_of m2) →
  CGRcore.union m1 m2 =
  Ok (mkGraph (union_class m1 m2) (node m1 ++ node m2)
              (edges m1 None ++ edges m2 None) ∅).
Proof.
  intros Hwf1 Hwf2 Hdisj. unfold CGRcore.union.
  rewrite bool_decide_eq_false_2.
  2:{ intros H. apply H. apply set_eq. intros x.
      rewrite elem_of_intersection, !elem_of_list_to_set. set_solver. }
  fold (union_class m1 m2). f_equal.
  pose proof Hwf1 as (Hn1 & He1 & Hends1).
  pose proof Hwf2 as (Hn2 & He2 & Hends2).
  rewrite (add_nodes_from_fresh (empty _) (node m1)); [|done|]; simpl.
  2:{ intros k _. apply not_elem_of_nil. }
  rewrite add_nodes_from_fresh; [|done|]; simpl.
  2:{ intros k Hk Hk'. by apply (Hdisj k). }
  pose proof (edges_ends_nodes m1 None Hwf1) as Hy1.
  pose proof (edges_ends_nodes m2 None Hwf2) as Hy2.
  rewrite (add_edges_from_fresh _ (edges m1 None)); simpl.
  2:{ eapply Forall_impl; [exact Hy1|]. unfold nodes_of; simpl.
      intros e [? ?]. rewrite fmap_app, !elem_of_app. auto. }
  2:{ by rewrite edges_all_ekeys. }
  rewrite add_edges_from_fresh; simpl.
  2:{ eapply Forall_impl; [exact Hy2|]. unfold nodes_of; simpl.
      intros e [? ?]. rewrite fmap_app, !elem_of_app. auto. }
  2:{ by apply union_ekeys_NoDup. }
  done.
Qed.

(** C7.  [union] raises on inputs that share an atom id.  On inputs with
    disjoint atom ids it returns an entity whose atom and bond counts are
    the sums of the inputs', in which every atom and every bond of either
    input has exactly the attributes it has there, and which is a CGR when
    one of the inputs is, else a molecule. *)
Theorem union_spec (m1 m2 : Graph) :
  ((∃ n, n ∈ nodes_of m1 ∧ n ∈ nodes_of m2) →
     ∃ msg, CGRcore.union m1 m2 = Raise (Exception msg)) ∧
  (wf m1 → wf m2 → (∀ n, n ∈ nodes_of m1 → n ∉ nodes_of m2) →
     ∃ u, CGRcore.union m1 m2 = Ok u ∧
       order u = (order m1 + order m2)%nat ∧
       size u = (size m1 + size m2)%nat ∧
       (∀ n, n ∈ nodes_of m1 → node_get u n = node_get m1 n) ∧
       (∀ n, n ∈ nodes_of m2 → node_get u n = node_get m2 n) ∧
       (∀ a b d, edge_get m1 a b = Some d → edge_get u a b = Some d) ∧
       (∀ a b d, edge_get m2 a b = Some d → edge_get u a b = Some d) ∧
       class_ u = (if bool_decide (class_ m1 = CGR ∨ class_ m2 = CGR)
                   then CGR else Molecule)).
Proof.
  split.
  - intros (n & H1 & H2). eexists. unfold CGRcore.union.
    rewrite bool_decide_eq_true_2; [done|].
    intros H. apply (not_elem_of_empty (C:=gset Z) n). rewrite <- H.
    rewrite elem_of_intersection, !elem_of_list_to_set. done.
  - intros Hwf1 Hwf2 Hdisj. eexists. split; [by apply union_disjoint|].
    unfold order, size, node_get; simpl.
    rewrite !length_app, !edges_all_length by done.
    pose proof (union_ekeys_NoDup m1 m2 Hwf1 Hwf2 Hdisj) as Hnd.
    repeat split; try done.
    + intros n [a Ha]%alookup_is_Some. rewrite alookup_app. by rewrite Ha.
    + intros n Hn. rewrite alookup_app.
      assert (alookup n (node m1) = None) as ->; [|done].
      apply alookup_None. intros ?. by eapply Hdisj.
    + intros a b d. rewrite !edge_get_Some; [|done|by destruct Hwf1 as (_ & ? & _)].
      simpl. rewrite fmap_app, elem_of_app, edges_all_bond_ids by done. auto.
    + intros a b d. rewrite !edge_get_Some; [|done|by destruct Hwf2 as (_ & ? & _)].
      simpl. rewrite fmap_app, elem_of_app, (edges_all_bond_ids m2) by done. auto.
Qed.

(** ** [CGRContainer.get_center_atoms] *)

Lemma elem_of_foldl_mark {A} (c : A → bool) (ends : A → gset Z) (l : list A)
    (acc : gset Z) (x : Z) :
  x ∈ foldl (λ (nodes : gset Z) (y : A), if c y then ends y ∪ nodes else nodes) acc l
  ↔ x ∈ acc ∨ ∃ y, y ∈ l ∧ c y = true ∧ x ∈ ends y.
Proof.
  revert acc. induction l as [| y l IH]; simpl; intros acc.
  - split; [auto|]. intros [?|(y & []%elem_of_nil & _)]; done.
  - rewrite IH. split.
    + intros [Hx|(y' & Hy' & Hc & Hx)].
      * destruct (c y) eqn:Hc; [|auto].
        apply elem_of_union in Hx as [Hx|Hx]; [|auto].
        right. exists y. split; [by left|done].
      * right. exists y'. split; [by right|done].
    + intros [Hx|(y' & Hy' & Hc & Hx)].
      * left. destruct (c y); [|done]. apply elem_of_union; auto.
      * apply elem_of_cons in Hy' as [->|Hy'].
        -- left. rewrite Hc. apply elem_of_union; auto.
        -- right. by exists y'.
Qed.

Lemma elem_of_node_get g n a : NoDup (nodes_of g) → (n, a) ∈ node g ↔ node_get g n = Some a.
Proof.
  intros Hnd. split; [by apply elem_alookup|apply alookup_Some_elem].
Qed.

Lemma edges_all_covers g u v d :
  wf g → (u, v, d) ∈ edge g →
  (u, v, d) ∈ edges g None ∨ (v, u, d) ∈ edges g None.
Proof.
  intros (_ & _ & Hends) Hin.
  rewrite Forall_forall in Hends. destruct (Hends _ Hin) as [Hu Hv]. simpl in *.
  apply edges_from_covers; [done|set_solver|set_solver|].
  apply elem_of_adj_in. exists u, v. auto.
Qed.

Lemma center_nodes_spec g x :
  wf g →
  x ∈ CGRContainer.center_nodes g ↔
  (∃ a, node_get g x = Some a ∧ get a "s_charge" ≠ get a "p_charge") ∨
  (∃ u v d, (u, v, d) ∈ edge g ∧ get d "s_bond" ≠ get d "p_bond" ∧
            (x = u ∨ x = v)).
Proof.
  intros Hwf. pose proof Hwf as (Hnd & _ & _).
  unfold CGRContainer.center_nodes.
  rewrite (elem_of_foldl_mark
             (λ e : Z * Z * attrs, negb (eqb (get e.2 "s_bond") (get e.2 "p_bond")))
             (λ e : Z * Z * attrs, {[e.1.1; e.1.2]})).
  rewrite (elem_of_foldl_mark
             (λ na : Z * attrs, negb (eqb (get na.2 "s_charge") (get na.2 "p_charge")))
             (λ na : Z * attrs, {[na.1]})).
  split.
  - intros [[[]%not_elem_of_empty|([n a] & Hin & Hc & Hx)]|([[u v] d] & Hin & Hc & Hx)].
    + left. simpl in *. apply elem_of_singleton in Hx as ->.
      exists a. split; [by apply elem_of_node_get|].
      by apply eqb_neq, negb_true_iff.
    + right. simpl in *. apply negb_true_iff, eqb_neq in Hc.
      apply elem_of_edges_from in Hin as (_ & Hadj & _).
      apply elem_of_adj_in in Hadj as (a & b & Hin & Hab).
      exists a, b, d. split; [done|]. split; [done|]. set_solver.
  - intros [(a & Ha & Hc)|(u & v & d & Hin & Hc & Hx)].
    + left; right. exists (x, a). simpl. split; [by apply elem_of_node_get|].
      split; [|set_solver]. by apply negb_true_iff, eqb_neq.
    + right. apply eqb_neq, negb_true_iff in Hc.
      destruct (edges_all_covers g u v d Hwf Hin) as [H|H].
      * exists (u, v, d). simpl. split; [done|]. split; [done|]. set_solver.
      * exists (v, u, d). simpl. split; [done|]. split; [done|]. set_solver.
Qed.

(** C8.  [get_center_atoms] lists exactly the atoms whose [s_charge] and
    [p_charge] differ and the ends of the bonds whose [s_bond] and [p_bond]
    differ.  An atom with [s_charge = 0] and [p_charge = 1] is listed; an
    atom with equal charges all of whose bonds have [s_bond] equal to
    [p_bond] is not. *)
Theorem get_center_atoms_spec (g : Graph) :
  wf g →
  (∀ x, x ∈ CGRContainer.get_center_atoms g ↔
     (∃ a, node_get g x = Some a ∧ get a "s_charge" ≠ get a "p_charge") ∨
     (∃ u v d, (u, v, d) ∈ edge g ∧ get d "s_bond" ≠ get d "p_bond" ∧
               (x = u ∨ x = v))) ∧
  (∀ x a, node_get g x = Some a →
     a !! "s_charge" = Some (VInt 0) → a !! "p_charge" = Some (VInt 1) →
     x ∈ CGRContainer.get_center_atoms g) ∧
  (∀ x a, node_get g x = Some a →
     get a "s_charge" = get a "p_charge" →
     (∀ u v d, (u, v, d) ∈ edge g → x = u ∨ x = v →
               get d "s_bond" = get d "p_bond") →
     x ∉ CGRContainer.get_center_atoms g).
Proof.
  intros Hwf.
  assert (∀ x, x ∈ CGRContainer.get_center_atoms g ↔
     (∃ a, node_get g x = Some a ∧ get a "s_charge" ≠ get a "p_charge") ∨
     (∃ u v d, (u, v, d) ∈ edge g ∧ get d "s_bond" ≠ get d "p_bond" ∧
               (x = u ∨ x = v))) as Hspec.
  { intros x. unfold CGRContainer.get_center_atoms.
    rewrite elem_of_elements. by apply center_nodes_spec. }
  split; [exact Hspec|]. split.
  - intros x a Ha Hs Hp. apply Hspec. left. exists a. split; [done|].
    unfold get. rewrite Hs, Hp. simpl. discriminate.
  - intros x a Ha Hc Hb. rewrite Hspec.
    intros [(a' & Ha' & Hne)|(u & v & d & Hin & Hne & Hx)].
    + rewrite Ha in Ha'. injection Ha' as <-. done.
    + apply Hne. by eapply Hb.
Qed.

(** ** [subgraph] and [get_environment] *)

Lemma add_nodes_from_nodes_of g l x :
  x ∈ nodes_of (add_nodes_from g l) ↔ x ∈ nodes_of g ∨ x ∈ l.*1.
Proof.
  unfold add_nodes_from. revert g.
  induction l as [| [k a] l IH]; simpl; intros g.
  - rewrite elem_of_nil. tauto.
  - rewrite IH, add_node_nodes_of, elem_of_cons. simpl. tauto.
Qed.

Lemma add_edge_nodes_of g u v a x :
  x ∈ nodes_of (add_edge g u v a) ↔ x = u ∨ x = v ∨ x ∈ nodes_of g.
Proof.
  unfold add_edge.
  set (g1 := if has_node g u then g else with_node g (node g ++ [(u, ∅)])).
  set (g2 := if has_node g1 v then g1 else with_node g1 (node g1 ++ [(v, ∅)])).
  assert (x ∈ nodes_of g1 ↔ x = u ∨ x ∈ nodes_of g) as H1.
  { unfold g1. destruct (has_node g u) eqn:Hu.
    - apply has_node_true in Hu. split; [auto|]. by intros [->|].
    - unfold nodes_of; simpl. rewrite fmap_app, elem_of_app; simpl.
      rewrite list_elem_of_singleton. tauto. }
  assert (x ∈ nodes_of g2 ↔ x = v ∨ x ∈ nodes_of g1) as H2.
  { unfold g2. destruct (has_node g1 v) eqn:Hv.
    - apply has_node_true in Hv. split; [auto|]. by intros [->|].
    - unfold nodes_of; simpl. rewrite fmap_app, elem_of_app; simpl.
      rewrite list_elem_of_singleton. tauto. }
  assert (nodes_of (if has_edge g2 u v
                    then with_edge g2 ((λ e, if joins u v e then (e.1, update e.2 a) else e) <$> edge g2)
                    else with_edge g2 (edge g2 ++ [(u, v, a)])) = nodes_of g2) as ->.
  { by destruct (has_edge g2 u v). }
  rewrite H2, H1. tauto.
Qed.

Lemma add_edges_from_nodes_of g l x :
  x ∈ nodes_of (add_edges_from g l) ↔
  x ∈ nodes_of g ∨ ∃ e, e ∈ l ∧ (x = e.1.1 ∨ x = e.1.2).
Proof.
  unfold add_edges_from. revert g.
  induction l as [| e l IH]; simpl; intros g.
  - split; [auto|]. intros [?|(e & []%elem_of_nil & _)]; done.
  - rewrite IH, add_edge_nodes_of. setoid_rewrite elem_of_cons. naive_solver.
Qed.

Lemma copy_nodes_of g x :
  x ∈ nodes_of (nx.copy g) →
  x ∈ nodes_of g ∨ ∃ e, e ∈ edge g ∧ (x = e.1.1 ∨ x = e.1.2).
Proof.
  unfold nx.copy. rewrite add_edges_from_nodes_of, add_nodes_from_nodes_of.
  intros [[[]%elem_of_nil|?]|([[u v] d] & Hin & Hx)]; [by left|]. simpl in Hx.
  apply list_elem_of_bind in Hin as (u' & Hin & Hu').
  apply list_elem_of_fmap in Hin as ([v' d'] & Heq & Hadj).
  simpl in Heq. injection Heq as -> -> ->.
  destruct Hx as [-> | ->]; [by left|]. right.
  apply elem_of_adj_in in Hadj as (a & b & Hin & Hab).
  exists (a, b, d'). split; [done|]. simpl. naive_solver.
Qed.

Lemma subgraph_nodes_of g (S : gset Z) m x :
  x ∈ nodes_of (MoleculeContainer.subgraph g S m) → x ∈ S.
Proof.
  unfold MoleculeContainer.subgraph, MoleculeContainer._fix_stereo.
  assert (∀ h, nodes_of (if m then with_meta h (update (meta h) (meta g)) else h)
               = nodes_of h) as -> by (by destruct m).
  change (nodes_of (with_class (class_ g) (nx.copy (induced g S))))
    with (nodes_of (nx.copy (induced g S))).
  intros [Hx|(e & Hin & Hx)]%copy_nodes_of.
  - unfold nodes_of, induced in Hx; simpl in Hx.
    apply list_elem_of_fmap in Hx as (na & -> & Hin).
    by apply list_elem_of_filter in Hin as [? _].
  - unfold induced in Hin; simpl in Hin.
    apply list_elem_of_filter in Hin as [[? ?] _]. by destruct Hx as [-> | ->].
Qed.

(** The ends of the bonds of a bunch never include an atom without bonds. *)
Lemma ends_not_isolated es ns (c : Z) :
  adj_in es c = [] →
  c ∉ (edges_from es ∅ ns ≫= λ e : Z * Z * attrs, [e.1.1; e.1.2]).
Proof.
  intros Hc. rewrite edges_from_ends. intros (u & v & d & _ & Hadj & [-> | ->]).
  - rewrite Hc in Hadj. by apply elem_of_nil in Hadj.
  - apply adj_in_sym in Hadj. rewrite Hc in Hadj. by apply elem_of_nil in Hadj.
Qed.

Lemma expand_last_not_isolated g k i nodes (c : Z) :
  adj g c = [] → c ∉ List.last nodes ∅ →
  c ∉ List.last (MoleculeContainer.expand g k i nodes) ∅.
Proof.
  intros Hc. revert i nodes. induction k as [| k IH]; simpl; intros i nodes Hlast.
  - done.
  - case_match; [done|]. apply IH. rewrite last_last.
    rewrite elem_of_list_to_set. by apply ends_not_isolated.
Qed.

(** C10.  When the core holds an atom without bonds next to an atom that
    has one, [get_environment] with a depth of at least 1 returns a
    subgraph without the bondless core atom. *)
Theorem get_environment_drops_isolated (g : Graph) (atoms : list Z)
    (deep : Z) (c a : Z) :
  c ∈ atoms → adj g c = [] →
  a ∈ atoms → a ∈ nodes_of g → adj g a ≠ [] →
  (1 ≤ deep)%Z →
  ∃ sub, MoleculeContainer.get_environment g atoms false deep = inr sub ∧
         c ∉ nodes_of sub.
Proof.
  intros Hc Hiso Ha Hag Hadj Hdeep.
  unfold MoleculeContainer.get_environment. eexists. split; [done|].
  intros Hin%subgraph_nodes_of. revert Hin.
  unfold MoleculeContainer.environment_nodes.
  destruct (Z.to_nat deep) as [| k] eqn:Hk; [lia|].
  cbn [MoleculeContainer.expand].
  change ([list_to_set atoms] !!! 0%nat) with (list_to_set atoms : gset Z).
  set (n := list_to_set (edges g (Some (elements (list_to_set atoms : gset Z)))
                           ≫= λ e : Z * Z * attrs, [e.1.1; e.1.2]) : gset Z).
  assert (c ∉ n) as Hcn.
  { unfold n. rewrite elem_of_list_to_set. by apply ends_not_isolated. }
  assert (a ∈ n) as Han.
  { unfold n. rewrite elem_of_list_to_set. unfold edges. apply edges_from_ends.
    destruct (adj g a) as [| [v d] l] eqn:E; [done|].
    exists a, v, d. split; [|split; [|by left]].
    - unfold nbunch_iter. apply list_elem_of_filter. split; [done|].
      apply elem_of_elements, elem_of_list_to_set. done.
    - unfold adj in E. rewrite E. by left. }
  rewrite bool_decide_eq_false_2 by set_solver.
  rewrite bool_decide_eq_false_2.
  2:{ rewrite list_elem_of_singleton. intros Heq. apply Hcn. rewrite Heq.
      by apply elem_of_list_to_set. }
  apply expand_last_not_isolated; [done|]. simpl. done.
Qed.

(** One expansion step: the ends of the bonds of the atoms of [S]. *)
Lemma expansion_step_spec g (S : gset Z) (x : Z) :
  x ∈ (list_to_set (edges g (Some (elements S))
                      ≫= λ e : Z * Z * attrs, [e.1.1; e.1.2]) : gset Z) ↔
  ∃ u v d, u ∈ S ∧ u ∈ nodes_of g ∧ (v, d) ∈ adj g u ∧ (x = u ∨ x = v).
Proof.
  rewrite elem_of_list_to_set. unfold edges. rewrite edges_from_ends.
  unfold nbunch_iter. setoid_rewrite list_elem_of_filter.
  setoid_rewrite elem_of_elements. naive_solver.
Qed.

(** The expansion from one atom of a two-atom component: one hop reaches
    the component, the next step finds nothing new and the loop stops. *)
Lemma environment_nodes_two_atoms g (a b : Z) (deep : Z) :
  a ≠ b → a ∈ nodes_of g → b ∈ nodes_of g →
  adj g a ≠ [] →
  (∀ v d, (v, d) ∈ adj g a → v = b) →
  (∀ v d, (v, d) ∈ adj g b → v = a) →
  (1 ≤ deep)%Z →
  MoleculeContainer.environment_nodes g [a] deep = [{[a]}; {[a; b]}].
Proof.
  intros Hab Ha Hb Hadj Hna Hnb Hdeep.
  unfold MoleculeContainer.environment_nodes.
  destruct (Z.to_nat deep) as [| k] eqn:Hk; [lia|].
  assert ((list_to_set [a] : gset Z) = {[a]}) as -> by set_solver.
  assert (∃ d, (b, d) ∈ adj g a) as [d Hbd].
  { destruct (adj g a) as [| [v d] l] eqn:E; [done|]. exists d.
    assert (v = b) as -> by (eapply Hna; by left). by left. }
  assert (∀ S : gset Z, a ∈ S → S ⊆ {[a; b]} →
            (list_to_set (edges g (Some (elements S))
               ≫= λ e : Z * Z * attrs, [e.1.1; e.1.2]) : gset Z) = {[a; b]})
    as Hstep.
  { intros S HaS HS. apply set_eq. intros x. rewrite expansion_step_spec. split.
    - intros (u & v & d' & Hu & _ & Hv & Hx).
      assert (u = a ∨ u = b) as [-> | ->] by set_solver.
      + apply Hna in Hv as ->. set_solver.
      + apply Hnb in Hv as ->. set_solver.
    - intros Hx. exists a, b, d. split_and!; [done..|set_solver]. }
  cbn [MoleculeContainer.expand].
  change ([{[a]}] !!! 0%nat) with ({[a]} : gset Z).
  rewrite Hstep by set_solver.
  rewrite bool_decide_eq_false_2 by set_solver.
  rewrite bool_decide_eq_false_2.
  2:{ rewrite list_elem_of_singleton. intros Heq.
      assert (b ∈ ({[a]} : gset Z)) as Hin by (rewrite <- Heq; set_solver).
      set_solver. }
  simpl. destruct k as [| k]; [done|].
  cbn [MoleculeContainer.expand].
  change ([{[a]}; {[a; b]}] !!! 1%nat) with ({[a; b]} : gset Z).
  rewrite Hstep by set_solver.
  rewrite bool_decide_eq_false_2 by set_solver.
  rewrite bool_decide_eq_true_2; [done|].
  apply elem_of_cons; right. by apply list_elem_of_singleton.
Qed.

Lemma get_environment_two_atoms g (a b : Z) (deep : Z) :
  a ≠ b → a ∈ nodes_of g → b ∈ nodes_of g →
  adj g a ≠ [] →
  (∀ v d, (v, d) ∈ adj g a → v = b) →
  (∀ v d, (v, d) ∈ adj g b → v = a) →
  (1 ≤ deep)%Z →
  MoleculeContainer.get_environment g [a] false deep =
  inr (MoleculeContainer.subgraph g {[a; b]} false).
Proof.
  intros. unfold MoleculeContainer.get_environment.
  by rewrite (environment_nodes_two_atoms g a b).
Qed.

(** When every atom of the current node set is an atom of the graph and
    has a bond, a step loses no atom, and the loop stops at the first step
    that adds none. *)
Lemma expand_stops_without_new_atoms g k i nodes (cur : gset Z) :
  nodes !! i = Some cur →
  (∀ x, x ∈ cur → x ∈ nodes_of g ∧ adj g x ≠ []) →
  let n : gset Z :=
    list_to_set (edges g (Some (elements cur))
                   ≫= λ e : Z * Z * attrs, [e.1.1; e.1.2]) in
  cur ⊆ n ∧ (n ⊆ cur → MoleculeContainer.expand g (S k) i nodes = nodes).
Proof.
  intros Hi Hcur n.
  assert (cur ⊆ n) as Hsub.
  { intros x Hx. destruct (Hcur x Hx) as [Hg Hadj].
    unfold n. rewrite expansion_step_spec.
    destruct (adj g x) as [| [v d] l] eqn:E; [done|].
    exists x, v, d. split_and!; [done..| |by left]. rewrite E. by left. }
  split; [done|]. intros Hn.
  assert (n = cur) as Heq by set_solver.
  cbn [MoleculeContainer.expand].
  rewrite (list_lookup_total_correct _ _ _ Hi). fold n.
  rewrite (bool_decide_eq_true_2 (n ∈ nodes)); [by rewrite orb_true_r|].
  rewrite Heq. by eapply list_elem_of_lookup_2.
Qed.

(** ** [CGRcore.compose] *)

(** Loops whose body can only fail with one exception. *)
Section loops.
Context {A S : Type} (body : S → A → res S) (err : exn).
Hypothesis body_err : ∀ s x e, body s x = Raise e → e = err.

Lemma foldM_err s l e : foldM body s l = Raise e → e = err.
Proof.
  revert s. induction l as [| x l IH]; simpl; intros s; [done|].
  destruct (body s x) as [s'|e'] eqn:E; simpl; [apply IH|].
  intros [= <-]. by eapply body_err.
Qed.

Lemma foldM_raise s l x :
  x ∈ l → (∀ s, body s x = Raise err) → foldM body s l = Raise err.
Proof.
  intros Hin Hx. revert s. induction l as [| y l IH]; simpl; intros s.
  - by apply elem_of_nil in Hin.
  - destruct (body s y) as [s'|e'] eqn:E; simpl.
    + apply elem_of_cons in Hin as [-> |Hin]; [by rewrite Hx in E|by apply IH].
    + f_equal. by eapply body_err.
Qed.
End loops.

Lemma foldM_ok {A S} (body : S → A → res S) (P : A → Prop) s l :
  (∀ s x, P x → ∃ s', body s x = Ok s') → Forall P l →
  ∃ s', foldM body s l = Ok s'.
Proof.
  intros Hbody Hl. revert s. induction Hl as [| x l Hx _ IH]; simpl; intros s.
  - by eexists.
  - destruct (Hbody s x Hx) as [s' ->]. simpl. apply IH.
Qed.

Lemma foldM_inv {A S} (body : S → A → res S) (I : S → Prop) (P : A → Prop) s l s' :
  (∀ s x s', P x → I s → body s x = Ok s' → I s') → Forall P l → I s →
  foldM body s l = Ok s' → I s'.
Proof.
  intros Hbody Hl. revert s. induction Hl as [| x l Hx _ IH]; simpl; intros s Hs.
  - by intros [= <-].
  - destruct (body s x) as [s1|] eqn:E; simpl; [|done].
    apply IH. by eapply Hbody.
Qed.

Lemma common_bond_step_err g pop s_pop st e err :
  CGRcore.common_bond_step g pop s_pop st e = Raise err → err = AttributeError.
Proof.
  destruct st as [[h ext] ns], e as [[n m] attr]; simpl.
  destruct (truthy (get attr pop)); [|done]. by intros [= <-].
Qed.

Lemma common_bond_step_marked g pop s_pop st e :
  truthy (get e.2 pop) = true →
  CGRcore.common_bond_step g pop s_pop st e = Raise AttributeError.
Proof.
  destruct st as [[h ext] ns], e as [[n m] attr]; simpl. by intros ->.
Qed.

Lemma common_bond_step_unmarked g pop s_pop h ext ns e :
  truthy (get e.2 pop) = false →
  CGRcore.common_bond_step g pop s_pop (h, ext, ns) e =
  Ok (h, {[e.1.2]} ∪ ({[e.1.1]} ∪ ext), ns).
Proof. destruct e as [[n m] attr]; simpl. by intros ->. Qed.

Lemma uniq_bond_step_raises g st e :
  CGRcore.uniq_bond_step g st e = Raise AttributeError.
Proof. by destruct st as [h ns], e as [[n m] attr]. Qed.

(** Without a marked bond the first loop only collects the ends. *)
Lemma common_loop_unmarked g pop s_pop h ext ns l :
  Forall (λ e : Z * Z * attrs, truthy (get e.2 pop) = false) l →
  foldM (CGRcore.common_bond_step g pop s_pop) (h, ext, ns) l =
  Ok (h, list_to_set (l ≫= λ e : Z * Z * attrs, [e.1.1; e.1.2]) ∪ ext, ns).
Proof.
  intros Hl. revert ext. induction Hl as [| e l He _ IH]; intros ext; cbn [foldM].
  - f_equal. f_equal. f_equal. set_solver.
  - rewrite common_bond_step_unmarked by done. cbn [Py.bind]. rewrite IH.
    f_equal. f_equal. f_equal. set_solver.
Qed.

Lemma copy_atoms_ok g pick h ns :
  Forall (λ n, n ∈ nodes_of g) ns → ∃ h', CGRcore.copy_atoms g pick h ns = Ok h'.
Proof.
  intros Hns. unfold CGRcore.copy_atoms.
  eapply (foldM_ok _ (λ n, n ∈ nodes_of g)); [|done].
  intros s x Hx. destruct (node_attrs_ok g x Hx) as (a & -> & _). by eexists.
Qed.

(** A marked bond at a common atom is met by the first loop. *)
Lemma marked_common_bond_met pop g (common : gset Z) :
  (∀ n, n ∈ common → n ∈ nodes_of g) →
  marked_common_bond pop g common →
  ∃ e, e ∈ edges g (Some (elements common)) ∧ truthy (get e.2 pop) = true.
Proof.
  intros Hsub (u & v & d & Hin & Hc & Ht).
  assert (∀ x y, (x, y, d) ∈ edge g ∨ (y, x, d) ∈ edge g → x ∈ common →
            ∃ e, e ∈ edges g (Some (elements common)) ∧ e.2 = d) as Hmet.
  { intros x y Hxy Hx.
    destruct (edges_from_covers (edge g) ∅ (nbunch_iter g (elements common)) x y d)
      as [H|H].
    - apply list_elem_of_filter. split; [by apply Hsub|by apply elem_of_elements].
    - set_solver.
    - set_solver.
    - apply elem_of_adj_in. destruct Hxy; [exists x, y|exists y, x]; auto.
    - by exists (x, y, d).
    - by exists (y, x, d). }
  destruct Hc as [Hc|Hc].
  - destruct (Hmet u v) as (e & ? & He); [auto|done|]. exists e. by rewrite He.
  - destruct (Hmet v u) as (e & ? & He); [auto|done|]. exists e. by rewrite He.
Qed.

(** A bond at a role-local atom is met by the second loop. *)
Lemma local_bond_met g (common : gset Z) :
  local_bond g common →
  edges g (Some (elements
     (list_to_set (nodes_of g) ∖
        (list_to_set (edges g (Some (elements common))
                        ≫= λ e : Z * Z * attrs, [e.1.1; e.1.2]) ∪ common)))) ≠ [].
Proof.
  intros (u & v & d & Hin & Hloc).
  set (uniq := (list_to_set (nodes_of g) ∖ _ : gset Z)).
  assert (∀ x y, (x, y, d) ∈ edge g ∨ (y, x, d) ∈ edge g → role_local g common x →
            edges g (Some (elements uniq)) ≠ []) as Hmet.
  { intros x y Hxy (Hx & Hxc & Hfar).
    assert (x ∈ uniq) as Hxu.
    { unfold uniq. apply elem_of_difference. split; [by apply elem_of_list_to_set|].
      rewrite elem_of_union, expansion_step_spec.
      intros [(u0 & v0 & d0 & Hu0 & _ & Hadj & Hx0)|?]; [|done].
      apply elem_of_adj_in in Hadj as (a & b & Hab & Hends).
      destruct (Hfar a b d0 Hab) as [? ?]; naive_solver. }
    destruct (edges_from_covers (edge g) ∅ (nbunch_iter g (elements uniq)) x y d)
      as [H|H].
    - apply list_elem_of_filter. split; [done|by apply elem_of_elements].
    - set_solver.
    - set_solver.
    - apply elem_of_adj_in. destruct Hxy; [exists x, y|exists y, x]; auto.
    - intros Heq. unfold edges in Heq. rewrite Heq in H. by apply elem_of_nil in H.
    - intros Heq. unfold edges in Heq. rewrite Heq in H. by apply elem_of_nil in H. }
  destruct Hloc; [apply (Hmet u v)|apply (Hmet v u)]; auto.
Qed.

(** One role either completes or fails on the stereo table. *)
Lemma compose_role_err common i g st e :
  wf g → (∀ n, n ∈ common → n ∈ nodes_of g) →
  CGRcore.compose_role common i g st = Raise e → e = AttributeError.
Proof.
  intros Hwf Hsub. destruct st as [[h ec] ns]. unfold CGRcore.compose_role.
  destruct (foldM _ (h, common, ns) _) as [[[h1 ext] ns1]|e1] eqn:E1; simpl.
  2:{ intros [= <-]. eapply foldM_err; [|exact E1]. apply common_bond_step_err. }
  assert (∀ n, n ∈ ext → n ∈ nodes_of g) as Hext.
  { revert E1.
    apply (foldM_inv _ (λ st : Graph * gset Z * CGRcore.staged,
                          ∀ n, n ∈ st.1.2 → n ∈ nodes_of g)
                       (λ e : Z * Z * attrs, e.1.1 ∈ nodes_of g ∧ e.1.2 ∈ nodes_of g)).
    - intros [[h0 ext0] ns0] [[n m] attr] [[h' ext'] ns'] [Hn Hm] Hinv. simpl in *.
      destruct (truthy (get attr _)); [done|]. intros [= <- <- <-]. set_solver.
    - by apply edges_ends_nodes.
    - done. }
  destruct (foldM _ (h1, ns1) _) as [[h2 ns2]|e2] eqn:E2; simpl.
  2:{ intros [= <-]. eapply foldM_err; [|exact E2].
      intros s x e' He'. by rewrite uniq_bond_step_raises in He'; injection He' as <-. }
  destruct (copy_atoms_ok g (keep_keys (CGRcore.r_node (CGRcore.__popdict i))) h2
              (elements common)) as [h3 ->].
  { apply Forall_forall. intros n Hn%elem_of_elements. auto. }
  simpl.
  destruct (copy_atoms_ok g (drop_keys (CGRcore.r_ext_node (CGRcore.__popdict i))) h3
              (elements (ext ∖ common))) as [h4 ->].
  { apply Forall_forall. intros n Hn%elem_of_elements. apply Hext. set_solver. }
  simpl.
  destruct (copy_atoms_ok g id h4
              (elements (list_to_set (nodes_of g) ∖ ext : gset Z))) as [h5 ->].
  { apply Forall_forall. intros n Hn%elem_of_elements. set_solver. }
  done.
Qed.

(** A role that has to read the stereo table fails. *)
Lemma compose_role_raises common i g st :
  (∀ n, n ∈ common → n ∈ nodes_of g) →
  reads_stereo (CGRcore.r_edge (CGRcore.__popdict i)) g common →
  CGRcore.compose_role common i g st = Raise AttributeError.
Proof.
  intros Hsub Hread. destruct st as [[h ec] ns]. unfold CGRcore.compose_role.
  set (pop := CGRcore.r_edge (CGRcore.__popdict i)) in *.
  set (L1 := edges g (Some (elements common))).
  destruct (decide (Exists (λ e : Z * Z * attrs, truthy (get e.2 pop) = true) L1))
    as [Hex|Hnex].
  - apply Exists_exists in Hex as (e & Hin & He).
    rewrite (foldM_raise _ AttributeError) with (x := e); [done| |done|].
    + apply common_bond_step_err.
    + intros s. by apply common_bond_step_marked.
  - assert (Forall (λ e : Z * Z * attrs, truthy (get e.2 pop) = false) L1) as Hall.
    { apply Forall_forall. intros e Hin. apply not_true_iff_false. intros He.
      apply Hnex, Exists_exists. by exists e. }
    rewrite common_loop_unmarked by done. simpl.
    destruct Hread as [Hm|Hl].
    { destruct (marked_common_bond_met pop g common Hsub Hm) as (e & Hin & He).
      exfalso. apply Hnex, Exists_exists. by exists e. }
    apply local_bond_met in Hl. fold L1 in Hl.
    destruct (edges g (Some (elements (_ ∖ _)))) as [| e L2]; [done|].
    cbn [foldM]. by rewrite uniq_bond_step_raises.
Qed.

Lemma common_atoms_l m1 m2 n : n ∈ common_atoms m1 m2 → n ∈ nodes_of m1.
Proof. unfold common_atoms. set_solver. Qed.

Lemma common_atoms_r m1 m2 n : n ∈ common_atoms m1 m2 → n ∈ nodes_of m2.
Proof. unfold common_atoms. set_solver. Qed.

(** C2.  Whenever a bond of the reagents graph at a common atom carries
    [s_bond], or a bond of the products graph at a common atom carries
    [p_bond], or one of the graphs has a bond at an atom that is neither
    common nor bonded to a common atom, [compose] raises [AttributeError]:
    it reads the attribute [stereo], which no class defines.  So [compose]
    completes only on inputs without such bonds. *)
Theorem compose_raises_on_stereo (m1 m2 : Graph) :
  wf m1 →
  (reads_stereo "s_bond" m1 (common_atoms m1 m2) ∨
   reads_stereo "p_bond" m2 (common_atoms m1 m2) →
   CGRcore.compose m1 m2 = Raise AttributeError) ∧
  (∀ h, CGRcore.compose m1 m2 = Ok h →
        ¬ reads_stereo "s_bond" m1 (common_atoms m1 m2) ∧
        ¬ reads_stereo "p_bond" m2 (common_atoms m1 m2)).
Proof.
  intros Hwf.
  assert (reads_stereo "s_bond" m1 (common_atoms m1 m2) ∨
          reads_stereo "p_bond" m2 (common_atoms m1 m2) →
          CGRcore.compose m1 m2 = Raise AttributeError) as Hraise.
  { intros Hread. unfold CGRcore.compose. fold (common_atoms m1 m2).
    destruct (CGRcore.compose_role _ CGRcore.reagents m1 _) as [st|e] eqn:E1; simpl.
    - destruct Hread as [H1|H2].
      + rewrite compose_role_raises in E1; [done|apply common_atoms_l|done].
      + rewrite compose_role_raises; [done|apply common_atoms_r|done].
    - f_equal. eapply compose_role_err; [done| |exact E1]. apply common_atoms_l. }
  split; [done|]. intros h Hok.
  split; intros Hread; rewrite Hraise in Hok; auto; done.
Qed.

(** ** [reset_query_marks]: hybridization *)

(** The update only depends on whether the order is 2, 3 or 4. *)
Lemma hyb_next_unfold b h :
  hyb_next b h =
  if bool_decide (h = 3 ∨ h = 4) then h
  else if eqb b (VInt 4) then 4
  else if eqb b (VInt 3) then 3
  else if eqb b (VInt 2) then (if bool_decide (h = 2) then 3 else 2)
  else h.
Proof.
  unfold hyb_next, member. simpl.
  destruct b as [| z | s | l | l]; simpl; try by case_bool_decide.
  do 2 case_bool_decide; simpl; try done; try lia;
    destruct (Z.eqb_spec z 1), (Z.eqb_spec z 4), (Z.eqb_spec z 3),
      (Z.eqb_spec z 2); simpl; try done; try lia.
  all: case_bool_decide; try done; lia.
Qed.

Lemma scan_bond_hyb g b l h n h' n' :
  foldM (scan_bond g b) (h, n) l = Ok (h', n') →
  h' = foldl (λ h b, hyb_next b h) h ((λ nd : Z * attrs, get nd.2 b) <$> l).
Proof.
  revert h n. induction l as [| [node bond] l IH]; simpl; intros h n.
  - by intros [= <- <-].
  - destruct (truthy (get bond b)); simpl.
    + destruct (node_attrs g node) as [a|]; simpl; [|done].
      destruct (item a "element") as [el|]; simpl; [|done]. apply IH.
    + apply IH.
Qed.

(** Closed forms of the fold. *)
Lemma has_order_cons k b bs :
  has_order k (b :: bs) = eqb b (VInt k) || has_order k bs.
Proof. done. Qed.

Lemma doubles_cons b bs :
  doubles (b :: bs) = ((if eqb b (VInt 2) then 1 else 0) + doubles bs)%nat.
Proof.
  unfold doubles. destruct (eqb b (VInt 2)) eqn:E.
  - by rewrite filter_cons_True.
  - rewrite filter_cons_False; [done|]. by rewrite E.
Qed.

Lemma eqb_orders_excl b :
  (eqb b (VInt 4) = true → eqb b (VInt 3) = false ∧ eqb b (VInt 2) = false) ∧
  (eqb b (VInt 3) = true → eqb b (VInt 2) = false).
Proof.
  destruct b as [| z | | |]; simpl; try done.
  destruct (Z.eqb_spec z 4), (Z.eqb_spec z 3), (Z.eqb_spec z 2); split; intros; try done; lia.
Qed.

Lemma hyb_fold_no_aromatic bs h :
  has_order 4 bs = false → (h = 1 ∨ h = 2 ∨ h = 3) →
  foldl (λ h b, hyb_next b h) h bs =
  if bool_decide (h = 3) || has_order 3 bs
     || bool_decide (2 ≤ doubles bs + counted h)%nat
  then 3
  else if bool_decide (doubles bs + counted h = 1)%nat
  then 2 else 1.
Proof.
  unfold counted.
  revert h. induction bs as [| b bs IH]; intros h H4 Hh.
  - simpl. unfold doubles; simpl.
    repeat case_bool_decide; simpl; try done; try lia.
  - rewrite has_order_cons in H4. apply orb_false_iff in H4 as [Hb4 H4].
    cbn [foldl]. rewrite has_order_cons, doubles_cons, hyb_next_unfold, Hb4.
    destruct (eqb_orders_excl b) as [_ H32].
    destruct (eqb b (VInt 3)) eqn:Hb3.
    { rewrite (H32 eq_refl). rewrite IH by (repeat case_bool_decide; auto).
      repeat case_bool_decide; simpl; try done; try lia. }
    destruct (eqb b (VInt 2)) eqn:Hb2.
    { rewrite IH by (repeat case_bool_decide; auto; lia).
      repeat case_bool_decide; simpl; try done; try lia;
        destruct (has_order 3 bs); simpl; try done;
        repeat case_bool_decide; try done; lia. }
    rewrite IH by (repeat case_bool_decide; auto; lia).
    repeat case_bool_decide; simpl; try done; try lia;
      destruct (has_order 3 bs); simpl; try done;
      repeat case_bool_decide; try done; lia.
Qed.

Lemma hyb_fold_single_double bs h :
  has_order 3 bs = false → (h = 1 ∨ h = 2 ∨ h = 4) →
  (doubles bs + counted h ≤ 1)%nat →
  foldl (λ h b, hyb_next b h) h bs =
  if bool_decide (h = 4) || has_order 4 bs then 4
  else if bool_decide (doubles bs + counted h = 1)%nat
  then 2 else 1.
Proof.
  unfold counted.
  revert h. induction bs as [| b bs IH]; intros h H3 Hh Hd.
  - simpl. unfold doubles in *; simpl in *.
    repeat case_bool_decide; simpl; try done; try lia.
  - rewrite has_order_cons in H3. apply orb_false_iff in H3 as [Hb3 H3].
    rewrite doubles_cons in Hd.
    cbn [foldl]. rewrite has_order_cons, doubles_cons, hyb_next_unfold, Hb3.
    destruct (eqb_orders_excl b) as [H42 _].
    destruct (eqb b (VInt 4)) eqn:Hb4.
    { destruct (H42 eq_refl) as [_ Hb2]. rewrite Hb2 in *.
      rewrite IH; [|done|repeat case_bool_decide; auto; lia
                   |repeat case_bool_decide; try lia].
      repeat case_bool_decide; simpl; try done; try lia. }
    destruct (eqb b (VInt 2)) eqn:Hb2.
    { rewrite IH; [|done|repeat case_bool_decide; auto; lia
                   |repeat case_bool_decide; try lia].
      repeat case_bool_decide; simpl; try done; try lia;
        destruct (has_order 4 bs); simpl; try done;
        repeat case_bool_decide; try done; lia. }
    rewrite IH; [|done|repeat case_bool_decide; auto; lia
                 |repeat case_bool_decide; try lia].
    repeat case_bool_decide; simpl; try done; try lia;
      destruct (has_order 4 bs); simpl; try done;
      repeat case_bool_decide; try done; lia.
Qed.

Lemma has_order_perm k bs bs' : bs ≡ₚ bs' → has_order k bs = has_order k bs'.
Proof.
  intros Hp. unfold has_order. apply eq_true_iff_eq.
  rewrite !existsb_exists. split; intros (x & Hin & Hx); exists x; split; try done.
  - eapply Permutation_in; [exact Hp|done].
  - eapply Permutation_in; [symmetry; exact Hp|done].
Qed.

Lemma doubles_perm bs bs' : bs ≡ₚ bs' → doubles bs = doubles bs'.
Proof. intros Hp. unfold doubles. by rewrite Hp. Qed.

Lemma hyb_of_stable bs bs' :
  bs ≡ₚ bs' → order_stable bs → hyb_of bs = hyb_of bs'.
Proof.
  intros Hp [H4|[H3 Hd]]; unfold hyb_of.
  - rewrite !hyb_fold_no_aromatic; auto.
    + by rewrite (has_order_perm 3 bs bs'), (doubles_perm bs bs').
    + by rewrite <- (has_order_perm 4 bs bs').
  - rewrite !hyb_fold_single_double; auto.
    + by rewrite (has_order_perm 4 bs bs'), (doubles_perm bs bs').
    + by rewrite <- (has_order_perm 3 bs bs').
    + rewrite <- (doubles_perm bs bs') by done. unfold counted; simpl. lia.
    + unfold counted; simpl. lia.
Qed.

(** C6 (amended).  The hybridization an atom derives in a channel is the
    fold of [hyb_next] over its bond orders in iteration order.  Order 4
    sets 4 and order 3 sets 3 unless the class is already 3 or 4, which are
    both final; order 2 sets 2, or 3 when the class is already 2; order 1
    and a missing order change nothing.  The result does not depend on the
    iteration order when the bonds do not hold an aromatic bond together
    with a triple bond or two double bonds. *)
Theorem hybridization_precedence :
  (∀ g i label, MoleculeContainer.label_of g i = Ok label →
     label !! "s_hyb" = Some (VInt (hyb_of (orders "s_bond" g i)))) ∧
  (∀ g i label, CGRContainer.label_of g i = Ok label →
     label !! "s_hyb" = Some (VInt (hyb_of (orders "s_bond" g i))) ∧
     label !! "p_hyb" = Some (VInt (hyb_of (orders "p_bond" g i)))) ∧
  (∀ b h, h = 3 ∨ h = 4 → hyb_next b h = h) ∧
  (∀ h, h ≠ 3 → h ≠ 4 → hyb_next (VInt 4) h = 4 ∧ hyb_next (VInt 3) h = 3) ∧
  hyb_next (VInt 2) 2 = 3 ∧ hyb_next (VInt 2) 1 = 2 ∧
  (∀ h, hyb_next (VInt 1) h = h ∧ hyb_next VNone h = h) ∧
  (∀ bs bs', bs ≡ₚ bs' → order_stable bs → hyb_of bs = hyb_of bs').
Proof.
  split_and!.
  - intros g i label. unfold MoleculeContainer.label_of.
    destruct (foldM _ _ _) as [[h n]|] eqn:E; simpl; [|done].
    apply scan_bond_hyb in E. intros [= <-]. by subst.
  - intros g i label. unfold CGRContainer.label_of.
    destruct (foldM (scan_bond g "s_bond") _ _) as [[sh sn]|] eqn:Es; simpl; [|done].
    destruct (foldM (scan_bond g "p_bond") _ _) as [[ph pn]|] eqn:Ep; simpl; [|done].
    apply scan_bond_hyb in Es, Ep. intros [= <-]. by subst.
  - intros b h Hh. rewrite hyb_next_unfold. by rewrite bool_decide_eq_true_2.
  - intros h H3 H4. rewrite !hyb_next_unfold.
    rewrite bool_decide_eq_false_2 by tauto. done.
  - done.
  - done.
  - intros h. rewrite !hyb_next_unfold. simpl. by case_bool_decide.
  - apply hyb_of_stable.
Qed.

(** Counterexample to C6 as stated: an atom with a triple and an aromatic
    bond derives 3 when the triple bond is iterated first and 4 when the
    aromatic bond is. *)
Lemma hybridization_depends_on_order :
  (g ← MoleculeContainer.reset_query_marks c6_triple_first false;
   Ok (node_mark g 1 "s_hyb")) = Ok (Some (VInt 3)) ∧
  (g ← MoleculeContainer.reset_query_marks c6_aromatic_first false;
   Ok (node_mark g 1 "s_hyb")) = Ok (Some (VInt 4)) ∧
  orders "s_bond" c6_triple_first 1 ≡ₚ orders "s_bond" c6_aromatic_first 1.
Proof.
  split_and!; [by vm_compute..|]. vm_compute. apply perm_swap.
Qed.

(** A double and an aromatic bond, in either order. *)
Lemma hybridization_precedence_witness :
  hyb_of [VInt 2; VInt 4] = hyb_of [VInt 4; VInt 2].
Proof.
  apply hybridization_precedence.
  - apply perm_swap.
  - right. vm_compute. split; [reflexivity|lia].
Defined.

(** ** Charge marks across the operations *)

Lemma add_edge_node g u v a :
  u ∈ nodes_of g → v ∈ nodes_of g → node (add_edge g u v a) = node g.
Proof.
  intros Hu%has_node_true Hv%has_node_true. unfold add_edge.
  rewrite Hu, Hv. by destruct (has_edge g u v).
Qed.

Lemma add_edges_from_node g l :
  Forall (λ e : Z * Z * attrs, e.1.1 ∈ nodes_of g ∧ e.1.2 ∈ nodes_of g) l →
  node (add_edges_from g l) = node g.
Proof.
  unfold add_edges_from. intros Hl. revert g Hl.
  induction l as [| e l IH]; simpl; intros g Hl; [done|].
  apply Forall_cons in Hl as [[Hu Hv] Hl].
  assert (node (add_edge g e.1.1 e.1.2 e.2) = node g) as Hn by by apply add_edge_node.
  rewrite IH; [done|]. unfold nodes_of. by rewrite Hn.
Qed.

Lemma copy_node g : wf g → node (nx.copy g) = node g.
Proof.
  intros (Hnd & _ & Hends). unfold nx.copy.
  rewrite add_nodes_from_fresh; [|done|intros k _; apply not_elem_of_nil].
  simpl. rewrite add_edges_from_node; [done|].
  apply Forall_forall. intros [[u v] d] Hin. simpl.
  apply list_elem_of_bind in Hin as (u' & Hin & Hu').
  apply list_elem_of_fmap in Hin as ([v' d'] & Heq & Hadj).
  simpl in Heq. injection Heq as -> -> ->.
  change (nodes_of (with_node (empty PlainGraph) (node g))) with (nodes_of g).
  split; [done|].
  apply elem_of_adj_in in Hadj as (a & b & Hin & Hab).
  rewrite Forall_forall in Hends. apply Hends in Hin. simpl in Hin. naive_solver.
Qed.

Lemma molecule_copy_node g : wf g → node (MoleculeContainer.copy g) = node g.
Proof. intros Hwf. unfold MoleculeContainer.copy; simpl. by apply copy_node. Qed.

Lemma node_get_node_update g i label n :
  node_get (node_update g i label) n =
  if decide (i = n) then (λ d, update d label) <$> node_get g n else node_get g n.
Proof. unfold node_update, node_get; simpl. apply alookup_aalter. Qed.

Lemma node_get_node_set g i new n :
  node_get (node_set g i new) n =
  if decide (i = n) then (λ _, new) <$> node_get g n else node_get g n.
Proof. unfold node_set, node_get; simpl. apply alookup_aalter. Qed.

(** Relabelling loops: every atom of the result is an atom of the start,
    either untouched or updated with labels. *)
Section relabel.
Variable L : Graph → Z → res attrs.
Variable K : attrs → Prop.
Hypothesis L_K : ∀ g i label, L g i = Ok label → K label.

Lemma relabel_loop l g g' :
  foldM (λ g i, label ← L g i; Ok (node_update g i label)) g l = Ok g' →
  ∀ n a', node_get g' n = Some a' →
    ∃ a, node_get g n = Some a ∧
         (((n ∉ l) ∧ a' = a) ∨ (n ∈ l ∧ relabelled K a a')).
Proof.
  revert g. induction l as [| i l IH]; simpl; intros g.
  - intros [= <-] n a' Ha'. exists a'. split; [done|]. left.
    split; [apply not_elem_of_nil|done].
  - destruct (L g i) as [label|] eqn:El; simpl; [|done].
    intros Hfold n a' Ha'. apply L_K in El.
    destruct (IH _ Hfold n a' Ha') as (a1 & Ha1 & Hcase).
    rewrite node_get_node_update in Ha1.
    destruct (decide (i = n)) as [->|Hne].
    + destruct (node_get g n) as [a|] eqn:Ha; simpl in Ha1; [|done].
      injection Ha1 as <-. exists a. split; [done|]. right.
      split; [by left|].
      destruct Hcase as [[_ ->]|[_ Hrel]]; [by constructor|].
      clear -Hrel El. induction Hrel.
      * apply relabelled_again; [by constructor|done].
      * by apply relabelled_again.
    + exists a1. split; [done|]. rewrite not_elem_of_cons, elem_of_cons.
      destruct Hcase as [[? ->]|[? ?]]; [left|right]; split; auto.
Qed.
End relabel.

Lemma update_is_Some (d new : attrs) k :
  is_Some (update d new !! k) ↔ is_Some (new !! k) ∨ is_Some (d !! k).
Proof.
  unfold update. rewrite lookup_union.
  destruct (new !! k), (d !! k); simpl; split; intros; eauto; naive_solver.
Qed.

Lemma update_lookup_new (d new : attrs) k v :
  new !! k = Some v → update d new !! k = Some v.
Proof. intros H. unfold update. by apply lookup_union_Some_l. Qed.

Lemma molecule_label_of g i label :
  MoleculeContainer.label_of g i = Ok label → molecule_label label.
Proof.
  unfold MoleculeContainer.label_of.
  destruct (foldM _ _ _) as [[h n]|]; simpl; [|done]. intros [= <-].
  split_and!; [done..|]. intros k [v Hk].
  repeat (apply lookup_insert_Some in Hk as [[<- _]|[_ Hk]];
          [repeat (try (by left); right)|]).
  done.
Qed.

Lemma attr_renew_keys a marks k :
  is_Some (MoleculeContainer._attr_renew a marks !! k) → k ∈ marks.
Proof.
  unfold MoleculeContainer._attr_renew.
  assert (∀ acc : attrs,
            is_Some (foldl (λ new_attr s,
                              match get a s with
                              | VNone => new_attr
                              | ls => <[s := ls]> new_attr
                              end) acc marks !! k) →
            is_Some (acc !! k) ∨ k ∈ marks) as H.
  { induction marks as [| s marks IH]; simpl; intros acc; [auto|].
    intros [Hk|Hk]%IH; [|right; by right].
    destruct (get a s); try (by left);
      (apply lookup_insert_is_Some in Hk as [->|[_ Hk]];
       [right; by left|by left]). }
  intros [Hk|Hk]%H; [|done]. rewrite lookup_empty in Hk. by destruct Hk.
Qed.

Lemma s_only_renewed a :
  s_only (MoleculeContainer._attr_renew a MoleculeContainer._node_marks).
Proof.
  intros k Hk%attr_renew_keys. unfold MoleculeContainer._node_marks in Hk.
  repeat (apply elem_of_cons in Hk as [-> |Hk]); try done.
  by apply elem_of_nil in Hk.
Qed.

Lemma reset_query_marks_start (self : Graph) (copy_ : bool) n :
  wf self →
  node_get (if copy_ then MoleculeContainer.copy self else self) n = node_get self n.
Proof.
  intros Hwf. destruct copy_; [|done]. unfold node_get.
  by rewrite molecule_copy_node.
Qed.

(** ** [fix_data] on a molecule is idempotent *)

Lemma attr_renew_lookup a marks k :
  MoleculeContainer._attr_renew a marks !! k =
  if decide (k ∈ marks) then kept a k else None.
Proof.
  unfold MoleculeContainer._attr_renew.
  assert (∀ acc : attrs,
            foldl (λ new_attr s,
                     match get a s with
                     | VNone => new_attr
                     | ls => <[s := ls]> new_attr
                     end) acc marks !! k =
            if decide (k ∈ marks)
            then match kept a k with Some v => Some v | None => acc !! k end
            else acc !! k) as H.
  { induction marks as [| s marks IH]; intros acc; cbn [foldl].
    - case_decide as Hin; [by apply elem_of_nil in Hin|done].
    - rewrite IH. destruct (decide (k = s)) as [->|Hne].
      + destruct (decide (s ∈ s :: marks)) as [_|Hn]; [|exfalso; apply Hn; by left].
        unfold kept. destruct (get a s) eqn:E;
          case_decide; try done; by rewrite lookup_insert_eq.
      + assert ((match get a s with
                 | VNone => acc
                 | ls => <[s := ls]> acc
                 end) !! k = acc !! k) as ->.
        { destruct (get a s); try done; by rewrite lookup_insert_ne. }
        destruct (decide (k ∈ marks)) as [Hin|Hin].
        * rewrite decide_True by by right. done.
        * rewrite decide_False; [done|]. by intros [?|?]%elem_of_cons. }
  rewrite H, lookup_empty. case_decide; [|done]. by destruct (kept a k).
Qed.

Lemma attr_renew_idem a marks :
  MoleculeContainer._attr_renew (MoleculeContainer._attr_renew a marks) marks =
  MoleculeContainer._attr_renew a marks.
Proof.
  apply map_eq. intros k. rewrite !attr_renew_lookup.
  case_decide; [|done]. unfold kept at 1, get.
  rewrite attr_renew_lookup, decide_True by done.
  unfold kept. by destruct (get a k).
Qed.

Lemma renewed_nodes_keys ns f l : (renewed_nodes ns f l).*1 = l.*1.
Proof.
  unfold renewed_nodes. rewrite <- list_fmap_compose. apply list_fmap_ext.
  intros i na _. simpl. by case_decide.
Qed.

Lemma renewed_nodes_nil f l : renewed_nodes [] f l = l.
Proof.
  unfold renewed_nodes. rewrite <- (list_fmap_id l) at 2. apply list_fmap_ext.
  intros i na _. rewrite decide_False; [done|apply not_elem_of_nil].
Qed.

Lemma renewed_nodes_cons x ns f l :
  (∀ a, f (f a) = f a) →
  renewed_nodes ns f (renewed_nodes [x] f l) = renewed_nodes (x :: ns) f l.
Proof.
  intros Hf. unfold renewed_nodes. rewrite <- list_fmap_compose.
  apply list_fmap_ext. intros i [n a] _. simpl.
  destruct (decide (n ∈ [x])) as [Hx|Hx]; simpl.
  - apply list_elem_of_singleton in Hx as ->.
    rewrite (decide_True (P := x ∈ x :: ns)) by by left.
    case_decide; [by rewrite Hf|done].
  - rewrite list_elem_of_singleton in Hx.
    destruct (decide (n ∈ ns)); [rewrite decide_True by by right|
                                 rewrite decide_False by set_solver]; done.
Qed.

Lemma renewed_nodes_idem ns f l :
  (∀ a, f (f a) = f a) →
  renewed_nodes ns f (renewed_nodes ns f l) = renewed_nodes ns f l.
Proof.
  intros Hf. unfold renewed_nodes. rewrite <- list_fmap_compose.
  apply list_fmap_ext. intros i [n a] _. simpl.
  destruct (decide (n ∈ ns)); simpl; [|by rewrite decide_False].
  by rewrite decide_True, Hf.
Qed.

Lemma aalter_renewed (f : attrs → attrs) x a (l : list (Z * attrs)) :
  NoDup l.*1 → alookup x l = Some a →
  aalter (λ _, f a) x l = renewed_nodes [x] f l.
Proof.
  unfold renewed_nodes.
  induction l as [| [k v] l IH]; simpl; intros Hnd Hx; [done|].
  apply NoDup_cons in Hnd as [Hk Hnd].
  destruct (decide (x = k)) as [->|Hne].
  - injection Hx as ->. rewrite decide_True by by left. f_equal.
    rewrite <- (list_fmap_id l) at 1. apply list_fmap_ext.
    intros i [n v] Hi. simpl. rewrite decide_False; [done|].
    intros ->%list_elem_of_singleton. apply Hk.
    apply list_elem_of_fmap. exists (k, v). split; [done|].
    by eapply list_elem_of_lookup_2.
  - rewrite decide_False by (by intros ?%list_elem_of_singleton).
    f_equal. by apply IH.
Qed.

Lemma ekeys_renewed ks f es : ekeys (renewed_edges ks f es) = ekeys es.
Proof.
  unfold ekeys, renewed_edges. rewrite <- list_fmap_compose.
  apply list_fmap_ext. intros i e _. simpl. by case_decide.
Qed.

Lemma renewed_edges_nil f es : renewed_edges [] f es = es.
Proof.
  unfold renewed_edges. rewrite <- (list_fmap_id es) at 2. apply list_fmap_ext.
  intros i e _. rewrite decide_False; [done|apply not_elem_of_nil].
Qed.

Lemma renewed_edges_cons k ks f es :
  (∀ a, f (f a) = f a) →
  renewed_edges ks f (renewed_edges [k] f es) = renewed_edges (k :: ks) f es.
Proof.
  intros Hf. unfold renewed_edges. rewrite <- list_fmap_compose.
  apply list_fmap_ext. intros i [[u v] a] _. simpl.
  destruct (decide (ekey u v ∈ [k])) as [Hx|Hx]; simpl.
  - apply list_elem_of_singleton in Hx as <-.
    rewrite (decide_True (P := ekey u v ∈ ekey u v :: ks)) by by left.
    case_decide; [by rewrite Hf|done].
  - rewrite list_elem_of_singleton in Hx.
    destruct (decide (ekey u v ∈ ks)); [rewrite decide_True by by right|
                                        rewrite decide_False by set_solver]; done.
Qed.

Lemma renewed_edges_idem ks f es :
  (∀ a, f (f a) = f a) →
  renewed_edges ks f (renewed_edges ks f es) = renewed_edges ks f es.
Proof.
  intros Hf. unfold renewed_edges. rewrite <- list_fmap_compose.
  apply list_fmap_ext. intros i [[u v] a] _. simpl.
  destruct (decide (ekey u v ∈ ks)); simpl; [|by rewrite decide_False].
  by rewrite decide_True, Hf.
Qed.

Lemma edge_set_renewed (f : attrs → attrs) g u v a :
  NoDup (ekeys (edge g)) → edge_get g u v = Some a →
  edge (edge_set g u v (f a)) = renewed_edges [ekey u v] f (edge g).
Proof.
  unfold edge_set, edge_get, renewed_edges, ekeys; simpl.
  induction (edge g) as [| e es IH]; simpl; intros Hnd Hx; [done|].
  apply NoDup_cons in Hnd as [Hk Hnd].
  destruct (joins u v e) eqn:Hj; simpl in Hx.
  - injection Hx as <-. apply joins_true in Hj.
    rewrite decide_True by (rewrite Hj; by left). f_equal.
    apply list_fmap_ext. intros i e' Hi.
    assert (ekey e'.1.1 e'.1.2 ≠ ekey u v) as Hne.
    { intros Heq. apply Hk. rewrite Hj, <- Heq. apply list_elem_of_fmap.
      exists e'. split; [done|]. by eapply list_elem_of_lookup_2. }
    rewrite decide_False by (by intros ?%list_elem_of_singleton).
    destruct (joins u v e') eqn:Hj'; [|done]. by apply joins_true in Hj'.
  - assert (ekey e.1.1 e.1.2 ≠ ekey u v) as Hne.
    { intros Heq. apply joins_true in Heq. congruence. }
    rewrite decide_False by (by intros ?%list_elem_of_singleton).
    f_equal. by apply IH.
Qed.

Lemma edge_get_is_Some g u v :
  ekey u v ∈ ekeys (edge g) → is_Some (edge_get g u v).
Proof.
  unfold edge_get, ekeys. induction (edge g) as [| e es IH]; simpl.
  - by intros ?%elem_of_nil.
  - intros [Heq|Hin]%elem_of_cons.
    + assert (joins u v e = true) as -> by by apply joins_true.
      simpl. by eexists.
    + destruct (joins u v e); simpl; [by eexists|by apply IH].
Qed.

Lemma edges_keys_stored g nbunch :
  Forall (λ e : Z * Z * attrs, ekey e.1.1 e.1.2 ∈ ekeys (edge g)) (edges g nbunch).
Proof.
  apply Forall_forall. intros [[u v] d] Hin. simpl.
  apply elem_of_edges_from in Hin as (_ & Hadj & _).
  apply elem_of_adj_in in Hadj as (a & b & Hin & Hab).
  apply list_elem_of_fmap. exists (a, b, d). split; [|done]. simpl.
  destruct Hab as [[-> ->]|[-> ->]]; [done|apply ekey_comm].
Qed.

(** Rewriting the data of bonds does not change which bonds are reported. *)
Lemma edges_from_renewed ks f es seen ns :
  (λ e : Z * Z * attrs, e.1) <$> edges_from (renewed_edges ks f es) seen ns =
  (λ e : Z * Z * attrs, e.1) <$> edges_from es seen ns.
Proof.
  revert seen. induction ns as [| n ns IH]; intros seen; [done|].
  cbn [edges_from]. rewrite !fmap_app, IH. f_equal.
  rewrite <- !list_fmap_compose. clear IH.
  induction es as [| [[u v] a] es IHes]; [done|].
  unfold renewed_edges in *. rewrite fmap_cons. unfold adj_in in *.
  cbn [omap list_omap]. simpl.
  assert (∀ a', incident n (u, v, a') =
                (λ w, (w, a')) <$> (if decide (u = n) then Some v
                                    else if decide (v = n) then Some u else None))
    as Hinc.
  { intros a'. unfold incident; simpl. by repeat case_decide. }
  assert (incident n (if decide (ekey u v ∈ ks) then (u, v, f a) else (u, v, a)) =
          (λ w, (w, if decide (ekey u v ∈ ks) then f a else a)) <$>
            (if decide (u = n) then Some v
             else if decide (v = n) then Some u else None)) as ->.
  { destruct (decide (ekey u v ∈ ks)); apply Hinc. }
  rewrite (Hinc a).
  destruct (if decide (u = n) then Some v else if decide (v = n) then Some u else None)
    as [w|]; simpl; [|apply IHes].
  destruct (decide (w ∉ seen)).
  - rewrite !filter_cons_True by done. simpl. f_equal. apply IHes.
  - rewrite !filter_cons_False by done. apply IHes.
Qed.

Lemma edges_renewed_ekeys g g' ks f nbunch :
  nodes_of g' = nodes_of g → edge g' = renewed_edges ks f (edge g) →
  ekeys (edges g' nbunch) = ekeys (edges g nbunch).
Proof.
  intros Hn He. unfold edges, nbunch_iter. rewrite Hn, He.
  assert (∀ l, ekeys l = (λ p : Z * Z, ekey p.1 p.2) <$>
                           ((λ e : Z * Z * attrs, e.1) <$> l)) as Hk.
  { intros l. unfold ekeys. by rewrite <- list_fmap_compose. }
  by rewrite !Hk, edges_from_renewed.
Qed.

Lemma res_bind_Ok {A B} (k : A → res B) (a : A) : (Ok a ≫= k) = k a.
Proof. done. Qed.

Lemma fix_data_nodes_molecule self g ns :
  class_ self ≠ CGR → NoDup (nodes_of g) → Forall (λ x, x ∈ nodes_of g) ns →
  foldM (λ g x, a ← node_attrs g x;
                new ← renew_node_attr self a;
                Ok (node_set g x new)) g ns
  = Ok (with_node g (renewed_nodes ns renew_atom (node g))).
Proof.
  intros Hcls. revert g. induction ns as [| x ns IH]; intros g Hnd Hns.
  - cbn [foldM]. rewrite renewed_nodes_nil. by destruct g.
  - apply Forall_cons in Hns as [Hx Hns]. cbn [foldM].
    destruct (node_attrs_ok g x Hx) as (a & Hna & Ha).
    assert (renew_node_attr self a = Ok (renew_atom a)) as Hrn.
    { unfold renew_node_attr. by destruct (class_ self). }
    rewrite Hna, res_bind_Ok, Hrn, res_bind_Ok. cbn [Py.bind].
    change (node_set g x (renew_atom a))
      with (with_node g (aalter (λ _, renew_atom a) x (node g))).
    rewrite (aalter_renewed renew_atom x a) by done.
    assert (nodes_of (with_node g (renewed_nodes [x] renew_atom (node g)))
            = nodes_of g) as Hn.
    { unfold nodes_of, with_node. cbn [node]. by rewrite renewed_nodes_keys. }
    specialize (IH (with_node g (renewed_nodes [x] renew_atom (node g)))).
    rewrite Hn in IH. rewrite IH by done.
    f_equal. unfold with_node. cbn [class_ node edge meta]. f_equal.
    apply renewed_nodes_cons. intros a'. apply attr_renew_idem.
Qed.

Lemma fix_data_edges_molecule self g es :
  class_ self ≠ CGR → NoDup (ekeys (edge g)) →
  Forall (λ e : Z * Z * attrs, ekey e.1.1 e.1.2 ∈ ekeys (edge g)) es →
  foldM (λ g (e : Z * Z * attrs),
           a ← edge_attrs g e.1.1 e.1.2;
           new ← renew_edge_attr self a;
           Ok (edge_set g e.1.1 e.1.2 new)) g es
  = Ok (with_edge g (renewed_edges (ekeys es) renew_bond (edge g))).
Proof.
  intros Hcls. revert g. induction es as [| [[u v] d] es IH]; intros g Hnd Hes.
  - cbn [foldM]. unfold ekeys at 1. rewrite fmap_nil, renewed_edges_nil.
    by destruct g.
  - apply Forall_cons in Hes as [Hx Hes]. cbn [foldM]. cbn [fst snd] in *.
    destruct (edge_get_is_Some g u v Hx) as [a Ha].
    assert (renew_edge_attr self a = Ok (renew_bond a)) as Hrn.
    { unfold renew_edge_attr. by destruct (class_ self). }
    assert (edge_attrs g u v = Ok a) as Hea by (unfold edge_attrs; by rewrite Ha).
    rewrite Hea, res_bind_Ok, Hrn, res_bind_Ok. cbn [Py.bind].
    pose proof (edge_set_renewed renew_bond g u v a Hnd Ha) as Hset.
    specialize (IH (edge_set g u v (renew_bond a))).
    rewrite Hset, ekeys_renewed in IH. rewrite IH by done.
    f_equal. unfold with_edge, edge_set. cbn [class_ node edge meta].
    f_equal. unfold ekeys at 2. rewrite fmap_cons. cbn [fst snd].
    fold (ekeys es).
    apply renewed_edges_cons. intros a'. apply attr_renew_idem.
Qed.

(** The result of [fix_data] on a molecule, in place. *)
Lemma fix_data_molecule_eq self nodes_bunch edges_bunch :
  class_ self ≠ CGR → wf self →
  fix_data self false nodes_bunch edges_bunch =
  Ok (mkGraph (class_ self)
        (renewed_nodes (bunch self nodes_bunch) renew_atom (node self))
        (renewed_edges (ekeys (edges self edges_bunch)) renew_bond (edge self))
        (meta self)).
Proof.
  intros Hcls (Hnd & Hek & Hends). unfold fix_data.
  fold (bunch self nodes_bunch).
  rewrite (fix_data_nodes_molecule self self (bunch self nodes_bunch) Hcls Hnd).
  2:{ apply Forall_forall. intros x. unfold bunch, nbunch_iter.
      destruct nodes_bunch; [|done]. by intros [? _]%list_elem_of_filter. }
  rewrite res_bind_Ok.
  set (g1 := with_node self _).
  assert (edges g1 edges_bunch = edges self edges_bunch) as Hes.
  { unfold edges, nbunch_iter, g1, nodes_of, with_node. cbn [node edge].
    by rewrite renewed_nodes_keys. }
  rewrite Hes.
  rewrite (fix_data_edges_molecule self g1 (edges self edges_bunch) Hcls);
    [done|done|].
  change (edge g1) with (edge self). apply edges_keys_stored.
Qed.

(** On a molecule a second [fix_data] over the same bunches changes
    nothing. *)
Lemma fix_data_molecule_idempotent self nodes_bunch edges_bunch g :
  class_ self ≠ CGR → wf self →
  fix_data self false nodes_bunch edges_bunch = Ok g →
  fix_data g false nodes_bunch edges_bunch = Ok g.
Proof.
  intros Hcls Hwf. rewrite fix_data_molecule_eq by done. intros [= <-].
  set (g := mkGraph _ _ _ _).
  assert (nodes_of g = nodes_of self) as Hn.
  { unfold g, nodes_of. cbn [node]. by rewrite renewed_nodes_keys. }
  assert (wf g) as Hwfg.
  { destruct Hwf as (Hnd & Hek & Hends). unfold wf. rewrite Hn. unfold g.
    cbn [edge]. rewrite ekeys_renewed. split_and!; [done..|].
    unfold renewed_edges. apply Forall_fmap.
    eapply Forall_impl; [exact Hends|]. intros e [? ?]. cbn. by case_decide. }
  rewrite fix_data_molecule_eq by done.
  assert (bunch g nodes_bunch = bunch self nodes_bunch) as ->.
  { unfold bunch, nbunch_iter. by rewrite Hn. }
  rewrite (edges_renewed_ekeys self g (ekeys (edges self edges_bunch)) renew_bond)
    by done.
  unfold g. cbn [class_ node edge meta]. f_equal. f_equal.
  - apply renewed_nodes_idem. intros a. apply attr_renew_idem.
  - apply renewed_edges_idem. intros a. apply attr_renew_idem.
Qed.

(** Every atom of an unpickled molecule holds state marks only: whatever
    the document says, the element, the isotope, the mark and the
    coordinates do not survive [unpickle]. *)
Lemma unpickle_molecule_state_marks_only data g :
  nl_s_only data = true → unpickle data = Ok g →
  ∀ n a k, node_get g n = Some a → is_Some (a !! k) →
           k ∈ MoleculeContainer._node_marks.
Proof.
  intros Hs. unfold unpickle. rewrite Hs.
  set (g0 := with_class Molecule (node_link_graph data)).
  assert (wf g0) as Hwf.
  { assert (wf (node_link_graph data)) as H.
    { unfold node_link_graph. apply wf_add_edges_from, wf_add_nodes_from, wf_empty. }
    exact H. }
  rewrite fix_data_molecule_eq by done. rewrite res_bind_Ok.
  intros [= <-] n a k Ha Hk. unfold node_get in Ha. cbn [node with_meta] in Ha.
  apply alookup_Some_elem in Ha. unfold renewed_nodes in Ha.
  apply list_elem_of_fmap in Ha as ([n0 a0] & Heq & Hin).
  cbn [fst snd] in Heq.
  rewrite decide_True in Heq.
  2:{ unfold bunch, nodes_of. apply list_elem_of_fmap. by exists (n0, a0). }
  injection Heq as -> ->. by apply attr_renew_keys in Hk.
Qed.

(** ** The operations on the example entities *)

Lemma wf_intro g : bool_decide (wf g) = true → wf g.
Proof. apply bool_decide_eq_true_1. Qed.

(** The example entities are what [add_atom] and [add_bond] build. *)
Lemma c1_reagents_built :
  (g ← MoleculeContainer.add_atom (empty Molecule) (VStr "C") (VInt 0) None
         (VStr "0") (VInt 0) (VInt 0) (VInt 0);
   g ← MoleculeContainer.add_atom g (VStr "C") (VInt 0) None
         (VStr "0") (VInt 0) (VInt 0) (VInt 0);
   g ← MoleculeContainer.add_atom g (VStr "O") (VInt 0) None
         (VStr "0") (VInt 0) (VInt 0) (VInt 0);
   MoleculeContainer.add_bond g 1 2 (VInt 1)) = Ok c1_reagents.
Proof. by vm_compute. Qed.

Lemma c1_products_built :
  (g ← CGRContainer.add_atom (empty CGR) (VStr "C") (VInt 0) VNone None
         (VStr "0") (VInt 0) (VInt 0) (VInt 0) VNone VNone VNone;
   g ← CGRContainer.add_atom g (VStr "C") (VInt 0) VNone None
         (VStr "0") (VInt 0) (VInt 0) (VInt 0) VNone VNone VNone;
   g ← CGRContainer.add_atom g (VStr "O") (VInt 0) VNone None
         (VStr "0") (VInt 0) (VInt 0) (VInt 0) VNone VNone VNone;
   CGRContainer.add_bond g 2 3 VNone (VInt 2)) = Ok c1_products.
Proof. by vm_compute. Qed.

(** In the scenario of C1 the first loop of [compose] meets the marked
    bond 1-2 of the reagents and reads the stereo table. *)
Lemma compose_fails_on_marked_reagent_bond (m1 m2 : Graph) (u v : Z) (d : attrs) :
  u ∈ nodes_of m1 → u ∈ nodes_of m2 →
  (u, v, d) ∈ edge m1 ∨ (v, u, d) ∈ edge m1 →
  truthy (get d "s_bond") = true →
  CGRcore.compose m1 m2 = Raise AttributeError.
Proof.
  intros Hu1 Hu2 Hin Ht. unfold CGRcore.compose. fold (common_atoms m1 m2).
  rewrite compose_role_raises; [done|apply common_atoms_l|].
  left. assert (u ∈ common_atoms m1 m2) by (unfold common_atoms; set_solver).
  destruct Hin; [exists u, v, d|exists v, u, d]; auto.
Qed.

(** Without bonds [compose] completes; the atoms come out with the
    combined marks alone. *)
Lemma compose_completes_without_bonds :
  ∃ h, CGRcore.compose c2_reagents c2_products = Ok h ∧
       class_ h = CGR ∧
       node_mark h 1 "sp_charge" = Some (pair_ (VInt 0) (VInt 1)) ∧
       node_mark h 2 "sp_charge" = Some (VInt 0) ∧
       node_mark h 1 "s_charge" = None.
Proof. eexists. split_and!; by vm_compute. Qed.

(** C1 (the code fails).  On reagents with the single bond 1-2 and
    products with the product-side double bond 2-3, [compose] does not
    return a CGR: it raises [AttributeError]. *)
Theorem compose_bond_union_raises :
  CGRcore.compose c1_reagents c1_products = Raise AttributeError.
Proof. by vm_compute. Qed.

(** C3 (the code fails).  The atoms hold schema keys only and [pickle]
    keeps them all, but [unpickle] normalises with [fix_data], which keeps
    the state marks only: after the round trip the element, the mark and
    the coordinates are gone, from a molecule and from a CGR. *)
Theorem unpickle_pickle_loses_base_keys :
  nl_nodes (pickle c3_molecule) = node c3_molecule ∧
  node_mark c3_molecule 1 "element" = Some (VStr "C") ∧
  unpickle (pickle c3_molecule)
    = Ok (mkGraph Molecule [(1, {["s_charge" := VInt 0]})] [] ∅) ∧
  nl_nodes (pickle c3_cgr) = node c3_cgr ∧
  unpickle (pickle c3_cgr) = Ok c4_once.
Proof. split_and!; by vm_compute. Qed.

(** C4 (the code fails).  On a CGR atom with [s_charge = 0] and
    [p_charge = 1] the first [fix_data] leaves [sp_charge = (0, 1)] alone,
    the second leaves nothing. *)
Theorem fix_data_twice_differs :
  fix_data c4_cgr false None None = Ok c4_once ∧
  fix_data c4_once false None None = Ok c4_twice ∧
  node_mark c4_once 1 "sp_charge" = Some (pair_ (VInt 0) (VInt 1)) ∧
  node_mark c4_twice 1 "sp_charge" = None.
Proof. split_and!; by vm_compute. Qed.

(** Counterexample to C5 as stated: a one-atom molecule carries no
    product-side mark; after [reset_query_marks] it carries [p_hyb]. *)
Lemma reset_query_marks_writes_p_marks :
  molecule_s_only c5_molecule ∧
  ∃ g, MoleculeContainer.reset_query_marks c5_molecule false = Ok g ∧
       node_mark g 1 "p_hyb" = Some (VInt 1) ∧
       ¬ molecule_s_only g.
Proof.
  split.
  - intros n a Ha k [v Hk]. unfold c5_molecule, node_get in Ha. simpl in Ha.
    case_decide; [|done]. injection Ha as <-. unfold molecule_atom in Hk.
    repeat (apply lookup_insert_Some in Hk as [[<- _]|[_ Hk]]; [done|]).
    done.
  - eexists. split; [by vm_compute|]. split; [by vm_compute|].
    intros H. specialize (H 1 _ eq_refl "p_hyb").
    assert (true = false) as Hf; [|discriminate Hf].
    apply H. exists (VInt 1). by vm_compute.
Qed.

(** C9 (the code fails).  From the core {1, 2, 3}, where atom 3 has no
    bond, the first step yields {1, 2}: no new atom, yet the loop goes on
    and the result is the subgraph on {1, 2}. *)
Theorem get_environment_goes_on_without_new_atoms :
  MoleculeContainer.environment_nodes c9_graph [1; 2; 3] 5
    = [{[1; 2; 3]}; {[1; 2]}] ∧
  ({[1; 2]} : gset Z) ⊆ {[1; 2; 3]} ∧
  match MoleculeContainer.get_environment c9_graph [1; 2; 3] false 5 with
  | inr sub => nodes_of sub = [1; 2]
  | inl _ => False
  end.
Proof. split_and!; [by vm_compute|set_solver|by vm_compute]. Qed.

(** ** The theorems at work on the example entities *)

(** Products with a bonded fragment of their own. *)
Lemma compose_raises_on_stereo_witness :
  CGRcore.compose c2_reagents c2_products_fragment = Raise AttributeError.
Proof.
  apply (compose_raises_on_stereo c2_reagents c2_products_fragment).
  - apply wf_intro. vm_compute. reflexivity.
  - right. right. exists 5, 6, {["p_bond" := VInt 1]}.
    split; [by left|]. left. split_and!.
    + vm_compute. right. by left.
    + vm_compute. discriminate.
    + intros u v d Hin. simpl in Hin.
      apply list_elem_of_singleton in Hin. injection Hin as -> -> ->.
      vm_compute. intros [H|H]; discriminate H.
Defined.

(** A molecule with itself; a molecule and a CGR with other atom ids. *)
Lemma union_spec_witness :
  (∃ msg, CGRcore.union c7_left c7_left = Raise (Exception msg)) ∧
  ∃ u, CGRcore.union c7_left c7_right = Ok u ∧
       order u = 4%nat ∧ size u = 2%nat ∧
       edge_get u 3 4 = Some (<["p_bond" := VInt 1]> {["s_bond" := VInt 3]}) ∧
       class_ u = CGR.
Proof.
  assert (wf c7_left) as Hl by (apply wf_intro; vm_compute; reflexivity).
  assert (wf c7_right) as Hr by (apply wf_intro; vm_compute; reflexivity).
  split.
  - apply (union_spec c7_left c7_left). exists 1. split; by left.
  - destruct (proj2 (union_spec c7_left c7_right) Hl Hr)
      as (u & Hu & Ho & Hs & _ & _ & _ & He & Hc).
    + intros n Hn Hn'. vm_compute in Hn, Hn'.
      repeat (apply elem_of_cons in Hn as [-> |Hn]);
        try (by apply elem_of_nil in Hn);
        repeat (apply elem_of_cons in Hn' as [Hn'|Hn']);
        try discriminate Hn'; by apply elem_of_nil in Hn'.
    + exists u. split_and!; try done. by apply He.
Defined.

(** Atom 1 gains a charge; atom 2 and its bond do not change. *)
Lemma get_center_atoms_spec_witness :
  1 ∈ CGRContainer.get_center_atoms c8_cgr ∧
  2 ∉ CGRContainer.get_center_atoms c8_cgr.
Proof.
  assert (wf c8_cgr) as Hwf by (apply wf_intro; vm_compute; reflexivity).
  destruct (get_center_atoms_spec c8_cgr Hwf) as (_ & Hin & Hout). split.
  - by apply (Hin 1 (cgr_atom "N" 0 1 1)).
  - apply (Hout 2 (cgr_atom "C" 0 0 2)); [done..|].
    intros u v d Hb _. simpl in Hb.
    apply list_elem_of_singleton in Hb. injection Hb as _ _ ->. by vm_compute.
Defined.

(** The core {1, 2, 3} of a graph whose atom 3 has no bond. *)
Lemma get_environment_drops_isolated_witness :
  ∃ sub, MoleculeContainer.get_environment c9_graph [1; 2; 3] false 5 = inr sub ∧
         3 ∉ nodes_of sub.
Proof.
  apply (get_environment_drops_isolated c9_graph [1; 2; 3] 5 3 1).
  - right. right. by left.
  - reflexivity.
  - by left.
  - by left.
  - vm_compute. discriminate.
  - lia.
Defined.

(* ===================================================================== *)
(** ** Building an entity: [add_atom], [add_bond], [atom], [bond]          *)
(* ===================================================================== *)

Lemma foldl_max_ge (l : list Z) (a x : Z) :
  x = a ∨ x ∈ l → (x ≤ foldl Z.max a l)%Z.
Proof.
  revert a x. induction l as [|z l IH]; intros a x; cbn.
  - intros [-> | H]; [lia | by apply elem_of_nil in H].
  - intros H.
    assert ((x ≤ Z.max a z)%Z ∨ x ∈ l) as [Hle | Hin].
    { destruct H as [-> | [-> | H]%elem_of_cons]; [left; lia | left; lia | by right]. }
    + pose proof (IH (Z.max a z) (Z.max a z) (or_introl eq_refl)). lia.
    + apply IH. by right.
Qed.

Lemma max_default0_ge (l : list Z) (x : Z) : x ∈ l → (x ≤ max_default0 l)%Z.
Proof.
  destruct l as [|y l]; [by intros ?%elem_of_nil|].
  intros H. cbn. apply foldl_max_ge.
  apply elem_of_cons in H as [-> | H]; [by left | by right].
Qed.

Lemma max_default0_fresh (l : list Z) : (max_default0 l + 1)%Z ∉ l.
Proof. intros H%max_default0_ge. lia. Qed.

Lemma find_joins_fmap u v (f : Z * Z * attrs → Z * Z * attrs) es :
  (∀ e, (f e).1 = e.1) →
  List.find (joins u v) (f <$> es) = f <$> List.find (joins u v) es.
Proof.
  intros Hf. induction es as [|e es IH]; [done|]. cbn.
  assert (joins u v (f e) = joins u v e) as ->.
  { unfold joins. by rewrite Hf. }
  destruct (joins u v e); [done | apply IH].
Qed.

Lemma find_joins_app u v es1 es2 :
  List.find (joins u v) (es1 ++ es2) =
  match List.find (joins u v) es1 with
  | Some e => Some e
  | None => List.find (joins u v) es2
  end.
Proof.
  induction es1 as [|e es1 IH]; [done|]. cbn.
  destruct (joins u v e); [done | apply IH].
Qed.

Lemma find_joins_Some u v es e :
  List.find (joins u v) es = Some e → joins u v e = true.
Proof. intros H. by apply List.find_some in H as [_ H]. Qed.

Lemma find_joins_None u v es :
  existsb (joins u v) es = false → List.find (joins u v) es = None.
Proof.
  induction es as [|e es IH]; [done|]. cbn.
  destruct (joins u v e); [done | apply IH].
Qed.

Lemma find_joins_is_Some u v es :
  existsb (joins u v) es = true → is_Some (List.find (joins u v) es).
Proof.
  induction es as [|e es IH]; [done|]. cbn.
  destruct (joins u v e); [by eexists | apply IH].
Qed.

Lemma joins_key u v x y e :
  ekey u v = ekey x y → joins u v e = joins x y e.
Proof. unfold joins. by intros ->. Qed.

Lemma find_joins_is_Some_eq u v x y es :
  ekey u v = ekey x y →
  List.find (joins u v) es = List.find (joins x y) es.
Proof.
  intros Hk. induction es as [|e es IH]; [done|]. cbn.
  rewrite (joins_key u v x y e Hk). destruct (joins x y e); [done | apply IH].
Qed.

Lemma existsb_joins_key u v x y es :
  ekey u v = ekey x y →
  existsb (joins u v) es = existsb (joins x y) es.
Proof.
  intros Hk. induction es as [|e es IH]; [done|]. cbn.
  by rewrite (joins_key u v x y e Hk), IH.
Qed.

(** The bond between [x] and [y] after [add_edge]: updated or created when
    it is the bond written, untouched otherwise. *)
Lemma edge_get_add_edge g u v a x y :
  edge_get (add_edge g u v a) x y =
  if decide (ekey u v = ekey x y)
  then Some (match edge_get g x y with Some d => update d a | None => a end)
  else edge_get g x y.
Proof.
  unfold add_edge, edge_get.
  set (g1 := if has_node g u then g else with_node g (node g ++ [(u, ∅)])).
  set (g2 := if has_node g1 v then g1 else with_node g1 (node g1 ++ [(v, ∅)])).
  assert (edge g2 = edge g) as He.
  { subst g2 g1. by destruct (has_node g u), (has_node _ v). }
  unfold has_edge. rewrite He.
  destruct (existsb (joins u v) (edge g)) eqn:Hex; cbn [edge with_edge].
  - rewrite find_joins_fmap by (intros e; by destruct (joins u v e)).
    case_decide as Hk.
    + rewrite <- (find_joins_is_Some_eq u v x y) by done.
      apply find_joins_is_Some in Hex as [e He'].
      rewrite He'. cbn. apply find_joins_Some in He' as ->. done.
    + destruct (List.find (joins x y) (edge g)) as [e|] eqn:Hf; [|done].
      cbn. apply find_joins_Some in Hf.
      destruct (joins u v e) eqn:Hj; [|done].
      apply joins_true in Hj, Hf. congruence.
  - rewrite find_joins_app.
    case_decide as Hk.
    + assert (List.find (joins x y) (edge g) = None) as ->.
      { apply find_joins_None. by rewrite <- (existsb_joins_key u v x y). }
      cbn. assert (joins x y (u, v, a) = true) as ->; [by apply joins_true|done].
    + destruct (List.find (joins x y) (edge g)); [done|]. cbn.
      assert (joins x y (u, v, a) = false) as ->; [|done].
      apply not_true_is_false. by intros ?%joins_true.
Qed.

Lemma alookup_adj_in es u v :
  alookup v (adj_in es u) = snd <$> List.find (joins u v) es.
Proof.
  induction es as [|[[a b] d] es IH]; [done|].
  unfold adj_in in *. cbn. unfold incident at 1. cbn.
  destruct (decide (a = u)) as [-> | Hau].
  - cbn. destruct (decide (v = b)) as [-> | Hvb].
    + by rewrite (proj2 (joins_true u b (u, b, d)) eq_refl).
    + assert (joins u v (u, b, d) = false) as ->; [|done].
      apply not_true_is_false. intros H%joins_true. cbn in H.
      apply ekey_inj in H. naive_solver.
  - destruct (decide (b = u)) as [-> | Hbu].
    + cbn. destruct (decide (v = a)) as [-> | Hva].
      * by rewrite (proj2 (joins_true u a (a, u, d)) (ekey_comm a u)).
      * assert (joins u v (a, u, d) = false) as ->; [|done].
        apply not_true_is_false. intros H%joins_true. cbn in H.
        apply ekey_inj in H. naive_solver.
    + assert (joins u v (a, b, d) = false) as ->; [|done].
      apply not_true_is_false. intros H%joins_true. cbn in H.
      apply ekey_inj in H. naive_solver.
Qed.

(** [bond] reads the bond store: the data of the bond between the two
    atoms, whichever end comes first. *)
Lemma bond_edge_get g u v :
  MoleculeContainer.bond g u v =
  if has_node g u then edge_attrs g u v else Raise KeyError.
Proof.
  unfold MoleculeContainer.bond, edge_attrs, edge_get, adj.
  by rewrite alookup_adj_in.
Qed.

Lemma edge_get_comm g u v : edge_get g u v = edge_get g v u.
Proof.
  unfold edge_get. by rewrite (find_joins_is_Some_eq u v v u) by apply ekey_comm.
Qed.

Lemma alookup_snoc_fresh {V} (l : list (Z * V)) m (a : V) n :
  m ∉ l.*1 →
  alookup n (l ++ [(m, a)]) = if decide (n = m) then Some a else alookup n l.
Proof.
  intros Hm. rewrite alookup_app. cbn.
  case_decide as Hn; [subst n|].
  - by rewrite (proj2 (alookup_None m l) Hm).
  - by destruct (alookup n l).
Qed.

(** X1: [add_atom] never overwrites.  It raises only when the requested id
    is taken; otherwise it appends one atom under an id the entity did not
    hold, with the record of its arguments, and touches nothing else: the
    new atom reads back through [atom], every other atom reads as before,
    the bonds are the same. *)
Theorem add_atom_appends (self : Graph) (element s_charge : value)
    (_map : option Z) (mark x y z : value) :
  match MoleculeContainer.add_atom self element s_charge _map mark x y z with
  | Raise e =>
      e = Exception "mapping exists" ∧
      ∃ m, _map = Some m ∧ m ∈ nodes_of self
  | Ok g' =>
      ∃ m, (m ∉ nodes_of self) ∧ (∀ k, _map = Some k → m = k) ∧
        node g' = node self ++ [(m, molecule_record element s_charge mark x y z m)] ∧
        edge g' = edge self ∧
        MoleculeContainer.atom g' m =
          Ok (molecule_record element s_charge mark x y z m) ∧
        (∀ n, n ≠ m → MoleculeContainer.atom g' n = MoleculeContainer.atom self n) ∧
        MoleculeContainer.atoms_count g' = S (MoleculeContainer.atoms_count self) ∧
        MoleculeContainer.bonds_count g' = MoleculeContainer.bonds_count self
  end.
Proof.
  unfold MoleculeContainer.add_atom.
  assert (∀ m, m ∉ nodes_of self →
    let g' := add_node self m (molecule_record element s_charge mark x y z m) in
    node g' = node self ++ [(m, molecule_record element s_charge mark x y z m)] ∧
    edge g' = edge self ∧
    MoleculeContainer.atom g' m =
      Ok (molecule_record element s_charge mark x y z m) ∧
    (∀ n, n ≠ m → MoleculeContainer.atom g' n = MoleculeContainer.atom self n) ∧
    MoleculeContainer.atoms_count g' = S (MoleculeContainer.atoms_count self) ∧
    MoleculeContainer.bonds_count g' = MoleculeContainer.bonds_count self) as Hadd.
  { intros m Hm g'. subst g'. rewrite add_node_fresh by done.
    unfold MoleculeContainer.atom, node_attrs, node_get,
      MoleculeContainer.atoms_count, MoleculeContainer.bonds_count, order, size.
    cbn [node edge with_node].
    split_and!; try done.
    - rewrite alookup_snoc_fresh by done. by rewrite decide_True.
    - intros n Hn. rewrite alookup_snoc_fresh by done. by rewrite decide_False.
    - rewrite length_app. cbn. lia. }
  destruct _map as [m|]; cbn.
  - destruct (has_node self m) eqn:Hn; cbn.
    + split; [done|]. exists m. split; [done|]. by apply has_node_true.
    + apply has_node_false in Hn. exists m. split; [done|].
      split; [by intros k [= ->]|]. by apply Hadd.
  - exists (max_default0 (nodes_of self) + 1)%Z.
    split; [apply max_default0_fresh|]. split; [done|].
    apply Hadd, max_default0_fresh.
Qed.

(** X2: without a requested id [add_atom] always succeeds, and numbers
    the new atom one above the largest id in use (1 in an empty entity),
    so the id is larger than every id the entity holds. *)
Theorem add_atom_next_id (self : Graph) (element s_charge mark x y z : value) :
  ∃ g', MoleculeContainer.add_atom self element s_charge None mark x y z = Ok g' ∧
        nodes_of g' = nodes_of self ++ [(max_default0 (nodes_of self) + 1)%Z] ∧
        (∀ n, n ∈ nodes_of self → (n < max_default0 (nodes_of self) + 1)%Z) ∧
        (nodes_of self = [] → nodes_of g' = [1%Z]).
Proof.
  unfold MoleculeContainer.add_atom. cbn.
  eexists. split; [done|].
  rewrite add_node_fresh by apply max_default0_fresh.
  unfold nodes_of. cbn [node with_node]. rewrite fmap_app. cbn.
  split_and!; [done| |].
  - intros n Hn%max_default0_ge. lia.
  - intros H. unfold nodes_of in H. by rewrite H.
Qed.

Lemma cgr_add_atom_Ok self element s_charge p_charge _map mark
    s_x s_y s_z p_x p_y p_z g' :
  CGRContainer.add_atom self element s_charge p_charge _map mark
                        s_x s_y s_z p_x p_y p_z = Ok g' →
  ∃ m, (m ∉ nodes_of self) ∧ (∀ k, _map = Some k → m = k) ∧
    g' = with_node self
           (node self ++
            [(m, cgr_record element s_charge (or_default p_charge s_charge) mark
                   s_x s_y s_z (or_default p_x s_x) (or_default p_y s_y)
                   (or_default p_z s_z) m)]).
Proof.
  unfold CGRContainer.add_atom. destruct _map as [m|]; cbn.
  - destruct (has_node self m) eqn:Hn; cbn; [done|].
    apply has_node_false in Hn. intros [= <-]. exists m.
    split; [done|]. split; [by intros k [= ->]|].
    by rewrite add_node_fresh.
  - intros [= <-]. exists (max_default0 (nodes_of self) + 1)%Z.
    split; [apply max_default0_fresh|]. split; [done|].
    by rewrite add_node_fresh by apply max_default0_fresh.
Qed.

(** X3: a new atom of a CGR and the reaction centre.  [add_atom] appends
    one atom and leaves the bonds alone; the product-side charge and
    coordinates default to the reagent side.  The centre of the other atoms
    is unchanged, and the new atom belongs to the centre exactly when a
    product-side charge is given and differs from the reagent-side one. *)
Theorem cgr_add_atom_center (self : Graph) (element s_charge p_charge : value)
    (_map : option Z) (mark s_x s_y s_z p_x p_y p_z : value) (g' : Graph) :
  wf self →
  CGRContainer.add_atom self element s_charge p_charge _map mark
                        s_x s_y s_z p_x p_y p_z = Ok g' →
  ∃ m, (m ∉ nodes_of self) ∧
    node g' = node self ++
      [(m, cgr_record element s_charge (or_default p_charge s_charge) mark
             s_x s_y s_z (or_default p_x s_x) (or_default p_y s_y)
             (or_default p_z s_z) m)] ∧
    edge g' = edge self ∧
    (∀ x, x ≠ m → x ∈ CGRContainer.get_center_atoms g' ↔
                   x ∈ CGRContainer.get_center_atoms self) ∧
    (m ∈ CGRContainer.get_center_atoms g' ↔
       p_charge ≠ VNone ∧ p_charge ≠ s_charge).
Proof.
  intros Hwf Hadd.
  pose proof (wf_cgr_add_atom _ _ _ _ _ _ _ _ _ _ _ _ _ Hwf Hadd) as Hwf'.
  apply cgr_add_atom_Ok in Hadd as (m & Hm & _ & ->).
  exists m. split; [done|]. split; [done|]. split; [done|].
  unfold CGRContainer.get_center_atoms.
  assert (∀ x, node_get (with_node self (node self ++
      [(m, cgr_record element s_charge (or_default p_charge s_charge) mark
             s_x s_y s_z (or_default p_x s_x) (or_default p_y s_y)
             (or_default p_z s_z) m)])) x =
      if decide (x = m)
      then Some (cgr_record element s_charge (or_default p_charge s_charge) mark
             s_x s_y s_z (or_default p_x s_x) (or_default p_y s_y)
             (or_default p_z s_z) m)
      else node_get self x) as Hget.
  { intros x. unfold node_get. cbn [node with_node].
    by rewrite alookup_snoc_fresh. }
  split.
  - intros x Hx. rewrite !elem_of_elements, !center_nodes_spec by done.
    rewrite Hget, decide_False by done. done.
  - rewrite elem_of_elements, center_nodes_spec by done.
    rewrite Hget, decide_True by done. cbn [edge with_edge with_node].
    split.
    + intros [(a & [= <-] & Hne) | (u & v & d & Hin & _ & Hx)].
      * assert (get (cgr_record element s_charge (or_default p_charge s_charge)
                  mark s_x s_y s_z (or_default p_x s_x) (or_default p_y s_y)
                  (or_default p_z s_z) m) "s_charge" = s_charge) as Hs by done.
        assert (get (cgr_record element s_charge (or_default p_charge s_charge)
                  mark s_x s_y s_z (or_default p_x s_x) (or_default p_y s_y)
                  (or_default p_z s_z) m) "p_charge"
                = or_default p_charge s_charge) as Hp by done.
        rewrite Hs, Hp in Hne. destruct p_charge; cbn in Hne; naive_solver.
      * destruct Hwf as (_ & _ & Hends).
        rewrite Forall_forall in Hends. apply Hends in Hin. cbn in Hin.
        destruct Hin, Hx; by subst.
    + intros [Hp Hps]. left. eexists. split; [done|].
      change (s_charge ≠ or_default p_charge s_charge).
      destruct p_charge; cbn; naive_solver.
Qed.

Lemma add_edge_size g u v a :
  size (add_edge g u v a) =
  if has_edge g u v then size g else S (size g).
Proof.
  unfold add_edge, size.
  set (g1 := if has_node g u then g else with_node g (node g ++ [(u, ∅)])).
  set (g2 := if has_node g1 v then g1 else with_node g1 (node g1 ++ [(v, ∅)])).
  assert (edge g2 = edge g) as He.
  { subst g2 g1. by destruct (has_node g u), (has_node _ v). }
  unfold has_edge. rewrite He.
  destruct (existsb (joins u v) (edge g)); cbn [edge with_edge].
  - by rewrite length_fmap.
  - rewrite length_app. cbn. lia.
Qed.

Lemma bond_same_store g g' u v :
  nodes_of g' = nodes_of g → edge_get g' u v = edge_get g u v →
  MoleculeContainer.bond g' u v = MoleculeContainer.bond g u v.
Proof.
  intros Hn He. rewrite !bond_edge_get. unfold has_node, edge_attrs.
  by rewrite Hn, He.
Qed.

(** X4: [add_bond] of a molecule.  A missing end is reported before a
    missing mark.  When it succeeds the atoms are untouched, the bond reads
    back from both ends with [s_bond] set to the mark and the other data
    of an existing bond kept, every other bond reads as before, and the
    number of bonds grows exactly when the bond is new. *)
Theorem add_bond_spec (self : Graph) (atom1 atom2 : Z) (mark : value) :
  match MoleculeContainer.add_bond self atom1 atom2 mark with
  | Raise e =>
      (e = Exception "atoms not found" ∧
       (atom1 ∉ nodes_of self ∨ atom2 ∉ nodes_of self)) ∨
      (e = Exception "no bond data" ∧
       atom1 ∈ nodes_of self ∧ atom2 ∈ nodes_of self ∧ truthy mark = false)
  | Ok g' =>
      atom1 ∈ nodes_of self ∧ atom2 ∈ nodes_of self ∧ truthy mark = true ∧
      node g' = node self ∧
      MoleculeContainer.bond g' atom1 atom2 =
        Ok (update (default ∅ (edge_get self atom1 atom2))
                   {["s_bond" := mark]}) ∧
      MoleculeContainer.bond g' atom2 atom1 =
        MoleculeContainer.bond g' atom1 atom2 ∧
      (∀ u v, ekey u v ≠ ekey atom1 atom2 →
              MoleculeContainer.bond g' u v = MoleculeContainer.bond self u v) ∧
      MoleculeContainer.bonds_count g' =
        if has_edge self atom1 atom2
        then MoleculeContainer.bonds_count self
        else S (MoleculeContainer.bonds_count self)
  end.
Proof.
  unfold MoleculeContainer.add_bond.
  destruct (has_node self atom1) eqn:H1; cbn;
    [|left; split; [done|]; left; by apply has_node_false].
  destruct (has_node self atom2) eqn:H2; cbn;
    [|left; split; [done|]; right; by apply has_node_false].
  apply has_node_true in H1, H2.
  destruct (truthy mark) eqn:Hm; cbn; [|by right].
  pose proof (add_edge_node self atom1 atom2 {["s_bond" := mark]} H1 H2) as Hn.
  assert (∀ x, has_node (add_edge self atom1 atom2 {["s_bond" := mark]}) x
               = has_node self x) as Hhas.
  { intros x. unfold has_node, nodes_of. by rewrite Hn. }
  assert (MoleculeContainer.bond
            (add_edge self atom1 atom2 {["s_bond" := mark]}) atom1 atom2 =
          Ok (update (default ∅ (edge_get self atom1 atom2))
                     {["s_bond" := mark]})) as Hb.
  { rewrite bond_edge_get, Hhas, (proj2 (has_node_true _ _) H1).
    unfold edge_attrs. rewrite edge_get_add_edge, decide_True by done.
    destruct (edge_get self atom1 atom2); cbn; [done|].
    unfold update. by rewrite (right_id_L ∅ (∪)). }
  split_and!; try done.
  - rewrite Hb, bond_edge_get, Hhas, (proj2 (has_node_true _ _) H2).
    unfold edge_attrs. rewrite (edge_get_comm _ atom2 atom1).
    rewrite edge_get_add_edge, decide_True by done.
    destruct (edge_get self atom1 atom2); cbn; [done|].
    unfold update. by rewrite (right_id_L ∅ (∪)).
  - intros u v Hk. apply bond_same_store; [unfold nodes_of; by rewrite Hn|].
    rewrite edge_get_add_edge, decide_False; [done | congruence].
  - unfold MoleculeContainer.bonds_count. apply add_edge_size.
Qed.

Lemma cgr_add_bond_Ok self atom1 atom2 s_mark p_mark :
  atom1 ∈ nodes_of self → atom2 ∈ nodes_of self →
  truthy s_mark = true ∨ truthy p_mark = true →
  CGRContainer.add_bond self atom1 atom2 s_mark p_mark =
  Ok (add_edge self atom1 atom2
        ((if truthy p_mark then {["p_bond" := p_mark]} else ∅) ∪
         (if truthy s_mark then {["s_bond" := s_mark]} else ∅))).
Proof.
  intros H1%has_node_true H2%has_node_true Hm.
  unfold CGRContainer.add_bond. rewrite H1, H2. cbn.
  destruct (truthy s_mark) eqn:Hs, (truthy p_mark) eqn:Hp; cbn.
  - rewrite bool_decide_eq_false_2 by apply insert_non_empty.
    by rewrite insert_union_singleton_l.
  - rewrite bool_decide_eq_false_2 by apply map_non_empty_singleton.
    by rewrite (left_id_L ∅ (∪)).
  - rewrite bool_decide_eq_false_2 by apply insert_non_empty.
    by rewrite insert_empty, (right_id_L ∅ (∪)).
  - by destruct Hm.
Qed.

(** X5: [add_bond] of a CGR.  With both marks false it raises; a call
    that gives one side only keeps the other side's mark of an existing
    bond; and writing the reagent-side mark and the product-side mark in
    two calls leaves the same atoms and the same bonds as writing both in
    one call. *)
Theorem cgr_add_bond_sides (self : Graph) (atom1 atom2 : Z)
    (s_mark p_mark : value) :
  atom1 ∈ nodes_of self → atom2 ∈ nodes_of self →
  truthy s_mark = true → truthy p_mark = true →
  CGRContainer.add_bond self atom1 atom2 VNone VNone =
    Raise (Exception "no bonds data") ∧
  ∃ g1 g2 g12,
    CGRContainer.add_bond self atom1 atom2 s_mark VNone = Ok g1 ∧
    CGRContainer.add_bond g1 atom1 atom2 VNone p_mark = Ok g2 ∧
    CGRContainer.add_bond self atom1 atom2 s_mark p_mark = Ok g12 ∧
    (∀ d, edge_get self atom1 atom2 = Some d →
          ∃ d1, MoleculeContainer.bond g1 atom1 atom2 = Ok d1 ∧
                d1 !! "s_bond" = Some s_mark ∧ d1 !! "p_bond" = d !! "p_bond") ∧
    (∃ d2, MoleculeContainer.bond g2 atom1 atom2 = Ok d2 ∧
           d2 !! "s_bond" = Some s_mark ∧ d2 !! "p_bond" = Some p_mark) ∧
    node g2 = node g12 ∧
    (∀ u v, MoleculeContainer.bond g2 u v = MoleculeContainer.bond g12 u v).
Proof.
  intros H1 H2 Hs Hp. split.
  { unfold CGRContainer.add_bond.
    apply has_node_true in H1, H2. by rewrite H1, H2. }
  pose proof (add_edge_node self atom1 atom2) as Hn.
  rewrite !cgr_add_bond_Ok by (done || (unfold nodes_of; by rewrite ?Hn) || auto).
  eexists _, _, _. split; [done|].
  assert (∀ a, nodes_of (add_edge self atom1 atom2 a) = nodes_of self) as Hns.
  { intros a. unfold nodes_of. by rewrite Hn. }
  assert (∀ a a', node (add_edge (add_edge self atom1 atom2 a) atom1 atom2 a')
                  = node self) as Hn2.
  { intros a a'. rewrite add_edge_node by (by rewrite Hns). by apply Hn. }
  assert (∀ a a', nodes_of (add_edge (add_edge self atom1 atom2 a) atom1 atom2 a')
                  = nodes_of self) as Hns2.
  { intros a a'. unfold nodes_of. by rewrite Hn2. }
  rewrite cgr_add_bond_Ok by (by rewrite ?Hns || auto).
  split; [done|]. split; [done|].
  rewrite Hs, Hp. cbn [truthy].
  rewrite !(left_id_L ∅ (∪)), !(right_id_L ∅ (∪)).
  assert (∀ g x, nodes_of g = nodes_of self → x ∈ nodes_of self →
                 has_node g x = true) as Hhas.
  { intros g x Hg Hx. apply has_node_true. by rewrite Hg. }
  split_and!.
  - intros d Hd. eexists. rewrite bond_edge_get, Hhas by done.
    unfold edge_attrs. rewrite edge_get_add_edge, decide_True, Hd by done.
    split; [done|]. unfold update. split.
    + apply lookup_union_Some_l, lookup_singleton_eq.
    + rewrite lookup_union_r; [done|]. by apply lookup_singleton_ne.
  - eexists. rewrite bond_edge_get, Hhas by done.
    unfold edge_attrs. rewrite !edge_get_add_edge, !decide_True by done.
    split; [done|]. unfold update. split.
    + rewrite lookup_union_r by (by apply lookup_singleton_ne).
      destruct (edge_get self atom1 atom2);
        [apply lookup_union_Some_l|]; apply lookup_singleton_eq.
    + apply lookup_union_Some_l, lookup_singleton_eq.
  - by rewrite Hn2, Hn.
  - intros u v. apply bond_same_store; [by rewrite Hns2, Hns|].
    rewrite !edge_get_add_edge. case_decide; [|done].
    f_equal. unfold update.
    destruct (edge_get self u v); [by rewrite (assoc_L (∪))|done].
Qed.

(* ===================================================================== *)
(** ** Invariants of built entities                                       *)
(* ===================================================================== *)

Lemma elem_of_edge_add_edge g u v a x y d :
  (x, y, d) ∈ edge (add_edge g u v a) →
  (x, y, d) ∈ edge g ∨
  (∃ d0, (x, y, d0) ∈ edge g ∧ d = update d0 a) ∨
  (x, y, d) = (u, v, a).
Proof.
  unfold add_edge.
  set (g1 := if has_node g u then g else with_node g (node g ++ [(u, ∅)])).
  set (g2 := if has_node g1 v then g1 else with_node g1 (node g1 ++ [(v, ∅)])).
  assert (edge g2 = edge g) as He.
  { subst g2 g1. by destruct (has_node g u), (has_node _ v). }
  destruct (has_edge g2 u v); cbn [edge with_edge]; rewrite He.
  - intros ([[x' y'] d0] & Heq & Hin)%list_elem_of_fmap.
    destruct (joins u v (x', y', d0)); cbn in Heq.
    + injection Heq as -> -> ->. right. left. by exists d0.
    + injection Heq as -> -> ->. by left.
  - intros [H | H%list_elem_of_singleton]%elem_of_app; [by left | by right; right].
Qed.

Lemma molecule_add_atom_Ok self element s_charge _map mark x y z g' :
  MoleculeContainer.add_atom self element s_charge _map mark x y z = Ok g' →
  ∃ m, (m ∉ nodes_of self) ∧
       g' = with_node self
              (node self ++ [(m, molecule_record element s_charge mark x y z m)]).
Proof.
  unfold MoleculeContainer.add_atom. destruct _map as [m|]; cbn.
  - destruct (has_node self m) eqn:Hn; cbn; [done|].
    apply has_node_false in Hn. intros [= <-]. exists m.
    split; [done|]. by rewrite add_node_fresh.
  - intros [= <-]. exists (max_default0 (nodes_of self) + 1)%Z.
    split; [apply max_default0_fresh|].
    by rewrite add_node_fresh by apply max_default0_fresh.
Qed.

Lemma molecule_add_bond_Ok self atom1 atom2 mark g' :
  MoleculeContainer.add_bond self atom1 atom2 mark = Ok g' →
  atom1 ∈ nodes_of self ∧ atom2 ∈ nodes_of self ∧ truthy mark = true ∧
  g' = add_edge self atom1 atom2 {["s_bond" := mark]}.
Proof.
  unfold MoleculeContainer.add_bond.
  destruct (has_node self atom1) eqn:H1; cbn; [|done].
  destruct (has_node self atom2) eqn:H2; cbn; [|done].
  destruct (truthy mark) eqn:Hm; cbn; [|done].
  intros [= <-]. by apply has_node_true in H1, H2.
Qed.

Lemma cgr_add_bond_inv self atom1 atom2 s_mark p_mark g' :
  CGRContainer.add_bond self atom1 atom2 s_mark p_mark = Ok g' →
  atom1 ∈ nodes_of self ∧ atom2 ∈ nodes_of self ∧
  (truthy s_mark = true ∨ truthy p_mark = true) ∧
  g' = add_edge self atom1 atom2
         ((if truthy p_mark then {["p_bond" := p_mark]} else ∅) ∪
          (if truthy s_mark then {["s_bond" := s_mark]} else ∅)).
Proof.
  intros H.
  assert (atom1 ∈ nodes_of self ∧ atom2 ∈ nodes_of self) as [H1 H2].
  { unfold CGRContainer.add_bond in H.
    destruct (has_node self atom1) eqn:H1; cbn in H; [|done].
    destruct (has_node self atom2) eqn:H2; cbn in H; [|done].
    by apply has_node_true in H1, H2. }
  assert (truthy s_mark = true ∨ truthy p_mark = true) as Hm.
  { unfold CGRContainer.add_bond in H.
    apply has_node_true in H1, H2. rewrite H1, H2 in H. cbn in H.
    destruct (truthy s_mark), (truthy p_mark); auto.
    by rewrite bool_decide_eq_true_2 in H. }
  rewrite cgr_add_bond_Ok in H by done. injection H as <-. done.
Qed.

Lemma atoms_recorded_snoc g m a :
  m ∉ nodes_of g → a !! "map" = Some (VInt m) → is_Some (a !! "element") →
  atoms_recorded g → atoms_recorded (with_node g (node g ++ [(m, a)])).
Proof.
  intros Hm Hmap Hel Hg n b. unfold node_get. cbn [node with_node].
  rewrite alookup_snoc_fresh by done.
  case_decide; [by intros [= <-]; subst | apply Hg].
Qed.

Lemma atoms_recorded_add_edge g u v a :
  u ∈ nodes_of g → v ∈ nodes_of g →
  atoms_recorded g → atoms_recorded (add_edge g u v a).
Proof.
  intros Hu Hv Hg n b. unfold node_get. rewrite add_edge_node by done. apply Hg.
Qed.

Lemma bonds_marked_add_edge g u v a :
  (∀ d, truthy (get d "s_bond") = true ∨ truthy (get d "p_bond") = true →
        truthy (get (update d a) "s_bond") = true ∨
        truthy (get (update d a) "p_bond") = true) →
  truthy (get a "s_bond") = true ∨ truthy (get a "p_bond") = true →
  bonds_marked g → bonds_marked (add_edge g u v a).
Proof.
  intros Hup Ha Hg x y d
    [H | [(d0 & H & ->) | [= -> -> ->]]]%elem_of_edge_add_edge.
  - by eapply Hg.
  - eapply Hup, Hg, H.
  - done.
Qed.

Lemma get_update_new (d a : attrs) k v :
  a !! k = Some v → get (update d a) k = v.
Proof. intros H. unfold get. by rewrite (update_lookup_new d a k v H). Qed.

Lemma marked_update (d a : attrs) :
  is_Some (a !! "s_bond") ∧ truthy (get a "s_bond") = true ∨
  is_Some (a !! "p_bond") ∧ truthy (get a "p_bond") = true →
  truthy (get (update d a) "s_bond") = true ∨
  truthy (get (update d a) "p_bond") = true.
Proof.
  intros [[[v Hv] H] | [[v Hv] H]]; [left | right];
    rewrite (get_update_new d a _ v Hv); unfold get in H; by rewrite Hv in H.
Qed.

Lemma cgr_bond_attr_marked (s_mark p_mark : value) :
  truthy s_mark = true ∨ truthy p_mark = true →
  let a : attrs := (if truthy p_mark then {["p_bond" := p_mark]} else ∅) ∪
                   (if truthy s_mark then {["s_bond" := s_mark]} else ∅) in
  is_Some (a !! "s_bond") ∧ truthy (get a "s_bond") = true ∨
  is_Some (a !! "p_bond") ∧ truthy (get a "p_bond") = true.
Proof.
  intros Hm a. subst a.
  destruct (truthy p_mark) eqn:Hp.
  - right. unfold get.
    rewrite (lookup_union_Some_l _ _ _ p_mark) by apply lookup_singleton_eq.
    by split.
  - destruct Hm as [Hs | ?]; [|done]. rewrite Hs. left. unfold get.
    rewrite (left_id_L ∅ (∪)), lookup_singleton_eq. by split.
Qed.

(** X6: the invariants of an entity built through its own methods.  An
    entity made from an empty container by [add_atom] and [add_bond]
    satisfies the representation invariant of the engine (distinct atom
    ids, one bond per pair of atoms, both ends of a bond are atoms); every
    atom records its own id under [map] and has an element; every bond
    carries a mark, the reagent-side one in a molecule. *)
Theorem built_invariants (g : Graph) :
  built g →
  wf g ∧ atoms_recorded g ∧ bonds_marked g ∧
  (class_ g = Molecule ∨ class_ g = CGR) ∧
  (class_ g = Molecule → s_bonds_marked g).
Proof.
  induction 1 as
    [ m | m
    | g element s_charge _map mark x y z g' Hb IH Hc Hadd
    | g atom1 atom2 mark g' Hb IH Hc Hadd
    | g element s_charge p_charge _map mark s_x s_y s_z p_x p_y p_z g' Hb IH Hc Hadd
    | g atom1 atom2 s_mark p_mark g' Hb IH Hc Hadd ].
  - split_and!; [apply (wf_empty Molecule) | by intros ??? | | by left |].
    + by intros ??? ?%elem_of_nil.
    + by intros _ ??? ?%elem_of_nil.
  - split_and!; [apply (wf_empty CGR) | by intros ??? | | by right |].
    + by intros ??? ?%elem_of_nil.
    + by intros _ ??? ?%elem_of_nil.
  - destruct IH as (Hwf & Hrec & Hmk & Hcl & Hs).
    pose proof (wf_add_atom _ _ _ _ _ _ _ _ _ Hwf Hadd) as Hwf'.
    apply molecule_add_atom_Ok in Hadd as (m & Hm & ->).
    split_and!; [done | by apply atoms_recorded_snoc | done | done | done].
  - destruct IH as (Hwf & Hrec & Hmk & Hcl & Hs).
    pose proof (wf_add_bond _ _ _ _ _ Hwf Hadd) as Hwf'.
    apply molecule_add_bond_Ok in Hadd as (H1 & H2 & Htr & ->).
    assert (class_ (add_edge g atom1 atom2 {["s_bond" := mark]}) = class_ g)
      as Hcl'.
    { unfold add_edge. apply has_node_true in H1, H2. rewrite H1, H2.
      by destruct (has_edge g atom1 atom2). }
    split_and!; [done | by apply atoms_recorded_add_edge | |
                 by rewrite Hcl' |].
    + apply bonds_marked_add_edge; [| |done].
      * intros d _. apply marked_update. left.
        unfold get. rewrite lookup_singleton_eq. by split.
      * left. unfold get. by rewrite lookup_singleton_eq.
    + intros _ u v d
        [H | [(d0 & H & ->) | [= -> -> ->]]]%elem_of_edge_add_edge.
      * by eapply Hs.
      * by rewrite (get_update_new d0 _ _ mark) by apply lookup_singleton_eq.
      * unfold get. by rewrite lookup_singleton_eq.
  - destruct IH as (Hwf & Hrec & Hmk & Hcl & Hs).
    pose proof (wf_cgr_add_atom _ _ _ _ _ _ _ _ _ _ _ _ _ Hwf Hadd) as Hwf'.
    apply cgr_add_atom_Ok in Hadd as (m & Hm & _ & ->).
    split_and!; [done | by apply atoms_recorded_snoc | done | done |].
    cbn. by rewrite Hc.
  - destruct IH as (Hwf & Hrec & Hmk & Hcl & Hs).
    pose proof (wf_cgr_add_bond _ _ _ _ _ _ Hwf Hadd) as Hwf'.
    apply cgr_add_bond_inv in Hadd as (H1 & H2 & Htr & ->).
    match goal with |- context [add_edge g atom1 atom2 ?a] => set (attr := a) end.
    assert (class_ (add_edge g atom1 atom2 attr) = class_ g) as Hcl'.
    { unfold add_edge. apply has_node_true in H1, H2. rewrite H1, H2.
      by destruct (has_edge g atom1 atom2). }
    split_and!; [done | by apply atoms_recorded_add_edge | |
                 by rewrite Hcl' | by rewrite Hcl', Hc].
    pose proof (cgr_bond_attr_marked s_mark p_mark Htr) as Ha. cbn in Ha.
    apply bonds_marked_add_edge; [| |done].
    + intros d _. by apply marked_update.
    + destruct Ha as [[_ ?] | [_ ?]]; [by left | by right].
Qed.

(* ===================================================================== *)
(** ** [copy] and [subgraph]                                              *)
(* ===================================================================== *)

Lemma add_node_rest g n a :
  edge (add_node g n a) = edge g ∧ meta (add_node g n a) = meta g ∧
  class_ (add_node g n a) = class_ g.
Proof. unfold add_node. by destruct (has_node g n). Qed.

Lemma add_nodes_from_rest g l :
  edge (add_nodes_from g l) = edge g ∧ meta (add_nodes_from g l) = meta g ∧
  class_ (add_nodes_from g l) = class_ g.
Proof.
  revert g. induction l as [|[n a] l IH]; intros g; [done|].
  change (add_nodes_from g ((n, a) :: l))
    with (add_nodes_from (add_node g n a) l).
  destruct (IH (add_node g n a)) as (-> & -> & ->). apply add_node_rest.
Qed.

Lemma add_edge_rest g u v a :
  meta (add_edge g u v a) = meta g ∧ class_ (add_edge g u v a) = class_ g.
Proof.
  unfold add_edge.
  by destruct (has_node g u), (has_node _ v), (has_edge _ u v).
Qed.

Lemma add_edges_from_rest g l :
  meta (add_edges_from g l) = meta g ∧ class_ (add_edges_from g l) = class_ g.
Proof.
  revert g. induction l as [|[[u v] a] l IH]; intros g; [done|].
  change (add_edges_from g ((u, v, a) :: l))
    with (add_edges_from (add_edge g u v a) l).
  destruct (IH (add_edge g u v a)) as (-> & ->). apply add_edge_rest.
Qed.

Lemma edge_get_key g u v x y :
  ekey u v = ekey x y → edge_get g u v = edge_get g x y.
Proof. intros Hk. unfold edge_get. by rewrite (find_joins_is_Some_eq u v x y). Qed.

(** Re-adding bonds of [g]: where every bond written, and every bond
    already there, is a bond of [g] with the same data, the result reads
    like [g] on the pairs written. *)
Lemma edge_get_add_edges_from g h l :
  (∀ e : Z * Z * attrs, e ∈ l → edge_get g e.1.1 e.1.2 = Some e.2) →
  (∀ x y d, edge_get h x y = Some d → edge_get g x y = Some d) →
  ∀ x y, edge_get (add_edges_from h l) x y =
         if decide (ekey x y ∈ ekeys l) then edge_get g x y else edge_get h x y.
Proof.
  revert h. induction l as [|[[u v] a] l IH]; intros h Hl Hh x y.
  { cbn. rewrite decide_False; [done | apply not_elem_of_nil]. }
  change (add_edges_from h ((u, v, a) :: l))
    with (add_edges_from (add_edge h u v a) l).
  assert (edge_get g u v = Some a) as Huv.
  { apply (Hl (u, v, a)). by left. }
  assert (∀ x y d, edge_get (add_edge h u v a) x y = Some d →
                   edge_get g x y = Some d) as Hh'.
  { intros x' y' d. rewrite edge_get_add_edge. case_decide as Hk.
    - rewrite <- (edge_get_key g u v x' y' Hk), Huv.
      destruct (edge_get h x' y') as [d0|] eqn:Hd0; [|done].
      apply Hh in Hd0. rewrite <- (edge_get_key g u v x' y' Hk), Huv in Hd0.
      injection Hd0 as <-. unfold update. by rewrite (idemp_L (∪)).
    - apply Hh. }
  rewrite (IH (add_edge h u v a)); [| intros e He; apply Hl; by right | done].
  unfold ekeys. cbn [fmap list_fmap fst snd].
  fold (ekeys l).
  destruct (decide (ekey x y ∈ ekeys l)) as [Hin | Hnin].
  - rewrite decide_True; [done | by right].
  - rewrite edge_get_add_edge. case_decide as Hk.
    + rewrite decide_True by (rewrite Hk; by left).
      rewrite <- (edge_get_key g u v x y Hk), Huv.
      destruct (edge_get h x y) as [d0|] eqn:Hd0; [|done].
      apply Hh in Hd0. rewrite <- (edge_get_key g u v x y Hk), Huv in Hd0.
      injection Hd0 as <-. unfold update. by rewrite (idemp_L (∪)).
    + rewrite decide_False; [done|].
      intros [? | ?]%elem_of_cons; [congruence | done].
Qed.

Lemma edge_get_elem g u v d :
  NoDup (ekeys (edge g)) →
  edge_get g u v = Some d ↔
  ∃ a b, (a, b, d) ∈ edge g ∧ ekey a b = ekey u v.
Proof.
  intros Hnd. rewrite edge_get_Some by done. rewrite list_elem_of_fmap. split.
  - intros ([[a b] d'] & Heq & Hin). apply eq_sym, bond_id_eq in Heq as [Hk Hd].
    cbn in Hk, Hd. subst d'. by exists a, b.
  - intros (a & b & Hin & Hk). exists (a, b, d). split; [|done].
    symmetry. by apply bond_id_eq.
Qed.

(** The engine's copy reads like the original on every pair of atoms. *)
Lemma edge_get_copy g u v : wf g → edge_get (nx.copy g) u v = edge_get g u v.
Proof.
  intros (Hnd & Hk & Hends). unfold nx.copy.
  rewrite (edge_get_add_edges_from g).
  - case_decide as Hin; [done|].
    destruct (edge_get g u v) as [d|] eqn:Hd; [|symmetry].
    + exfalso. apply Hin.
      apply edge_get_elem in Hd as (a & b & Hab & <-); [|done].
      rewrite Forall_forall in Hends. pose proof (Hends _ Hab) as [Ha _].
      unfold ekeys. apply list_elem_of_fmap. exists (a, b, d). split; [done|].
      apply list_elem_of_bind. exists a. split; [|done].
      apply list_elem_of_fmap. exists (b, d). split; [done|].
      apply elem_of_adj_in. exists a, b. split; [done | by left].
    + unfold edge_get.
      by rewrite (proj1 (add_nodes_from_rest (empty PlainGraph) (node g))).
  - intros [[a b] d] (n & Hin & Hn)%list_elem_of_bind.
    apply list_elem_of_fmap in Hin as ([w d'] & [= -> -> ->] & Hadj).
    cbn. apply elem_of_adj_in in Hadj as (x & y & Hxy & Hor).
    apply edge_get_elem; [done|]. exists x, y. split; [done|].
    destruct Hor as [[-> ->] | [-> ->]]; [done | apply ekey_comm].
  - intros x y d. unfold edge_get.
    by rewrite (proj1 (add_nodes_from_rest (empty PlainGraph) (node g))).
Qed.

Lemma wf_copy g : wf g → wf (nx.copy g).
Proof.
  intros _. unfold nx.copy.
  apply wf_add_edges_from, wf_add_nodes_from, wf_empty.
Qed.

Lemma NoDup_bond_ids es : NoDup (ekeys es) → NoDup (bond_id <$> es).
Proof. rewrite ekeys_bond_id. apply NoDup_fmap_1. Qed.

(** Two bond stores that read alike hold the same bonds. *)
Lemma bond_ids_same g g' :
  NoDup (ekeys (edge g)) → NoDup (ekeys (edge g')) →
  (∀ u v, edge_get g' u v = edge_get g u v) →
  bond_id <$> edge g' ≡ₚ bond_id <$> edge g.
Proof.
  intros Hg Hg' Heq.
  apply NoDup_Permutation; [by apply NoDup_bond_ids | by apply NoDup_bond_ids |].
  assert (∀ h, (∀ x, x ∈ bond_id <$> edge h →
                     ∃ u v, x = (ekey u v, x.2))) as Hshape.
  { intros h x ([[a b] d] & -> & _)%list_elem_of_fmap. by exists a, b. }
  intros x. split; intros Hx.
  - destruct (Hshape _ _ Hx) as (u & v & Hxe). rewrite Hxe in Hx |- *.
    apply edge_get_Some in Hx; [|done]. apply edge_get_Some; [done|].
    by rewrite <- Heq.
  - destruct (Hshape _ _ Hx) as (u & v & Hxe). rewrite Hxe in Hx |- *.
    apply edge_get_Some in Hx; [|done]. apply edge_get_Some; [done|].
    by rewrite Heq.
Qed.

Lemma copy_faithful_parts g :
  wf g →
  wf (MoleculeContainer.copy g) ∧
  class_ (MoleculeContainer.copy g) = class_ g ∧
  meta (MoleculeContainer.copy g) = meta g ∧
  node (MoleculeContainer.copy g) = node g ∧
  (∀ u v, edge_get (MoleculeContainer.copy g) u v = edge_get g u v).
Proof.
  intros Hwf. split_and!.
  - exact (wf_copy g Hwf).
  - done.
  - unfold MoleculeContainer.copy. cbn [meta with_meta with_class].
    unfold nx.copy.
    rewrite (proj1 (add_edges_from_rest _ _)).
    rewrite (proj1 (proj2 (add_nodes_from_rest _ _))). cbn.
    unfold update. by rewrite (right_id_L ∅ (∪)).
  - exact (copy_node g Hwf).
  - intros u v. exact (edge_get_copy g u v Hwf).
Qed.

(** X7: [copy] is faithful.  The copy of an entity has the class, the
    meta data, the atoms with their data, in the same order, and the bonds
    with their data of the original (the bonds possibly in another order
    and seen from the other end); it satisfies the invariant, and [atom]
    and [bond] read the same on both. *)
Theorem copy_faithful (g : Graph) :
  wf g →
  wf (MoleculeContainer.copy g) ∧
  class_ (MoleculeContainer.copy g) = class_ g ∧
  meta (MoleculeContainer.copy g) = meta g ∧
  node (MoleculeContainer.copy g) = node g ∧
  bond_id <$> edge (MoleculeContainer.copy g) ≡ₚ bond_id <$> edge g ∧
  (∀ n, MoleculeContainer.atom (MoleculeContainer.copy g) n =
        MoleculeContainer.atom g n) ∧
  (∀ u v, MoleculeContainer.bond (MoleculeContainer.copy g) u v =
          MoleculeContainer.bond g u v) ∧
  MoleculeContainer.atoms_count (MoleculeContainer.copy g) =
    MoleculeContainer.atoms_count g ∧
  MoleculeContainer.bonds_count (MoleculeContainer.copy g) =
    MoleculeContainer.bonds_count g.
Proof.
  intros Hwf.
  pose proof (wf_copy g Hwf) as Hwfc.
  pose proof (copy_node g Hwf) as Hn.
  pose proof (λ u v, edge_get_copy g u v Hwf) as He.
  assert (node (MoleculeContainer.copy g) = node g) as Hn' by done.
  assert (edge (MoleculeContainer.copy g) = edge (nx.copy g)) as He' by done.
  assert (bond_id <$> edge (nx.copy g) ≡ₚ bond_id <$> edge g) as Hp.
  { apply bond_ids_same; [apply Hwf | apply Hwfc | done]. }
  split_and!.
  - exact Hwfc.
  - done.
  - unfold MoleculeContainer.copy. cbn [meta with_meta with_class].
    unfold nx.copy.
    rewrite (proj1 (add_edges_from_rest _ _)).
    rewrite (proj1 (proj2 (add_nodes_from_rest _ _))). cbn.
    unfold update. by rewrite (right_id_L ∅ (∪)).
  - done.
  - by rewrite He'.
  - intros n. unfold MoleculeContainer.atom, node_attrs, node_get.
    by rewrite Hn'.
  - intros u v. apply bond_same_store; [unfold nodes_of; by rewrite Hn'|].
    apply He.
  - unfold MoleculeContainer.atoms_count, order. by rewrite Hn'.
  - unfold MoleculeContainer.bonds_count, size. rewrite He'.
    apply Permutation_length in Hp. by rewrite !length_fmap in Hp.
Qed.

Lemma nodes_of_induced g (S : gset Z) x :
  x ∈ nodes_of (induced g S) ↔ x ∈ S ∧ x ∈ nodes_of g.
Proof.
  unfold nodes_of, induced. cbn [node]. rewrite !list_elem_of_fmap. split.
  - intros ([n a] & -> & [HS Hin]%list_elem_of_filter). split; [done|].
    by exists (n, a).
  - intros (HS & [n a] & -> & Hin). exists (n, a). split; [done|].
    by apply list_elem_of_filter.
Qed.

Lemma wf_induced g (S : gset Z) : wf g → wf (induced g S).
Proof.
  intros (Hnd & Hk & Hends). split_and!.
  - eapply sublist_NoDup; [exact Hnd|].
    unfold nodes_of, induced. cbn [node]. apply fmap_sublist, sublist_filter.
  - eapply sublist_NoDup; [exact Hk|].
    unfold ekeys, induced. cbn [edge]. apply fmap_sublist, sublist_filter.
  - rewrite Forall_forall in Hends |- *.
    intros e [[H1 H2] Hin]%list_elem_of_filter.
    rewrite !nodes_of_induced. destruct (Hends e Hin). done.
Qed.

Lemma alookup_filter {V} (S : gset Z) (l : list (Z * V)) n :
  alookup n (filter (λ na : Z * V, na.1 ∈ S) l) =
  if decide (n ∈ S) then alookup n l else None.
Proof.
  induction l as [|[k v] l IH]; [by case_decide|].
  rewrite filter_cons. cbn [fst].
  destruct (decide (k ∈ S)) as [Hk | Hk]; cbn [alookup].
  - destruct (decide (n = k)) as [-> | Hn]; [by rewrite decide_True | done].
  - rewrite IH. destruct (decide (n = k)) as [-> | Hn]; [|done].
    destruct (decide (k ∈ S)); done.
Qed.

Lemma edge_get_induced g (S : gset Z) u v :
  edge_get (induced g S) u v =
  if decide (u ∈ S ∧ v ∈ S) then edge_get g u v else None.
Proof.
  unfold edge_get, induced. cbn [edge].
  induction (edge g) as [|[[a b] d] es IH]; [by case_decide|].
  assert (joins u v (a, b, d) = true → (a ∈ S ∧ b ∈ S ↔ u ∈ S ∧ v ∈ S)) as Hj.
  { intros H%joins_true. cbn in H. apply ekey_inj in H. naive_solver. }
  rewrite filter_cons. cbn [fst snd].
  destruct (decide (a ∈ S ∧ b ∈ S)) as [HQ | HQ]; cbn [List.find].
  - destruct (joins u v (a, b, d)) eqn:Hjo; [|apply IH].
    specialize (Hj eq_refl). repeat case_decide; try done; exfalso; naive_solver.
  - rewrite IH. destruct (joins u v (a, b, d)) eqn:Hjo; [|done].
    specialize (Hj eq_refl). repeat case_decide; try done; exfalso; naive_solver.
Qed.


(* ===================================================================== *)
(** ** Serialization of a molecule and back                               *)
(* ===================================================================== *)

Lemma option_eq_Some {A} (o1 o2 : option A) :
  (∀ d, o1 = Some d ↔ o2 = Some d) → o1 = o2.
Proof.
  intros H. destruct o1 as [a|], o2 as [b|]; [| | |done].
  - by apply H.
  - by pose proof (proj1 (H a) eq_refl).
  - by pose proof (proj2 (H b) eq_refl).
Qed.

(** Bond stores that hold the same bonds read alike. *)
Lemma edge_get_perm g g' :
  NoDup (ekeys (edge g)) →
  bond_id <$> edge g' ≡ₚ bond_id <$> edge g →
  ∀ u v, edge_get g' u v = edge_get g u v.
Proof.
  intros Hnd Hp u v.
  assert (NoDup (ekeys (edge g'))) as Hnd'.
  { rewrite !ekeys_bond_id in *. by rewrite Hp. }
  apply option_eq_Some. intros d.
  rewrite !edge_get_Some by done. by rewrite Hp.
Qed.

Lemma find_fmap_data (f : attrs → attrs) u v es :
  snd <$> List.find (joins u v) ((λ e : Z * Z * attrs, (e.1, f e.2)) <$> es) =
  f <$> (snd <$> List.find (joins u v) es).
Proof.
  rewrite find_joins_fmap by done. by destruct (List.find (joins u v) es).
Qed.

Lemma alookup_fmap_data {V W} (f : V → W) n (l : list (Z * V)) :
  alookup n ((λ na : Z * V, (na.1, f na.2)) <$> l) = f <$> alookup n l.
Proof.
  induction l as [|[k v] l IH]; [done|]. cbn. by case_decide.
Qed.

Lemma alookup_renewed_nodes ns f l n :
  alookup n (renewed_nodes ns f l) =
  (if decide (n ∈ ns) then f else id) <$> alookup n l.
Proof.
  unfold renewed_nodes. induction l as [|[k v] l IH]; [done|].
  cbn [fmap list_fmap fst snd].
  destruct (decide (k ∈ ns)) as [Hk | Hk]; cbn [alookup];
    (destruct (decide (n = k)) as [-> | Hn]; [|exact IH]).
  - by rewrite decide_True.
  - by rewrite decide_False.
Qed.

Lemma find_renewed_edges ks f es u v :
  snd <$> List.find (joins u v) (renewed_edges ks f es) =
  (if decide (ekey u v ∈ ks) then f else id) <$>
    (snd <$> List.find (joins u v) es).
Proof.
  unfold renewed_edges. induction es as [|[[a b] d] es IH]; [done|].
  cbn [fmap list_fmap fst snd].
  destruct (decide (ekey a b ∈ ks)) as [Hk | Hk]; cbn [List.find].
  - assert (joins u v (a, b, f d) = joins u v (a, b, d)) as -> by done.
    destruct (joins u v (a, b, d)) eqn:Hj; [|exact IH].
    apply joins_true in Hj. cbn in Hj. rewrite <- Hj. by rewrite decide_True.
  - destruct (joins u v (a, b, d)) eqn:Hj; [|exact IH].
    apply joins_true in Hj. cbn in Hj. rewrite <- Hj. by rewrite decide_False.
Qed.

(** What the schema filter keeps is what the normalization reads. *)
Lemma attr_renew_keep_keys a keys marks :
  marks ⊆ keys →
  MoleculeContainer._attr_renew (keep_keys keys a) marks =
  MoleculeContainer._attr_renew a marks.
Proof.
  intros Hsub. apply map_eq. intros k. rewrite !attr_renew_lookup.
  case_decide as Hk; [|done].
  unfold kept, get, keep_keys.
  assert (filter (λ kv : string * value, kv.1 ∈ keys) a !! k = a !! k) as ->;
    [|done].
  apply option_eq_Some. intros v. rewrite map_lookup_filter_Some. cbn.
  split; [by intros [? _] | intros ?; split; [done | by apply Hsub]].
Qed.

Lemma renew_atom_keep a :
  renew_atom (keep_keys MoleculeContainer._node_s a) = renew_atom a.
Proof.
  apply attr_renew_keep_keys. intros k Hk.
  unfold MoleculeContainer._node_s. apply elem_of_app. by left.
Qed.

Lemma renew_bond_keep a :
  renew_bond (keep_keys MoleculeContainer._edge_s a) = renew_bond a.
Proof. by apply attr_renew_keep_keys. Qed.

Lemma keep_nodes_keys keys l : (keep_nodes keys l).*1 = l.*1.
Proof. unfold keep_nodes. rewrite <- list_fmap_compose. by apply list_fmap_ext. Qed.

Lemma keep_edges_ekeys keys l : ekeys (keep_edges keys l) = ekeys l.
Proof.
  unfold ekeys, keep_edges. rewrite <- list_fmap_compose. by apply list_fmap_ext.
Qed.

(** Building a graph from an atom list without repeated ids and a bond
    list without repeated pairs stores the two lists as they are. *)
Lemma rebuild_eq (N : list (Z * attrs)) (E : list (Z * Z * attrs)) :
  NoDup N.*1 → NoDup (ekeys E) →
  Forall (λ e : Z * Z * attrs, e.1.1 ∈ N.*1 ∧ e.1.2 ∈ N.*1) E →
  add_edges_from (add_nodes_from (empty PlainGraph) N) E =
  mkGraph PlainGraph N E ∅.
Proof.
  intros HN HE Hends.
  rewrite (add_nodes_from_fresh (empty PlainGraph) N);
    [|done | intros k _; apply not_elem_of_nil].
  by rewrite add_edges_from_fresh.
Qed.

Lemma wf_rebuilt (N : list (Z * attrs)) (E : list (Z * Z * attrs)) :
  NoDup N.*1 → NoDup (ekeys E) →
  Forall (λ e : Z * Z * attrs, e.1.1 ∈ N.*1 ∧ e.1.2 ∈ N.*1) E →
  ∀ c m, wf (mkGraph c N E m).
Proof. by intros. Qed.

(** The graph [pickle] serializes, and the document it returns. *)
Lemma pickle_eq g :
  wf g →
  pickle g =
  mkNodeLink (keep_nodes (node_schema g) (node g))
    (edges (mkGraph PlainGraph (keep_nodes (node_schema g) (node g))
              (keep_edges (edge_schema g) (edges g None)) ∅) None)
    (meta g) (bool_decide (class_ g ≠ CGR)).
Proof.
  intros Hwf. pose proof Hwf as (Hnd & Hk & Hends).
  assert (∀ nm em,
    add_edges_from (add_nodes_from (empty PlainGraph) (keep_nodes nm (node g)))
                   (keep_edges em (edges g None)) =
    mkGraph PlainGraph (keep_nodes nm (node g))
            (keep_edges em (edges g None)) ∅) as Hre.
  { intros nm em. apply rebuild_eq.
    - by rewrite keep_nodes_keys.
    - by rewrite keep_edges_ekeys, edges_all_ekeys.
    - rewrite keep_nodes_keys. unfold keep_edges. apply Forall_fmap.
      exact (edges_ends_nodes g None Hwf). }
  unfold pickle, node_schema, edge_schema.
  destruct (class_ g);
    fold (keep_nodes MoleculeContainer._node_s (node g));
    fold (keep_edges MoleculeContainer._edge_s (edges g None));
    fold (keep_nodes CGRContainer._node_sp (node g));
    fold (keep_edges CGRContainer._edge_sp (edges g None));
    by rewrite Hre.
Qed.

Lemma wf_pickled g :
  wf g →
  wf (mkGraph PlainGraph (keep_nodes (node_schema g) (node g))
        (keep_edges (edge_schema g) (edges g None)) ∅).
Proof.
  intros Hwf. pose proof Hwf as (Hnd & Hk & Hends). apply wf_rebuilt.
  - by rewrite keep_nodes_keys.
  - by rewrite keep_edges_ekeys, edges_all_ekeys.
  - rewrite keep_nodes_keys. unfold keep_edges. apply Forall_fmap.
    exact (edges_ends_nodes g None Hwf).
Qed.

(** The serialized bonds read like the bonds of the entity, filtered. *)
Lemma pickled_bond g u v :
  wf g →
  snd <$> List.find (joins u v)
    (edges (mkGraph PlainGraph (keep_nodes (node_schema g) (node g))
              (keep_edges (edge_schema g) (edges g None)) ∅) None) =
  keep_keys (edge_schema g) <$> edge_get g u v.
Proof.
  intros Hwf.
  set (G2 := mkGraph PlainGraph _ _ ∅).
  pose proof (wf_pickled g Hwf) as Hwf2. fold G2 in Hwf2.
  change (snd <$> List.find (joins u v) (edges G2 None))
    with (edge_get (with_edge G2 (edges G2 None)) u v).
  rewrite (edge_get_perm G2);
    [| apply Hwf2 | by apply (edges_all_bond_ids G2)].
  unfold edge_get, G2. cbn [edge]. unfold keep_edges.
  rewrite find_fmap_data. f_equal.
  change (snd <$> List.find (joins u v) (edges g None))
    with (edge_get (with_edge g (edges g None)) u v).
  apply edge_get_perm; [apply Hwf | by apply edges_all_bond_ids].
Qed.

Lemma bond_id_keep_edges keys l :
  bond_id <$> keep_edges keys l =
  (λ kd : Z * Z * attrs, (kd.1, keep_keys keys kd.2)) <$> (bond_id <$> l).
Proof.
  unfold keep_edges. rewrite <- !list_fmap_compose. by apply list_fmap_ext.
Qed.

Lemma keep_keys_lookup keys (a : attrs) k :
  is_Some (keep_keys keys a !! k) → k ∈ keys.
Proof.
  intros [v Hv]. unfold keep_keys in Hv.
  by apply map_lookup_filter_Some in Hv as [_ ?].
Qed.

(** X9: what [pickle] writes.  The document lists the atoms of the entity
    in order and one entry per bond, each with the data of the entity cut
    down to the keys of the schema of its class; every other key is
    dropped.  The meta data are passed on, and [s_only] tells a molecule
    from a CGR. *)
Theorem pickle_schema (g : Graph) :
  wf g →
  nl_nodes (pickle g) = keep_nodes (node_schema g) (node g) ∧
  bond_id <$> nl_bonds (pickle g) ≡ₚ
    bond_id <$> keep_edges (edge_schema g) (edge g) ∧
  (∀ n a k, (n, a) ∈ nl_nodes (pickle g) → is_Some (a !! k) →
            k ∈ node_schema g) ∧
  (∀ u v d k, (u, v, d) ∈ nl_bonds (pickle g) → is_Some (d !! k) →
              k ∈ edge_schema g) ∧
  nl_meta (pickle g) = meta g ∧
  nl_s_only (pickle g) = bool_decide (class_ g ≠ CGR).
Proof.
  intros Hwf. rewrite pickle_eq by done. cbn [nl_nodes nl_bonds nl_meta nl_s_only].
  set (G2 := mkGraph PlainGraph _ _ ∅).
  pose proof (wf_pickled g Hwf) as Hwf2. fold G2 in Hwf2.
  assert (bond_id <$> edges G2 None ≡ₚ
          bond_id <$> keep_edges (edge_schema g) (edge g)) as Hp.
  { rewrite (edges_all_bond_ids G2 Hwf2). unfold G2. cbn [edge].
    rewrite !bond_id_keep_edges. by rewrite (edges_all_bond_ids g Hwf). }
  split_and!; try done.
  - intros n a k ([n0 a0] & [= -> ->] & _)%list_elem_of_fmap.
    apply keep_keys_lookup.
  - intros u v d k Hin Hk.
    assert ((ekey u v, d) ∈ bond_id <$> edges G2 None) as Hb.
    { apply list_elem_of_fmap. by exists (u, v, d). }
    rewrite Hp in Hb.
    apply list_elem_of_fmap in Hb as ([[a b] d0] & Heq & Hin0).
    apply list_elem_of_fmap in Hin0 as ([[a1 b1] d1] & [= -> -> ->] & _).
    injection Heq as _ _ ->. by apply keep_keys_lookup in Hk.
Qed.

Lemma renewed_nodes_all f l : renewed_nodes l.*1 f l = map_nodes f l.
Proof.
  unfold renewed_nodes, map_nodes. apply Forall_fmap_ext, Forall_forall.
  intros [n a] Hin. rewrite decide_True; [done|].
  apply list_elem_of_fmap. by exists (n, a).
Qed.

Lemma wf_renewed c c' ns f ks f' N E m m' :
  wf (mkGraph c N E m) →
  wf (mkGraph c' (renewed_nodes ns f N) (renewed_edges ks f' E) m').
Proof.
  unfold wf, nodes_of. cbn [node edge].
  rewrite renewed_nodes_keys, ekeys_renewed.
  intros (? & ? & Hends). split_and!; [done | done |].
  unfold renewed_edges. apply Forall_fmap.
  eapply Forall_impl; [exact Hends|]. intros e He. cbn.
  by case_decide.
Qed.

Lemma find_joins_key u v es e :
  List.find (joins u v) es = Some e → ekey u v ∈ ekeys es.
Proof.
  intros [Hin Hj]%List.find_some. apply joins_true in Hj. rewrite <- Hj.
  unfold ekeys. apply list_elem_of_fmap. exists e. split; [done|].
  by apply list_elem_of_In.
Qed.

(** A molecule serialized and read back: every atom and every bond comes
    back normalized. *)
Lemma unpickle_pickle_molecule g :
  wf g → class_ g ≠ CGR →
  ∃ g', unpickle (pickle g) = Ok g' ∧ wf g' ∧
        class_ g' = Molecule ∧ meta g' = meta g ∧
        node g' = map_nodes renew_atom (node g) ∧
        (∀ u v, edge_get g' u v = renew_bond <$> edge_get g u v).
Proof.
  intros Hwf Hc. pose proof Hwf as (Hnd & Hk & Hends).
  assert (node_schema g = MoleculeContainer._node_s) as Hns.
  { unfold node_schema. by destruct (class_ g). }
  assert (edge_schema g = MoleculeContainer._edge_s) as Hes.
  { unfold edge_schema. by destruct (class_ g). }
  pose proof (wf_pickled g Hwf) as Hwf2.
  pose proof (λ u v, pickled_bond g u v Hwf) as Hbond.
  unfold unpickle. rewrite pickle_eq by done.
  cbn [nl_nodes nl_bonds nl_meta nl_s_only].
  rewrite bool_decide_eq_true_2 by done.
  unfold node_link_graph. cbn [nl_nodes nl_bonds].
  set (N := keep_nodes (node_schema g) (node g)) in *.
  set (G2 := mkGraph PlainGraph N _ ∅) in *.
  set (E := edges G2 None) in *.
  assert (NoDup N.*1) as HN by apply Hwf2.
  assert (NoDup (ekeys E)) as HE.
  { unfold E. rewrite (edges_all_ekeys G2 Hwf2). apply Hwf2. }
  pose proof (edges_ends_nodes G2 None Hwf2) as HEnds. fold E in HEnds.
  rewrite (rebuild_eq N E); [|done | done | exact HEnds].
  change (with_class Molecule (mkGraph PlainGraph N E ∅))
    with (mkGraph Molecule N E ∅).
  assert (wf (mkGraph Molecule N E ∅)) as Hwf0 by by apply wf_rebuilt.
  rewrite fix_data_molecule_eq by done. rewrite res_bind_Ok.
  eexists. split; [done|].
  cbn [class_ node edge meta with_meta bunch].
  change (nodes_of (mkGraph Molecule N E ∅)) with N.*1.
  split_and!.
  - exact (wf_renewed Molecule _ _ _ _ _ _ _ ∅ _ Hwf0).
  - done.
  - unfold update. by rewrite (right_id_L ∅ (∪)).
  - rewrite renewed_nodes_all. unfold N, map_nodes, keep_nodes.
    rewrite <- list_fmap_compose. apply list_fmap_ext. intros i [n a] _.
    unfold compose. cbn [fst snd]. by rewrite Hns, renew_atom_keep.
  - intros u v. unfold edge_get at 1, with_meta. cbn [edge].
    rewrite find_renewed_edges. fold E in Hbond. rewrite Hbond.
    destruct (List.find (joins u v) E) as [e|] eqn:Hf.
    + rewrite decide_True.
      2:{ rewrite (edges_all_ekeys _ Hwf0). cbn [edge].
          by eapply find_joins_key. }
      specialize (Hbond u v). rewrite Hf in Hbond.
      destruct (edge_get g u v) as [d|]; [|done].
      change (Some (renew_bond (keep_keys (edge_schema g) d)) =
              Some (renew_bond d)).
      by rewrite Hes, renew_bond_keep.
    + specialize (Hbond u v). rewrite Hf in Hbond.
      by destruct (edge_get g u v).
Qed.

Lemma ekeys_same g g' :
  NoDup (ekeys (edge g)) → NoDup (ekeys (edge g')) →
  (∀ u v, is_Some (edge_get g' u v) ↔ is_Some (edge_get g u v)) →
  ekeys (edge g') ≡ₚ ekeys (edge g).
Proof.
  intros Hg Hg' Heq. apply NoDup_Permutation; [done | done |].
  assert (∀ h h', (∀ u v, is_Some (edge_get h u v) → is_Some (edge_get h' u v)) →
                  ∀ k, k ∈ ekeys (edge h) → k ∈ ekeys (edge h')) as Hsub.
  { intros h h' Himp k ([[a b] d] & -> & Hin)%list_elem_of_fmap. cbn.
    assert (is_Some (edge_get h a b)) as Hs.
    { apply edge_get_is_Some. apply list_elem_of_fmap. by exists (a, b, d). }
    apply Himp in Hs as [d' Hd']. unfold edge_get in Hd'.
    destruct (List.find (joins a b) (edge h')) as [e|] eqn:Hf; [|done].
    by eapply find_joins_key. }
  intros k. split; apply Hsub; intros u v; by rewrite Heq.
Qed.

Lemma node_get_map_nodes f g g' n :
  node g' = map_nodes f (node g) → node_get g' n = f <$> node_get g n.
Proof.
  intros H. unfold node_get. rewrite H. apply alookup_fmap_data.
Qed.

Lemma map_nodes_keys f l : (map_nodes f l).*1 = l.*1.
Proof. unfold map_nodes. rewrite <- list_fmap_compose. by apply list_fmap_ext. Qed.

(** X10: a molecule serialized with [pickle] and read back with
    [unpickle].  The call succeeds and returns a molecule with the same
    atom ids in the same order, the same bonds and the same meta data.
    Of the data of an atom only the state marks ([s_neighbors], [s_hyb],
    [s_charge], [s_stereo]) that are not [None] come back, of a bond only
    [s_bond] and [s_stereo]; element, isotope, mark and coordinates do
    not. *)
Theorem molecule_round_trip (g : Graph) :
  wf g → class_ g ≠ CGR →
  ∃ g', unpickle (pickle g) = Ok g' ∧ wf g' ∧
    class_ g' = Molecule ∧ meta g' = meta g ∧
    nodes_of g' = nodes_of g ∧
    MoleculeContainer.bonds_count g' = MoleculeContainer.bonds_count g ∧
    (∀ n a, node_get g n = Some a →
       ∃ a', node_get g' n = Some a' ∧
         ∀ k, a' !! k = if decide (k ∈ MoleculeContainer._node_marks)
                        then kept a k else None) ∧
    (∀ u v d, edge_get g u v = Some d →
       ∃ d', edge_get g' u v = Some d' ∧
         ∀ k, d' !! k = if decide (k ∈ MoleculeContainer._edge_marks)
                        then kept d k else None) ∧
    (∀ u v, edge_get g u v = None → edge_get g' u v = None).
Proof.
  intros Hwf Hc.
  destruct (unpickle_pickle_molecule g Hwf Hc)
    as (g' & Hun & Hwf' & Hcl & Hm & Hn & He).
  exists g'. split_and!; try done.
  - unfold nodes_of. by rewrite Hn, map_nodes_keys.
  - unfold MoleculeContainer.bonds_count, size.
    assert (ekeys (edge g') ≡ₚ ekeys (edge g)) as Hp.
    { apply ekeys_same; [apply Hwf | apply Hwf' |].
      intros u v. rewrite He. apply fmap_is_Some. }
    apply Permutation_length in Hp. unfold ekeys in Hp.
    by rewrite !length_fmap in Hp.
  - intros n a Ha. exists (renew_atom a).
    rewrite (node_get_map_nodes renew_atom g g' n Hn), Ha. split; [done|].
    intros k. apply attr_renew_lookup.
  - intros u v d Hd. exists (renew_bond d). rewrite He, Hd. split; [done|].
    intros k. apply attr_renew_lookup.
  - intros u v Hd. by rewrite He, Hd.
Qed.

(** X11: a second round trip changes nothing.  The molecule that comes
    back from [unpickle (pickle g)] comes back from its own round trip with
    the same atoms, the same data on every atom and on every bond, and the
    same meta data. *)
Theorem molecule_round_trip_stable (g : Graph) :
  wf g → class_ g ≠ CGR →
  ∃ g' g'', unpickle (pickle g) = Ok g' ∧ unpickle (pickle g') = Ok g'' ∧
    class_ g'' = class_ g' ∧ meta g'' = meta g' ∧ node g'' = node g' ∧
    (∀ u v, edge_get g'' u v = edge_get g' u v).
Proof.
  intros Hwf Hc.
  destruct (unpickle_pickle_molecule g Hwf Hc)
    as (g' & Hun & Hwf' & Hcl & Hm & Hn & He).
  assert (class_ g' ≠ CGR) as Hc' by by rewrite Hcl.
  destruct (unpickle_pickle_molecule g' Hwf' Hc')
    as (g'' & Hun' & Hwf'' & Hcl' & Hm' & Hn' & He').
  exists g', g''. split_and!; try done.
  - by rewrite Hcl, Hcl'.
  - rewrite Hn', Hn. unfold map_nodes. rewrite <- list_fmap_compose.
    apply list_fmap_ext. intros i [n a] _. unfold compose. cbn [fst snd].
    unfold renew_atom. by rewrite attr_renew_idem.
  - intros u v. rewrite He', He. destruct (edge_get g u v) as [d|]; [|done].
    cbn [fmap option_fmap option_map]. unfold renew_bond.
    by rewrite attr_renew_idem.
Qed.

(* ===================================================================== *)
(** ** [fix_data] on a molecule                                           *)
(* ===================================================================== *)

Lemma bunch_elem g nb n :
  n ∈ bunch g nb ↔ n ∈ nodes_of g ∧ in_bunch nb n = true.
Proof.
  unfold bunch, in_bunch, nbunch_iter. destruct nb as [l|].
  - rewrite list_elem_of_filter, bool_decide_eq_true. naive_solver.
  - naive_solver.
Qed.

Lemma edges_bunch_key g eb u v :
  wf g → is_Some (edge_get g u v) →
  ekey u v ∈ ekeys (edges g eb) ↔ in_bunch eb u = true ∨ in_bunch eb v = true.
Proof.
  intros Hwf [d Hd]. pose proof Hwf as (Hnd & Hk & Hends).
  apply edge_get_elem in Hd as (a & b & Hab & Hkey); [|done].
  rewrite Forall_forall in Hends. pose proof (Hends _ Hab) as [Ha Hb].
  cbn in Ha, Hb.
  destruct eb as [l|]; cbn [in_bunch].
  2:{ split; [by left|]. intros _. rewrite (edges_all_ekeys g Hwf), <- Hkey.
      apply list_elem_of_fmap. by exists (a, b, d). }
  rewrite !bool_decide_eq_true. unfold edges. split.
  - intros ([[x y] d'] & Heq & Hin)%list_elem_of_fmap. cbn in Heq.
    apply elem_of_edges_from in Hin as (Hx & _ & _).
    apply list_elem_of_filter in Hx as [_ Hx].
    apply ekey_inj in Heq as [[-> ->] | [-> ->]]; auto.
  - assert (∀ x y, ekey x y = ekey u v → x ∈ l → x ∈ nodes_of g →
                   (x, y, d) ∈ edge g ∨ (y, x, d) ∈ edge g →
                   ekey u v ∈ ekeys (edges_from (edge g) ∅ (nbunch_iter g l)))
      as Hcov.
    { intros x y Hxy Hxl Hxn Hin.
      assert ((y, d) ∈ adj_in (edge g) x) as Hadj.
      { apply elem_of_adj_in. destruct Hin; [exists x, y | exists y, x]; auto. }
      destruct (edges_from_covers (edge g) ∅ (nbunch_iter g l) x y d)
        as [Hc | Hc]; [by apply list_elem_of_filter | set_solver | set_solver
                      | done | |].
      - rewrite <- Hxy. apply list_elem_of_fmap. by exists (x, y, d).
      - rewrite <- Hxy, (ekey_comm x y). apply list_elem_of_fmap.
        by exists (y, x, d). }
    apply ekey_inj in Hkey as [[-> ->] | [-> ->]]; intros [Hl | Hl].
    + apply (Hcov u v); auto.
    + apply (Hcov v u); auto using ekey_comm.
    + apply (Hcov u v); auto.
    + apply (Hcov v u); auto using ekey_comm.
Qed.

(** X12: [fix_data] on a molecule.  It never raises.  It rewrites exactly
    the atoms selected by [nodes_bunch] and the bonds with an end selected
    by [edges_bunch] (all of them when the bunch is [None]; ids that are
    no atoms are ignored): such an atom or bond keeps its state marks that
    are not [None] and loses every other key.  Class, meta data, atom ids
    and the set of bonds are unchanged, and a second call with the same
    bunches changes nothing. *)
Theorem fix_data_molecule (self : Graph)
    (nodes_bunch edges_bunch : option (list Z)) :
  wf self → class_ self ≠ CGR →
  ∃ g, fix_data self false nodes_bunch edges_bunch = Ok g ∧
    wf g ∧ class_ g = class_ self ∧ meta g = meta self ∧
    nodes_of g = nodes_of self ∧
    (∀ n a, node_get self n = Some a →
       node_get g n =
       Some (if in_bunch nodes_bunch n then renew_atom a else a)) ∧
    (∀ u v d, edge_get self u v = Some d →
       edge_get g u v =
       Some (if in_bunch edges_bunch u || in_bunch edges_bunch v
             then renew_bond d else d)) ∧
    (∀ u v, edge_get self u v = None → edge_get g u v = None) ∧
    fix_data g false nodes_bunch edges_bunch = Ok g.
Proof.
  intros Hwf Hc.
  pose proof (fix_data_molecule_eq self nodes_bunch edges_bunch Hc Hwf) as Heq.
  eexists. split; [exact Heq|].
  split_and!.
  - destruct self as [c N E m]. exact (wf_renewed c _ _ _ _ _ _ _ m _ Hwf).
  - done.
  - done.
  - unfold nodes_of. cbn [node]. apply renewed_nodes_keys.
  - intros n a Ha. unfold node_get in *. cbn [node].
    rewrite alookup_renewed_nodes, Ha. cbn. f_equal.
    assert (n ∈ nodes_of self) as Hn.
    { apply node_get_is_Some. unfold node_get. by rewrite Ha. }
    destruct (in_bunch nodes_bunch n) eqn:Hb.
    + rewrite decide_True; [done|]. by apply bunch_elem.
    + rewrite decide_False; [done|]. rewrite bunch_elem, Hb. naive_solver.
  - intros u v d Hd. unfold edge_get in *. cbn [edge].
    rewrite find_renewed_edges, Hd. cbn. f_equal.
    pose proof (edges_bunch_key self edges_bunch u v Hwf) as Hkey.
    unfold edge_get in Hkey. rewrite Hd in Hkey.
    specialize (Hkey (ltac:(by eexists))).
    destruct (in_bunch edges_bunch u) eqn:Hu; cbn [orb].
    + rewrite decide_True; [done|]. apply Hkey. by left.
    + destruct (in_bunch edges_bunch v) eqn:Hv.
      * rewrite decide_True; [done|]. apply Hkey. by right.
      * rewrite decide_False; [done|]. rewrite Hkey. naive_solver.
  - intros u v Hd. unfold edge_get in *. cbn [edge].
    by rewrite find_renewed_edges, Hd.
  - by apply (fix_data_molecule_idempotent self).
Qed.

(* ===================================================================== *)
(** ** [_attr_renew] of a CGR on marks that are no lists                   *)
(* ===================================================================== *)

Lemma renew_step_scalar attr new m :
  scalar (get attr m.1.1) = true → scalar (get attr m.1.2) = true →
  CGRContainer.renew_step attr new m = Ok (sp_store attr new m).
Proof.
  destruct m as [[s p] sp]. cbn [fst snd].
  unfold CGRContainer.renew_step, sp_store, sp_mark. cbn [fst snd].
  destruct (get attr s) eqn:Hs, (get attr p) eqn:Hp; try done;
    cbn [scalar]; intros _ _;
    match goal with |- context [negb (eqb ?a ?b)] =>
      destruct (eqb a b) end; done.
Qed.

Lemma attr_renew_scalar_fold attr marks new :
  Forall (λ m : string * string * string,
            scalar (get attr m.1.1) = true ∧ scalar (get attr m.1.2) = true)
         marks →
  foldM (CGRContainer.renew_step attr) new marks =
  Ok (foldl (sp_store attr) new marks).
Proof.
  intros H. revert new. induction H as [|m marks [H1 H2] _ IH]; intros new.
  - done.
  - cbn [foldM foldl]. rewrite renew_step_scalar by done. apply IH.
Qed.

Lemma sp_store_fold_other attr marks new k :
  k ∉ marks.*2 → foldl (sp_store attr) new marks !! k = new !! k.
Proof.
  revert new. induction marks as [|m marks IH]; intros new Hk; [done|].
  cbn [foldl]. apply not_elem_of_cons in Hk as [Hkm Hk]. rewrite IH by done.
  unfold sp_store. destruct (sp_mark _ _); [|done].
  by rewrite lookup_insert_ne.
Qed.

Lemma sp_store_fold_lookup attr marks new m :
  NoDup marks.*2 → m ∈ marks →
  foldl (sp_store attr) new marks !! m.2 =
  match sp_mark (get attr m.1.1) (get attr m.1.2) with
  | Some v => Some v
  | None => new !! m.2
  end.
Proof.
  revert new. induction marks as [|m' marks IH]; intros new Hnd Hin.
  { by apply elem_of_nil in Hin. }
  cbn [foldl]. apply NoDup_cons in Hnd as [Hm' Hnd].
  apply elem_of_cons in Hin as [-> | Hin].
  - rewrite sp_store_fold_other by done. unfold sp_store.
    destruct (sp_mark _ _); [by rewrite lookup_insert_eq | done].
  - rewrite IH by done. destruct (sp_mark (get attr m.1.1) _); [done|].
    unfold sp_store. destruct (sp_mark _ _); [|done].
    rewrite lookup_insert_ne; [done|]. intros Heq. apply Hm'. rewrite Heq.
    apply list_elem_of_fmap. by exists m.
Qed.

Lemma sp_store_fold_nothing attr marks new :
  Forall (λ m : string * string * string,
            get attr m.1.1 = VNone ∧ get attr m.1.2 = VNone) marks →
  foldl (sp_store attr) new marks = new.
Proof.
  intros H. revert new. induction H as [|m marks [H1 H2] _ IH]; intros new.
  - done.
  - cbn [foldl]. rewrite IH. unfold sp_store. by rewrite H1, H2.
Qed.

Lemma cgr_marks_tables marks :
  marks = CGRContainer._node_marks ∨ marks = CGRContainer._edge_marks →
  NoDup marks.*2 ∧
  Forall (λ m : string * string * string,
            (m.1.1 ∉ marks.*2) ∧ (m.1.2 ∉ marks.*2)) marks.
Proof.
  intros [-> | ->]; split; refine (bool_decide_unpack _ _); by vm_compute.
Qed.

(** X13: [_attr_renew] of a CGR on a dictionary without list values.  It
    does not raise, and it returns the combined marks only: for every
    triple of the mark table, [sp_...] is the pair of the reagent-side and
    the product-side value when they differ, the common value when they
    agree and are not [None], and absent when both are [None]; the
    [s_...] and [p_...] keys are never returned.  Applied to its own
    result it therefore returns the empty dictionary. *)
Theorem cgr_attr_renew_scalar (attr : attrs)
    (marks : list (string * string * string)) :
  marks = CGRContainer._node_marks ∨ marks = CGRContainer._edge_marks →
  (∀ k, scalar (get attr k) = true) →
  ∃ r, CGRContainer._attr_renew attr marks = Ok r ∧
    (∀ s p sp, (s, p, sp) ∈ marks →
               r !! sp = sp_mark (get attr s) (get attr p)) ∧
    (∀ k, is_Some (r !! k) → k ∈ marks.*2) ∧
    (∀ s p sp, (s, p, sp) ∈ marks → r !! s = None ∧ r !! p = None) ∧
    CGRContainer._attr_renew r marks = Ok ∅.
Proof.
  intros Hm Hsc. destruct (cgr_marks_tables marks Hm) as [Hnd Hdis].
  unfold CGRContainer._attr_renew.
  rewrite attr_renew_scalar_fold by (apply Forall_forall; intros; split; apply Hsc).
  set (r := foldl (sp_store attr) ∅ marks).
  assert (∀ k, is_Some (r !! k) → k ∈ marks.*2) as Hkeys.
  { intros k Hk. destruct (decide (k ∈ marks.*2)) as [|Hnin]; [done|].
    unfold r in Hk. rewrite sp_store_fold_other in Hk by done.
    rewrite lookup_empty in Hk. by destruct Hk. }
  assert (∀ s p sp, (s, p, sp) ∈ marks → r !! s = None ∧ r !! p = None) as Hsp.
  { intros s p sp Hin. rewrite Forall_forall in Hdis.
    destruct (Hdis _ Hin) as [Hs Hp]. cbn in Hs, Hp.
    split; apply eq_None_not_Some; intros H%Hkeys; done. }
  exists r. split_and!; [done | | done | done |].
  - intros s p sp Hin. unfold r.
    rewrite (sp_store_fold_lookup attr marks ∅ (s, p, sp)) by done. cbn.
    by destruct (sp_mark _ _).
  - assert (Forall (λ m : string * string * string,
              get r m.1.1 = VNone ∧ get r m.1.2 = VNone) marks) as Hnone.
    { apply Forall_forall. intros [[s p] sp] Hin.
      destruct (Hsp s p sp Hin) as [Hs Hp]. unfold get. cbn.
      by rewrite Hs, Hp. }
    rewrite attr_renew_scalar_fold.
    + by rewrite sp_store_fold_nothing.
    + eapply Forall_impl; [exact Hnone|]. intros m [-> ->]. done.
Qed.

(* ===================================================================== *)
(** ** [reset_query_marks] in closed form                                 *)
(* ===================================================================== *)

Lemma with_node_same g : with_node g (node g) = g.
Proof. by destruct g. Qed.

Lemma labelled_nil lab l : labelled lab [] l = l.
Proof.
  unfold labelled. rewrite <- (list_fmap_id l) at 2. apply list_fmap_ext.
  intros i [n a] _. cbn. rewrite decide_False; [done | apply not_elem_of_nil].
Qed.

Lemma labelled_keys lab ns l : (labelled lab ns l).*1 = l.*1.
Proof.
  unfold labelled. rewrite <- list_fmap_compose. apply list_fmap_ext.
  intros i [n a] _. cbn. by case_decide.
Qed.

Lemma labelled_cons lab i ns l :
  labelled lab ns (labelled lab [i] l) = labelled lab (i :: ns) l.
Proof.
  unfold labelled. rewrite <- list_fmap_compose. apply list_fmap_ext.
  intros j [n a] _. unfold compose. cbn [fst snd].
  destruct (decide (n ∈ [i])) as [Hi | Hi]; cbn [fst snd].
  - apply list_elem_of_singleton in Hi as ->.
    rewrite (decide_True (P := i ∈ i :: ns)) by by left.
    case_decide; [|done]. unfold update.
    by rewrite (assoc_L (∪)), (idemp_L (∪)).
  - rewrite list_elem_of_singleton in Hi.
    destruct (decide (n ∈ ns)); [rewrite decide_True by by right |
                                 rewrite decide_False by set_solver]; done.
Qed.

Lemma labelled_idem lab ns l :
  labelled lab ns (labelled lab ns l) = labelled lab ns l.
Proof.
  unfold labelled. rewrite <- list_fmap_compose. apply list_fmap_ext.
  intros j [n a] _. unfold compose. cbn [fst snd].
  destruct (decide (n ∈ ns)) as [Hi | Hi]; cbn [fst snd].
  - rewrite decide_True by done. unfold update.
    by rewrite (assoc_L (∪)), (idemp_L (∪)).
  - by rewrite decide_False.
Qed.

Lemma aalter_labelled lab i (l : list (Z * attrs)) :
  NoDup l.*1 →
  aalter (λ d, update d (lab i)) i l = labelled lab [i] l.
Proof.
  unfold labelled.
  induction l as [| [k v] l IH]; cbn; intros Hnd; [done|].
  apply NoDup_cons in Hnd as [Hk Hnd].
  destruct (decide (i = k)) as [-> | Hne].
  - rewrite decide_True by by left. f_equal.
    rewrite <- (list_fmap_id l) at 1. apply list_fmap_ext.
    intros j [n a] Hj. cbn. rewrite decide_False; [done|].
    intros ->%list_elem_of_singleton. apply Hk.
    apply list_elem_of_fmap. exists (k, a). split; [done|].
    by eapply list_elem_of_lookup_2.
  - rewrite decide_False by (by intros ?%list_elem_of_singleton).
    f_equal. by apply IH.
Qed.

Lemma alookup_labelled lab ns l n :
  alookup n (labelled lab ns l) =
  (λ a, if decide (n ∈ ns) then update a (lab n) else a) <$> alookup n l.
Proof.
  unfold labelled. induction l as [|[k v] l IH]; [done|].
  cbn [fmap list_fmap fst snd].
  destruct (decide (k ∈ ns)) as [Hk | Hk]; cbn [alookup];
    (destruct (decide (n = k)) as [-> | Hn]; [|exact IH]); cbn.
  - by rewrite decide_True.
  - by rewrite decide_False.
Qed.

Lemma node_mark_node_update g i label x k :
  label !! k = None →
  node_mark (node_update g i label) x k = node_mark g x k.
Proof.
  intros Hk. unfold node_mark. rewrite node_get_node_update.
  case_decide; [|done]. destruct (node_get g x) as [a|]; [|done]. cbn.
  unfold update. by rewrite lookup_union_r.
Qed.

Section relabel_closed.
Variable L : Graph → Z → res attrs.
Hypothesis L_cong : ∀ g g' i,
  edge g' = edge g →
  (∀ x, node_mark g' x "element" = node_mark g x "element") →
  L g' i = L g i.
Hypothesis L_keys : ∀ g i label, L g i = Ok label → label !! "element" = None.

Lemma relabel_closed lab g0 ns g :
  (∀ i, i ∈ ns → L g0 i = Ok (lab i)) →
  edge g = edge g0 →
  (∀ x, node_mark g x "element" = node_mark g0 x "element") →
  NoDup (nodes_of g) →
  foldM (λ g i, label ← L g i; Ok (node_update g i label)) g ns =
  Ok (with_node g (labelled lab ns (node g))).
Proof.
  revert g. induction ns as [|i ns IH]; intros g Hlab He Hel Hnd.
  - cbn. by rewrite labelled_nil, with_node_same.
  - cbn [foldM]. rewrite (L_cong g0 g i He Hel).
    pose proof (Hlab i (ltac:(by left))) as Hi. rewrite Hi.
    cbn [Py.bind]. rewrite !res_bind_Ok.
    change (Py.bind (Ok ?a) ?k) with (k a). cbn beta.
    rewrite (IH (node_update g i (lab i))).
    + f_equal. unfold node_update. cbn [node with_node].
      rewrite aalter_labelled by done. rewrite labelled_cons. by destruct g.
    + intros j Hj. apply Hlab. by right.
    + done.
    + intros x. rewrite node_mark_node_update; [apply Hel|].
      by eapply L_keys.
    + unfold nodes_of, node_update. cbn [node with_node].
      by rewrite aalter_keys.
Qed.

End relabel_closed.

Lemma foldM_ext {A S} (f f' : S → A → res S) s l :
  (∀ s x, f s x = f' s x) → foldM f s l = foldM f' s l.
Proof.
  intros H. revert s. induction l as [|x l IH]; intros s; [done|].
  cbn. rewrite H. destruct (f' s x); [apply IH | done].
Qed.

Lemma scan_bond_cong g g' b st nb :
  (∀ x, node_mark g' x "element" = node_mark g x "element") →
  scan_bond g' b st nb = scan_bond g b st nb.
Proof.
  intros H. destruct st as [h n], nb as [x bond]. unfold scan_bond.
  destruct (truthy (get bond b)); [|done].
  specialize (H x). unfold node_mark, node_attrs, item in *.
  destruct (node_get g' x) as [a'|], (node_get g x) as [a|]; cbn in *.
  - by rewrite H.
  - by rewrite H.
  - by rewrite <- H.
  - done.
Qed.

Lemma molecule_label_of_cong g g' i :
  edge g' = edge g →
  (∀ x, node_mark g' x "element" = node_mark g x "element") →
  MoleculeContainer.label_of g' i = MoleculeContainer.label_of g i.
Proof.
  intros He Hel. unfold MoleculeContainer.label_of, adj. rewrite He.
  by rewrite (foldM_ext (scan_bond g' "s_bond") (scan_bond g "s_bond"))
    by (intros; by apply scan_bond_cong).
Qed.

Lemma cgr_label_of_cong g g' i :
  edge g' = edge g →
  (∀ x, node_mark g' x "element" = node_mark g x "element") →
  CGRContainer.label_of g' i = CGRContainer.label_of g i.
Proof.
  intros He Hel. unfold CGRContainer.label_of, adj. rewrite He.
  rewrite (foldM_ext (scan_bond g' "s_bond") (scan_bond g "s_bond"))
    by (intros; by apply scan_bond_cong).
  by rewrite (foldM_ext (scan_bond g' "p_bond") (scan_bond g "p_bond"))
    by (intros; by apply scan_bond_cong).
Qed.

(** The inner loop in closed form: the hybridization folds the bond
    orders, the count grows by the neighbours that count. *)
Lemma scan_fold_closed g b l h n :
  (∀ nd : Z * attrs, nd ∈ l → is_Some (node_mark g nd.1 "element")) →
  foldM (scan_bond g b) (h, n) l =
  Ok (foldl (λ h b, hyb_next b h) h ((λ nd : Z * attrs, get nd.2 b) <$> l),
      (n + Z.of_nat (length (filter (λ nd, heavy g b nd = true) l)))%Z).
Proof.
  revert h n. induction l as [|[x bond] l IH]; intros h n Hel.
  - cbn. do 2 f_equal. lia.
  - destruct (Hel (x, bond) (ltac:(by left))) as [el Hx]. cbn [fst] in Hx.
    assert (heavy g b (x, bond) =
            truthy (get bond b) && negb (eqb el (VStr "H"))) as Hheavy.
    { unfold heavy. cbn [fst snd]. by rewrite Hx. }
    unfold node_mark in Hx.
    destruct (node_get g x) as [a|] eqn:Ha; [|done]. cbn in Hx.
    cbn [foldM scan_bond]. unfold node_attrs, item. rewrite Ha.
    destruct (truthy (get bond b)) eqn:Ht; cbn [andb] in Hheavy.
    + rewrite !res_bind_Ok, Hx, !res_bind_Ok.
      change (Py.bind (Ok ?a) ?k) with (k a). cbn beta.
      rewrite IH by (intros; apply Hel; by right).
      cbn [fmap list_fmap foldl snd]. do 2 f_equal.
      destruct (negb (eqb el (VStr "H"))) eqn:Hh.
      * rewrite filter_cons_True by done. cbn [length]. lia.
      * rewrite filter_cons_False by (by rewrite Hheavy). lia.
    + rewrite !res_bind_Ok.
      change (Py.bind (Ok ?a) ?k) with (k a). cbn beta.
      rewrite IH by (intros; apply Hel; by right).
      cbn [fmap list_fmap foldl snd]. do 2 f_equal.
      rewrite filter_cons_False by (by rewrite Hheavy). lia.
Qed.

Lemma neighbours_known g i :
  wf g → elements_known g →
  ∀ nd : Z * attrs, nd ∈ adj g i → is_Some (node_mark g nd.1 "element").
Proof.
  intros (_ & _ & Hends) Hel [v d] (a & b & Hab & Hor)%elem_of_adj_in.
  rewrite Forall_forall in Hends. destruct (Hends _ Hab) as [Ha Hb].
  cbn in Ha, Hb. cbn.
  assert (v ∈ nodes_of g) as Hv by (destruct Hor as [[_ <-] | [<- _]]; done).
  apply node_get_is_Some in Hv as [x Hx]. unfold node_mark. rewrite Hx. cbn.
  by eapply Hel.
Qed.

Lemma molecule_label_of_closed g i :
  wf g → elements_known g →
  MoleculeContainer.label_of g i = Ok (molecule_marks g i).
Proof.
  intros Hwf Hel. unfold MoleculeContainer.label_of.
  rewrite scan_fold_closed by by apply neighbours_known.
  rewrite res_bind_Ok. done.
Qed.

Lemma cgr_label_of_closed g i :
  wf g → elements_known g →
  CGRContainer.label_of g i = Ok (cgr_marks g i).
Proof.
  intros Hwf Hel. unfold CGRContainer.label_of.
  rewrite !scan_fold_closed by by apply neighbours_known.
  rewrite !res_bind_Ok. done.
Qed.

Lemma cgr_label_of_keys g i label :
  CGRContainer.label_of g i = Ok label → label !! "element" = None.
Proof.
  unfold CGRContainer.label_of.
  destruct (foldM (scan_bond g "s_bond") _ _) as [[sh sn]|]; simpl; [|done].
  destruct (foldM (scan_bond g "p_bond") _ _) as [[ph pn]|]; simpl; [|done].
  by intros [= <-].
Qed.

Lemma molecule_label_of_keys g i label :
  MoleculeContainer.label_of g i = Ok label → label !! "element" = None.
Proof.
  unfold MoleculeContainer.label_of.
  destruct (foldM _ _ _) as [[h n]|]; simpl; [|done].
  by intros [= <-].
Qed.

Section reset.
Variable L : Graph → Z → res attrs.
Variable marks : Graph → Z → attrs.
Hypothesis L_cong : ∀ g g' i,
  edge g' = edge g →
  (∀ x, node_mark g' x "element" = node_mark g x "element") →
  L g' i = L g i.
Hypothesis L_keys : ∀ g i label, L g i = Ok label → label !! "element" = None.
Hypothesis L_closed : ∀ g i, wf g → elements_known g → L g i = Ok (marks g i).

Lemma reset_closed g :
  wf g → elements_known g →
  ∃ g', foldM (λ g i, label ← L g i; Ok (node_update g i label)) g (nodes_of g)
        = Ok g' ∧
    wf g' ∧ elements_known g' ∧
    class_ g' = class_ g ∧ meta g' = meta g ∧ edge g' = edge g ∧
    nodes_of g' = nodes_of g ∧
    (∀ n a, node_get g n = Some a →
            node_get g' n = Some (update a (marks g n))) ∧
    foldM (λ g i, label ← L g i; Ok (node_update g i label)) g' (nodes_of g')
    = Ok g'.
Proof.
  intros Hwf Hel. pose proof Hwf as (Hnd & Hk & Hends).
  set (g' := with_node g (labelled (marks g) (nodes_of g) (node g))).
  assert (nodes_of g' = nodes_of g) as Hns.
  { unfold g', nodes_of. cbn [node with_node]. apply labelled_keys. }
  assert (∀ x, node_mark g' x "element" = node_mark g x "element") as Hel'.
  { intros x. unfold node_mark, node_get, g'. cbn [node with_node].
    rewrite alookup_labelled. destruct (alookup x (node g)) as [a|]; [|done].
    cbn. case_decide; [|done]. unfold update. rewrite lookup_union_r; [done|].
    eapply L_keys. by apply L_closed. }
  exists g'. split_and!.
  - by apply (relabel_closed L L_cong L_keys (marks g) g); auto.
  - unfold wf. rewrite Hns. exact Hwf.
  - intros n a' Ha'. unfold node_get, g' in Ha'. cbn [node with_node] in Ha'.
    rewrite alookup_labelled in Ha'.
    destruct (alookup n (node g)) as [a|] eqn:Ha; [|done].
    injection Ha' as <-. pose proof (Hel n a Ha) as Hs.
    case_decide; [|done]. apply update_is_Some. by right.
  - done.
  - done.
  - done.
  - done.
  - intros n a Ha. unfold node_get, g' in *. cbn [node with_node].
    rewrite alookup_labelled, Ha. cbn. rewrite decide_True; [done|].
    apply node_get_is_Some. unfold node_get. by rewrite Ha.
  - rewrite Hns.
    rewrite (relabel_closed L L_cong L_keys (marks g) g (nodes_of g) g');
      [| auto | done | done | by rewrite Hns].
    f_equal. unfold g'. cbn [node with_node]. by rewrite labelled_idem.
Qed.

End reset.



(* ===================================================================== *)
(** ** [get_environment]: the shape of the result                          *)
(* ===================================================================== *)

Lemma step_spec g (A : gset Z) (x : Z) :
  x ∈ step g A ↔
  ∃ u v d, u ∈ A ∧ u ∈ nodes_of g ∧ (v, d) ∈ adj g u ∧ (x = u ∨ x = v).
Proof. apply expansion_step_spec. Qed.

Lemma step_bonded g (A : gset Z) x :
  wf g → x ∈ step g A → x ∈ nodes_of g ∧ adj g x ≠ [].
Proof.
  intros (_ & _ & Hends) (u & v & d & Hu & Hn & Hadj & Hx)%step_spec.
  destruct Hx as [-> | ->].
  - split; [done|]. intros H. rewrite H in Hadj. by apply elem_of_nil in Hadj.
  - pose proof (adj_in_sym _ _ _ _ Hadj) as Hsym. split.
    + apply elem_of_adj_in in Hadj as (a & b & Hab & Hor).
      rewrite Forall_forall in Hends. destruct (Hends _ Hab) as [Ha Hb].
      cbn in Ha, Hb. by destruct Hor as [[_ <-] | [<- _]].
    + intros H. unfold adj in H. rewrite H in Hsym. by apply elem_of_nil in Hsym.
Qed.

Lemma step_grows g (A : gset Z) :
  (∀ x, x ∈ A → x ∈ nodes_of g ∧ adj g x ≠ []) → A ⊆ step g A.
Proof.
  intros HA x Hx. destruct (HA x Hx) as [Hg Hadj]. apply step_spec.
  destruct (adj g x) as [| [v d] l] eqn:E; [done|].
  exists x, v, d. split_and!; [done | done | | by left]. rewrite E. by left.
Qed.

(** The expansion loop appends at most [k] sets, each the step of the one
    before, none empty, none met before. *)
Lemma expand_spec g k i nodes (cur : gset Z) :
  nodes !! i = Some cur → length nodes = S i →
  ∃ ext, MoleculeContainer.expand g k i nodes = nodes ++ ext ∧
         (length ext ≤ k)%nat ∧ chain g cur ext ∧
         (NoDup nodes → NoDup (nodes ++ ext)).
Proof.
  revert i nodes cur. induction k as [|k IH]; intros i nodes cur Hi Hlen.
  { exists []. rewrite app_nil_r. by split_and!. }
  cbn [MoleculeContainer.expand].
  rewrite (list_lookup_total_correct _ _ _ Hi). fold (step g cur).
  destruct (bool_decide (step g cur = ∅) || bool_decide (step g cur ∈ nodes))
    eqn:Hstop.
  { exists []. rewrite app_nil_r. split_and!; [done | cbn; lia | done | done]. }
  apply orb_false_iff in Hstop as [Hne Hnin].
  apply bool_decide_eq_false in Hne, Hnin.
  destruct (IH (S i) (nodes ++ [step g cur]) (step g cur)) as
    (ext & Heq & Hl & Hch & Hnd).
  { rewrite lookup_app_r by lia. by rewrite Hlen, Nat.sub_diag. }
  { rewrite length_app. cbn. lia. }
  exists (step g cur :: ext). rewrite Heq. split_and!.
  - by rewrite <- app_assoc.
  - cbn [length]. lia.
  - done.
  - intros Hn. change (step g cur :: ext) with ([step g cur] ++ ext).
    rewrite app_assoc. apply Hnd.
    apply NoDup_app. split_and!; [done | | apply NoDup_singleton].
    intros x Hx ->%list_elem_of_singleton. done.
Qed.

Lemma chain_bonded g cur ext (A : gset Z) :
  wf g → chain g cur ext → A ∈ ext →
  A ≠ ∅ ∧ ∀ x, x ∈ A → x ∈ nodes_of g ∧ adj g x ≠ [].
Proof.
  intros Hwf. revert cur. induction ext as [|n ext IH]; intros cur Hch Hin.
  { by apply elem_of_nil in Hin. }
  destruct Hch as (-> & Hne & Hch).
  apply elem_of_cons in Hin as [-> | Hin]; [|by eapply IH].
  split; [done|]. intros x Hx. by eapply step_bonded.
Qed.

Lemma chain_next g cur ext i (A B : gset Z) :
  wf g → chain g cur ext →
  ext !! i = Some A → ext !! (i + 1)%nat = Some B →
  B = step g A ∧ A ⊆ B.
Proof.
  intros Hwf. revert cur i. induction ext as [|n ext IH]; intros cur i Hch HA HB.
  { done. }
  destruct Hch as (-> & Hne & Hch). destruct i as [|i].
  - cbn in HA. injection HA as <-. cbn in HB.
    destruct ext as [|m ext]; [done|]. injection HB as <-.
    destruct Hch as (-> & _ & _). split; [done|].
    apply step_grows. intros x Hx. by eapply step_bonded.
  - cbn in HA, HB. by eapply IH.
Qed.

Lemma last_cons_default {A} (x d : A) l : List.last (x :: l) d = List.last l x.
Proof.
  revert x. induction l as [|y l IH]; intros x; [done|].
  change (List.last (x :: y :: l) d) with (List.last (y :: l) d).
  rewrite IH. symmetry.
  change (List.last (y :: l) x) with
    (match l with [] => y | _ => List.last l x end).
  destruct l as [|z l]; [done|]. by rewrite <- !IH.
Qed.

(** X16: the shape of the result of [get_environment].  The node sets are
    the core atoms followed by at most [deep] further sets, all different.
    Each further set is made of atoms of the entity that have a bond; the
    first holds the core atoms that have a bond and their neighbours; from
    then on each set contains the one before and is strictly larger.  With
    [dante] the result is the list of subgraphs on these sets, otherwise
    the subgraph on the last set. *)
Theorem get_environment_chain (g : Graph) (atoms : list Z) (deep : Z) :
  wf g →
  ∃ rest : list (gset Z),
    MoleculeContainer.get_environment g atoms true deep =
      inl ((λ A, MoleculeContainer.subgraph g A false)
             <$> (list_to_set atoms :: rest)) ∧
    MoleculeContainer.get_environment g atoms false deep =
      inr (MoleculeContainer.subgraph g
             (List.last rest (list_to_set atoms)) false) ∧
    (length rest ≤ Z.to_nat deep)%nat ∧
    NoDup (list_to_set atoms :: rest) ∧
    (∀ A, A ∈ rest →
          A ≠ ∅ ∧ ∀ x, x ∈ A → x ∈ nodes_of g ∧ adj g x ≠ []) ∧
    (∀ A, rest !! 0%nat = Some A →
          ∀ x, x ∈ A ↔ ∃ u v d, u ∈ atoms ∧ u ∈ nodes_of g ∧
                                (v, d) ∈ adj g u ∧ (x = u ∨ x = v)) ∧
    (∀ i A B, rest !! i = Some A → rest !! (i + 1)%nat = Some B → A ⊂ B).
Proof.
  intros Hwf.
  destruct (expand_spec g (Z.to_nat deep) 0 [list_to_set atoms]
              (list_to_set atoms) eq_refl eq_refl)
    as (rest & Heq & Hlen & Hch & Hnd).
  specialize (Hnd (NoDup_singleton _)). cbn [app] in Heq, Hnd.
  exists rest.
  unfold MoleculeContainer.get_environment, MoleculeContainer.environment_nodes.
  rewrite Heq. split_and!; try done.
  - by rewrite last_cons_default.
  - intros A HA. by eapply chain_bonded.
  - intros A HA x. destruct rest as [|n rest]; [done|].
    injection HA as ->. destruct Hch as (-> & _ & _).
    rewrite step_spec. by setoid_rewrite elem_of_list_to_set.
  - intros i A B HA HB.
    destruct (chain_next g _ rest i A B Hwf Hch HA HB) as [-> Hsub].
    split; [done|]. intros Hback.
    assert (step g A = A) as Hfix by set_solver.
    rewrite Hfix in HB.
    apply NoDup_cons in Hnd as [_ Hnd].
    pose proof (NoDup_lookup _ _ _ _ Hnd HA HB). lia.
Qed.

(* ===================================================================== *)
(** ** What [fix_data] and [compose] leave alone                          *)
(* ===================================================================== *)

Lemma fix_data_structure self nodes_bunch edges_bunch g :
  fix_data self false nodes_bunch edges_bunch = Ok g →
  nodes_of g = nodes_of self ∧ ekeys (edge g) = ekeys (edge self) ∧
  class_ g = class_ self ∧ meta g = meta self.
Proof.
  unfold fix_data.
  destruct (foldM _ self _) as [g1|] eqn:E1; [|done].
  rewrite res_bind_Ok. intros E2.
  assert (nodes_of g1 = nodes_of self ∧ edge g1 = edge self ∧
          class_ g1 = class_ self ∧ meta g1 = meta self) as (Hn1 & He1 & Hc1 & Hm1).
  { revert E1.
    apply (foldM_inv _ (λ s, nodes_of s = nodes_of self ∧ edge s = edge self ∧
                             class_ s = class_ self ∧ meta s = meta self)
                     (λ _, True)); [| by apply Forall_forall | done].
    intros s x s' _ (Hn & He & Hc & Hm).
    destruct (node_attrs s x) as [a|]; [|done]. rewrite res_bind_Ok.
    destruct (renew_node_attr self a) as [new|]; [|done]. rewrite res_bind_Ok.
    intros [= <-]. unfold nodes_of, node_set. cbn [node edge class_ meta with_node].
    by rewrite aalter_keys. }
  revert E2.
  apply (foldM_inv _ (λ s, nodes_of s = nodes_of self ∧
                           ekeys (edge s) = ekeys (edge self) ∧
                           class_ s = class_ self ∧ meta s = meta self)
                   (λ _, True)); [| by apply Forall_forall | by rewrite He1].
  intros s x s' _ (Hn & He & Hc & Hm).
  destruct (edge_attrs s x.1.1 x.1.2) as [a|]; [|done]. rewrite res_bind_Ok.
  destruct (renew_edge_attr self a) as [new|]; [|done]. rewrite res_bind_Ok.
  intros [= <-]. unfold edge_set. cbn [node edge class_ meta with_edge].
  split_and!; [done | | done | done].
  rewrite <- He.
  apply (ekeys_relabel (λ _, new) (λ e, joins x.1.1 x.1.2 e)).
Qed.

(** X17: [fix_data] rewrites dictionaries and nothing else.  In either
    class, whenever [fix_data] returns, the entity has the atoms it had,
    in the same order, a bond between the same pairs of atoms, its class
    and its meta data. *)
Theorem fix_data_keeps_structure (self : Graph)
    (nodes_bunch edges_bunch : option (list Z)) (g : Graph) :
  fix_data self false nodes_bunch edges_bunch = Ok g →
  nodes_of g = nodes_of self ∧
  (∀ u v, is_Some (edge_get g u v) ↔ is_Some (edge_get self u v)) ∧
  MoleculeContainer.atoms_count g = MoleculeContainer.atoms_count self ∧
  MoleculeContainer.bonds_count g = MoleculeContainer.bonds_count self ∧
  class_ g = class_ self ∧ meta g = meta self.
Proof.
  intros (Hn & He & Hc & Hm)%fix_data_structure.
  split_and!; try done.
  - intros u v.
    assert (∀ h, is_Some (edge_get h u v) ↔ ekey u v ∈ ekeys (edge h)) as Hiff.
    { intros h. split; [|apply edge_get_is_Some].
      unfold edge_get.
      destruct (List.find (joins u v) (edge h)) as [e|] eqn:Hf;
        [intros _; by eapply find_joins_key | by intros [? ?]]. }
    by rewrite !Hiff, He.
  - unfold MoleculeContainer.atoms_count, order.
    apply (f_equal length) in Hn. unfold nodes_of in Hn.
    by rewrite !length_fmap in Hn.
  - unfold MoleculeContainer.bonds_count, size.
    apply (f_equal length) in He. unfold ekeys in He.
    by rewrite !length_fmap in He.
Qed.

Lemma copy_atoms_inv g pick h ns h' :
  CGRcore.copy_atoms g pick h ns = Ok h' →
  edge h' = edge h ∧ class_ h' = class_ h ∧
  (∀ n, n ∈ ns → n ∈ nodes_of g) ∧
  (∀ x, x ∈ nodes_of h' ↔ x ∈ nodes_of h ∨ x ∈ ns).
Proof.
  unfold CGRcore.copy_atoms. revert h.
  induction ns as [|n ns IH]; intros h.
  - intros [= <-]. split_and!; [done | done | by intros ? ?%elem_of_nil |].
    intros x. rewrite elem_of_nil. naive_solver.
  - cbn [foldM]. destruct (node_attrs g n) as [a|] eqn:Ha; [|done].
    rewrite res_bind_Ok. change (Py.bind (Ok ?a) ?k) with (k a). cbn beta.
    intros (He & Hc & Hin & Hx)%IH.
    destruct (add_node_rest h n (pick a)) as (He' & _ & Hc').
    split_and!; [congruence | congruence | |].
    + intros m [-> | Hm]%elem_of_cons; [|by apply Hin].
      apply node_get_is_Some. unfold node_attrs in Ha.
      by destruct (node_get g n).
    + intros x. rewrite Hx, add_node_nodes_of, elem_of_cons. naive_solver.
Qed.

(** One role of [compose], when it completes, wrote no bond and staged no
    stereo mark. *)
Lemma compose_role_inv common i g h ec ns h' ec' ns' :
  CGRcore.compose_role common i g (h, ec, ns) = Ok (h', ec', ns') →
  edge h' = edge h ∧ class_ h' = class_ h ∧ ns' = ns ∧
  (∀ n, n ∈ common → n ∈ nodes_of g) ∧
  (∀ x, x ∈ nodes_of h' ↔ x ∈ nodes_of h ∨ x ∈ nodes_of g).
Proof.
  unfold CGRcore.compose_role.
  destruct (foldM _ (h, common, ns) _) as [[[h1 ext] ns1]|e1] eqn:E1;
    simpl; [|done].
  assert (h1 = h ∧ ns1 = ns ∧ common ⊆ ext) as (-> & -> & Hce).
  { revert E1.
    apply (foldM_inv _ (λ st : Graph * gset Z * CGRcore.staged,
                          st.1.1 = h ∧ st.2 = ns ∧ common ⊆ st.1.2)
                     (λ _, True)); [| by apply Forall_forall | done].
    intros [[h0 ext0] ns0] e [[h2 ext2] ns2] _ (Hh & Hns & Hsub).
    cbn in Hh, Hns, Hsub. subst h0 ns0.
    destruct (truthy (get e.2 (CGRcore.r_edge (CGRcore.__popdict i)))) eqn:Ht.
    - by rewrite common_bond_step_marked.
    - rewrite common_bond_step_unmarked by done. intros [= <- <- <-]. cbn.
      split_and!; [done | done | set_solver]. }
  destruct (edges g (Some (elements (list_to_set (nodes_of g) ∖ ext))))
    as [|e l2]; cbn [foldM]; [|by rewrite uniq_bond_step_raises].
  simpl.
  destruct (CGRcore.copy_atoms g _ h (elements common)) as [h3|] eqn:E3;
    simpl; [|done].
  destruct (CGRcore.copy_atoms g _ h3 (elements (ext ∖ common))) as [h4|] eqn:E4;
    simpl; [|done].
  destruct (CGRcore.copy_atoms g id h4 _) as [h5|] eqn:E5; simpl; [|done].
  intros [= <- <- <-].
  apply copy_atoms_inv in E3 as (He3 & Hc3 & Hin3 & Hx3).
  apply copy_atoms_inv in E4 as (He4 & Hc4 & Hin4 & Hx4).
  apply copy_atoms_inv in E5 as (He5 & Hc5 & Hin5 & Hx5).
  split_and!; [congruence | congruence | done | |].
  - intros n Hn. apply Hin3. by apply elem_of_elements.
  - intros x. rewrite Hx5, Hx4, Hx3, !elem_of_elements.
    rewrite !elem_of_difference, elem_of_list_to_set.
    split.
    + intros [[[? | Hc] | [He Hnc]] | [? _]]; auto; right.
      * apply Hin3. by apply elem_of_elements.
      * apply Hin4. apply elem_of_elements. by apply elem_of_difference.
    + intros [? | Hg]; [by do 3 left|].
      destruct (decide (x ∈ ext)); [|by right].
      destruct (decide (x ∈ common)); [left; left; by right | left; by right].
Qed.

(** X18: a result of [compose] has no bonds.  Whenever [compose] returns,
    the entity it returns is a CGR whose atoms are the atoms of the two
    inputs and which has no bond at all: every bond that would be
    written goes through the stereo lookup, which raises. *)
Theorem compose_result_has_no_bonds (m1 m2 h : Graph) :
  CGRcore.compose m1 m2 = Ok h →
  class_ h = CGR ∧ edge h = [] ∧ MoleculeContainer.bonds_count h = 0%nat ∧
  (∀ x, x ∈ nodes_of h ↔ x ∈ nodes_of m1 ∨ x ∈ nodes_of m2).
Proof.
  unfold CGRcore.compose.
  set (common := list_to_set (nodes_of m1) ∩ list_to_set (nodes_of m2)).
  destruct (CGRcore.compose_role common CGRcore.reagents m1 _)
    as [[[h1 ec1] ns1]|] eqn:E1; [|done].
  rewrite res_bind_Ok.
  destruct (CGRcore.compose_role common CGRcore.products m2 _)
    as [[[h2 ec2] ns2]|] eqn:E2; [|done].
  rewrite res_bind_Ok.
  apply compose_role_inv in E1 as (He1 & Hc1 & -> & _ & Hx1).
  apply compose_role_inv in E2 as (He2 & Hc2 & -> & _ & Hx2).
  destruct (fix_data h2 false _ _) as [h3|] eqn:E3; [|done].
  rewrite res_bind_Ok. cbn [foldM]. intros [= <-].
  apply fix_data_structure in E3 as (Hn3 & He3 & Hc3 & _).
  assert (edge h3 = []) as He.
  { rewrite He2, He1 in He3. cbn in He3. unfold ekeys in He3.
    by apply fmap_nil_inv in He3. }
  split_and!.
  - by rewrite Hc3, Hc2, Hc1.
  - done.
  - unfold MoleculeContainer.bonds_count, size. by rewrite He.
  - intros x. rewrite Hn3, Hx2, Hx1. cbn. rewrite elem_of_nil. naive_solver.
Qed.

(* ===================================================================== *)
(** ** [union] is symmetric                                               *)
(* ===================================================================== *)

Lemma edges_ekeys_ends g u v :
  wf g → ekey u v ∈ ekeys (edges g None) → u ∈ nodes_of g ∧ v ∈ nodes_of g.
Proof.
  intros Hwf ([[a b] d] & Heq & Hin)%list_elem_of_fmap.
  pose proof (edges_ends_nodes g None Hwf) as Hends.
  rewrite Forall_forall in Hends. destruct (Hends _ Hin) as [Ha Hb].
  cbn in Heq, Ha, Hb. apply ekey_inj in Heq as [[-> ->] | [-> ->]]; auto.
Qed.

Lemma find_joins_not_key u v es :
  ekey u v ∉ ekeys es → List.find (joins u v) es = None.
Proof.
  intros Hk. destruct (List.find (joins u v) es) as [e|] eqn:Hf; [|done].
  exfalso. by eapply Hk, find_joins_key.
Qed.

(** X19: [union] of two entities without a common atom id.  The result
    satisfies the invariant and carries no meta data, and the order of
    the two arguments does not matter for what it holds: both unions have
    the same class, the same data on every atom and the same data on
    every bond. *)
Theorem union_symmetric (m1 m2 : Graph) :
  wf m1 → wf m2 → (∀ n, n ∈ nodes_of m1 → n ∉ nodes_of m2) →
  ∃ u u', CGRcore.union m1 m2 = Ok u ∧ CGRcore.union m2 m1 = Ok u' ∧
    wf u ∧ meta u = ∅ ∧ class_ u' = class_ u ∧
    nodes_of u' ≡ₚ nodes_of u ∧
    (∀ n, node_get u' n = node_get u n) ∧
    (∀ a b, edge_get u' a b = edge_get u a b).
Proof.
  intros Hwf1 Hwf2 Hdisj.
  assert (∀ n, n ∈ nodes_of m2 → n ∉ nodes_of m1) as Hdisj'.
  { intros n H2 H1. by apply (Hdisj n). }
  rewrite (union_disjoint m1 m2), (union_disjoint m2 m1) by done.
  eexists _, _. split; [done|]. split; [done|].
  split_and!.
  - pose proof Hwf1 as (Hn1 & _ & _). pose proof Hwf2 as (Hn2 & _ & _).
    apply wf_rebuilt.
    + rewrite fmap_app. apply NoDup_app. split_and!; [done | | done].
      intros x. apply Hdisj.
    + by apply union_ekeys_NoDup.
    + rewrite fmap_app. apply Forall_app. split.
      * eapply Forall_impl; [exact (edges_ends_nodes m1 None Hwf1)|].
        intros e [? ?]. rewrite !elem_of_app. auto.
      * eapply Forall_impl; [exact (edges_ends_nodes m2 None Hwf2)|].
        intros e [? ?]. rewrite !elem_of_app. auto.
  - done.
  - cbn [class_]. unfold union_class.
    apply (f_equal (λ b : bool, if b then CGR else Molecule)).
    apply bool_decide_ext. naive_solver.
  - unfold nodes_of. cbn [node]. rewrite !fmap_app. apply Permutation_app_comm.
  - intros n. unfold node_get. cbn [node]. rewrite !alookup_app.
    destruct (alookup n (node m1)) as [a1|] eqn:H1,
             (alookup n (node m2)) as [a2|] eqn:H2; try done.
    exfalso. apply (Hdisj n); apply alookup_is_Some; by eexists.
  - intros a b. unfold edge_get. cbn [edge]. rewrite !find_joins_app.
    destruct (List.find (joins a b) (edges m1 None)) as [e1|] eqn:H1,
             (List.find (joins a b) (edges m2 None)) as [e2|] eqn:H2; try done.
    exfalso. apply find_joins_key, edges_ekeys_ends in H1 as [Ha _]; [|done].
    apply find_joins_key, edges_ekeys_ends in H2 as [Ha' _]; [|done].
    by apply (Hdisj a).
Qed.

(* ===================================================================== *)
(** ** Reactions                                                          *)
(* ===================================================================== *)

Lemma or_Some_nil {A} (l : list A) : ReactionContainer.or_ (Some l) [] = l.
Proof. by destruct l. Qed.

Lemma unpickle_members l :
  Forall (λ g, wf g ∧ class_ g ≠ CGR) l →
  ∃ k, mapM unpickle (pickle <$> l) = Ok k ∧ Forall2 read_back l k.
Proof.
  induction 1 as [|g l [Hwf Hc] _ (k & Hk & HF)].
  - exists []. by split.
  - destruct (unpickle_pickle_molecule g Hwf Hc) as (g' & Hun & Hrest).
    exists (g' :: k). cbn [fmap list_fmap mapM].
    rewrite Hun, res_bind_Ok, Hk, res_bind_Ok. split; [done|].
    by constructor.
Qed.

Lemma copy_members l :
  Forall wf l → Forall2 same_entity l (MoleculeContainer.copy <$> l).
Proof.
  induction 1 as [|g l Hwf _ IH]; [constructor|].
  cbn [fmap list_fmap]. constructor; [|done].
  destruct (copy_faithful_parts g Hwf) as (? & ? & ? & ? & ?). by split_and!.
Qed.

(** X20: a reaction of molecules serialized with [pickle] and read back
    with [unpickle].  The call succeeds and issues no deprecation warning;
    the reaction read back has the same meta data and, in each of the
    three lists, the same number of members in the same order, each one
    the molecule of the original read back from its own serialization. *)
Theorem reaction_round_trip (r : ReactionContainer.t) :
  members (λ g, wf g ∧ class_ g ≠ CGR) r →
  ∃ r', ReactionContainer.unpickle (ReactionContainer.pickle r) = Ok (r', []) ∧
    ReactionContainer.__meta r' = ReactionContainer.__meta r ∧
    Forall2 read_back (ReactionContainer.__reagents r)
                      (ReactionContainer.__reagents r') ∧
    Forall2 read_back (ReactionContainer.__products r)
                      (ReactionContainer.__products r') ∧
    Forall2 read_back (ReactionContainer.__reactants r)
                      (ReactionContainer.__reactants r').
Proof.
  intros (H1 & H2 & H3).
  destruct (unpickle_members _ H1) as (k1 & Hk1 & HF1).
  destruct (unpickle_members _ H2) as (k2 & Hk2 & HF2).
  destruct (unpickle_members _ H3) as (k3 & Hk3 & HF3).
  unfold ReactionContainer.unpickle, ReactionContainer.pickle.
  cbn [ReactionContainer.d_reagents ReactionContainer.d_substrats
       ReactionContainer.d_products ReactionContainer.d_reactants
       ReactionContainer.d_meta ReactionContainer.key default].
  unfold id.
  repeat first [rewrite res_bind_Ok | rewrite Hk1 | rewrite Hk2 | rewrite Hk3].
  eexists. split; [done|].
  cbn [ReactionContainer.__init__ ReactionContainer.__meta
       ReactionContainer.__reagents ReactionContainer.__products
       ReactionContainer.__reactants fst default].
  rewrite ?or_Some_nil. cbn [ReactionContainer.or_]. rewrite ?or_Some_nil.
  by split_and!.
Qed.

(** X21: [copy] of a reaction.  It issues no deprecation warning and
    returns a reaction with the same meta data whose members are, list by
    list and in order, faithful copies of the members of the original:
    same class, meta data, atoms and bonds. *)
Theorem reaction_copy (r : ReactionContainer.t) :
  members wf r →
  ∃ r', ReactionContainer.copy r = (r', []) ∧
    ReactionContainer.__meta r' = ReactionContainer.__meta r ∧
    Forall2 same_entity (ReactionContainer.__reagents r)
                        (ReactionContainer.__reagents r') ∧
    Forall2 same_entity (ReactionContainer.__products r)
                        (ReactionContainer.__products r') ∧
    Forall2 same_entity (ReactionContainer.__reactants r)
                        (ReactionContainer.__reactants r').
Proof.
  intros (H1 & H2 & H3).
  unfold ReactionContainer.copy, ReactionContainer.__init__.
  eexists. split; [done|].
  cbn [ReactionContainer.__meta ReactionContainer.__reagents
       ReactionContainer.__products ReactionContainer.__reactants default].
  rewrite ?or_Some_nil. cbn [ReactionContainer.or_]. rewrite ?or_Some_nil.
  split_and!; [done | by apply copy_members..].
Qed.

(* ===================================================================== *)
(** ** Connected components and [split]                                   *)
(* ===================================================================== *)

Lemma connected_trans g a b c :
  connected g a b → connected g b c → connected g a c.
Proof. induction 2; eauto using connected_step. Qed.

Lemma connected_sym g a b : connected g a b → connected g b a.
Proof.
  induction 1 as [|u v d _ IH Hadj]; [constructor|].
  apply adj_in_sym in Hadj.
  eapply connected_trans; [|exact IH].
  eapply connected_step; [constructor | exact Hadj].
Qed.

Lemma connected_nodes g s x :
  wf g → s ∈ nodes_of g → connected g s x → x ∈ nodes_of g.
Proof.
  intros (_ & _ & Hends) Hs. induction 1 as [|u v d _ IH Hadj]; [done|].
  apply elem_of_adj_in in Hadj as (a & b & Hab & Hor).
  rewrite Forall_forall in Hends. destruct (Hends _ Hab) as [Ha Hb].
  cbn in Ha, Hb. by destruct Hor as [[_ <-] | [<- _]].
Qed.

Lemma bfs_fold_seen g l (seen acc : gset Z) :
  (foldl (bfs_level g) (seen, acc) l).1 = seen ∪ list_to_set l.
Proof.
  revert seen acc. induction l as [|w l IH]; intros seen acc; cbn [foldl].
  { cbn. set_solver. }
  unfold bfs_level at 2. cbn [fst snd].
  case_decide; rewrite IH; set_solver.
Qed.

Lemma bfs_fold_next g l (seen acc : gset Z) y :
  y ∈ (foldl (bfs_level g) (seen, acc) l).2 ↔
  y ∈ acc ∨ ∃ v, v ∈ l ∧ (v ∉ seen) ∧ y ∈ (adj g v).*1.
Proof.
  revert seen acc. induction l as [|w l IH]; intros seen acc; cbn [foldl].
  { cbn. split; [by left|]. intros [? | (v & Hv & _)]; [done|].
    by apply elem_of_nil in Hv. }
  unfold bfs_level at 2. cbn [fst snd].
  case_decide as Hw; rewrite IH.
  - split.
    + intros [? | (v & Hv & Hn & Hy)]; [by left|]. right. exists v.
      split; [by right | done].
    + intros [? | (v & Hv & Hn & Hy)]; [by left|]. right. exists v.
      apply elem_of_cons in Hv as [-> | Hv]; [done | done].
  - rewrite elem_of_union, elem_of_list_to_set. split.
    + intros [[Hy | ?] | (v & Hv & Hn & Hy)]; [| by left |].
      * right. exists w. split; [by left | done].
      * right. exists v. split; [by right|]. split; [set_solver | done].
    + intros [? | (v & Hv & Hn & Hy)]; [by left; right|].
      destruct (decide (v = w)) as [-> | Hne]; [by left; left|].
      apply elem_of_cons in Hv as [-> | Hv]; [done|].
      right. exists v. split; [done|]. split; [set_solver | done].
Qed.

Lemma bfs_inv_level g s (seen next : gset Z) :
  bfs_inv g s seen next →
  bfs_inv g s (foldl (bfs_level g) (seen, ∅) (elements next)).1
              (foldl (bfs_level g) (seen, ∅) (elements next)).2.
Proof.
  intros (Hs & Hreach & Hadj).
  assert ((foldl (bfs_level g) (seen, ∅) (elements next)).1 = seen ∪ next)
    as Hseen.
  { rewrite bfs_fold_seen. by rewrite list_to_set_elements_L. }
  rewrite Hseen. split_and!.
  - set_solver.
  - intros x [Hx | Hx]%elem_of_union; [by apply Hreach|].
    apply bfs_fold_next in Hx as [Hx | (v & Hv & _ & Hy)]; [set_solver|].
    apply list_elem_of_fmap in Hy as ([y d] & -> & Hy).
    eapply connected_step; [|exact Hy]. apply Hreach.
    apply elem_of_elements in Hv. set_solver.
  - intros x y d Hx Hxy.
    destruct (decide (x ∈ seen)) as [Hin | Hnin].
    + specialize (Hadj x y d Hin Hxy). set_solver.
    + apply elem_of_union. right. apply bfs_fold_next. right. exists x.
      split_and!; [apply elem_of_elements; set_solver | done |].
      apply list_elem_of_fmap. by exists (y, d).
Qed.

Lemma plain_bfs_unfold g fuel seen next :
  plain_bfs g fuel seen next =
  if decide (next = ∅) then Some seen
  else match fuel with
       | O => None
       | S fuel =>
           plain_bfs g fuel
             (foldl (bfs_level g) (seen, ∅) (elements next)).1
             (foldl (bfs_level g) (seen, ∅) (elements next)).2
       end.
Proof. by destruct fuel. Qed.

(** When the search ends it has yielded exactly the atoms that can be
    reached from the source. *)
Lemma plain_bfs_spec g s fuel seen next c :
  bfs_inv g s seen next → plain_bfs g fuel seen next = Some c →
  ∀ x, x ∈ c ↔ connected g s x.
Proof.
  revert seen next. induction fuel as [|fuel IH]; intros seen next Hinv;
    rewrite plain_bfs_unfold; case_decide as Hn; try done.
  - intros [= <-] x. subst next. destruct Hinv as (Hs & Hreach & Hadj).
    split; [intros; apply Hreach; set_solver|].
    induction 1 as [|u v d _ IHc Huv]; [set_solver|].
    specialize (Hadj u v d IHc Huv). set_solver.
  - intros [= <-] x. subst next. destruct Hinv as (Hs & Hreach & Hadj).
    split; [intros; apply Hreach; set_solver|].
    induction 1 as [|u v d _ IHc Huv]; [set_solver|].
    specialize (Hadj u v d IHc Huv). set_solver.
  - apply IH. by apply bfs_inv_level.
Qed.

(** The search ends within the bound. *)
Lemma plain_bfs_terminates g (U : gset Z) fuel seen next :
  (∀ x y d, x ∈ U → (y, d) ∈ adj g x → y ∈ U) →
  seen ⊆ U → next ⊆ U → (base.size (U ∖ seen) < fuel)%nat →
  is_Some (plain_bfs g fuel seen next).
Proof.
  intros HU. revert seen next.
  induction fuel as [|fuel IH]; intros seen next Hs Hn Hsize; [lia|].
  rewrite plain_bfs_unfold. case_decide as Hne; [by eexists|].
  set (st := foldl (bfs_level g) (seen, ∅) (elements next)).
  assert (st.1 = seen ∪ next) as Hseen.
  { unfold st. rewrite bfs_fold_seen. by rewrite list_to_set_elements_L. }
  assert (st.2 ⊆ U) as Hnext.
  { intros y [Hy | (v & Hv & _ & Hy)]%bfs_fold_next; [set_solver|].
    apply list_elem_of_fmap in Hy as ([y' d] & -> & Hy).
    apply (HU v y' d); [|done]. apply elem_of_elements in Hv. set_solver. }
  destruct (decide (next ⊆ seen)) as [Hsub | Hnsub].
  - assert (st.2 = ∅) as ->.
    { apply set_eq. intros y. split; [|set_solver].
      intros [Hy | (v & Hv & Hnv & _)]%bfs_fold_next; [done|].
      apply elem_of_elements in Hv. set_solver. }
    rewrite plain_bfs_unfold. rewrite decide_True by done. by eexists.
  - apply IH; [rewrite Hseen; set_solver | done |].
    assert (U ∖ st.1 ⊂ U ∖ seen) as Hlt%subset_size; [|lia].
    rewrite Hseen. split; [set_solver|].
    intros Hback. apply Hnsub. intros x Hx.
    destruct (decide (x ∈ seen)) as [|Hnx]; [done|].
    assert (x ∈ U ∖ seen) as Hd by set_solver.
    apply Hback in Hd. set_solver.
Qed.

Lemma components_from_terminates g fuel seen ns :
  wf g → (∀ v, v ∈ ns → v ∈ nodes_of g) → (length (node g) < fuel)%nat →
  is_Some (components_from g fuel seen ns).
Proof.
  intros Hwf Hns Hfuel. revert seen.
  induction ns as [|v ns IH]; intros seen; cbn [components_from]; [by eexists|].
  case_decide; [apply IH; intros; apply Hns; by right|].
  destruct (plain_bfs_terminates g (list_to_set (nodes_of g)) fuel ∅ {[v]})
    as [c Hc].
  - intros x y d Hx%elem_of_list_to_set Hxy. apply elem_of_list_to_set.
    apply (connected_nodes g x y Hwf Hx).
    eapply connected_step; [constructor | exact Hxy].
  - set_solver.
  - intros x ->%elem_of_singleton. apply elem_of_list_to_set, Hns. by left.
  - rewrite difference_empty_L, size_list_to_set by apply Hwf.
    unfold nodes_of. by rewrite length_fmap.
  - rewrite Hc. cbn.
    assert (∀ w, w ∈ ns → w ∈ nodes_of g) as Hns'.
    { intros w Hw. apply Hns. by right. }
    destruct (IH Hns' (c ∪ seen)) as [cs Hcs].
    rewrite Hcs. by eexists.
Qed.

(** The components found: each is the set of the atoms that can be
    reached from one atom of the list, none meets the atoms already
    visited or another component, and every atom of the list is visited. *)
Lemma components_from_spec g fuel seen ns cs :
  closed g seen → components_from g fuel seen ns = Some cs →
  Forall (λ c : gset Z, c ## seen ∧
            ∃ v, v ∈ ns ∧ ∀ x, x ∈ c ↔ connected g v x) cs ∧
  (∀ i j c c', cs !! i = Some c → cs !! j = Some c' → i ≠ j → c ## c') ∧
  (∀ v, v ∈ ns → v ∈ seen ∨ ∃ c, c ∈ cs ∧ v ∈ c).
Proof.
  revert seen cs. induction ns as [|v ns IH]; intros seen cs Hcl;
    cbn [components_from].
  { intros [= <-]. split_and!; [constructor | by intros [] | ].
    by intros v ?%elem_of_nil. }
  case_decide as Hv.
  - intros (HF & Hd & Hcov)%IH; [|done]. split_and!.
    + eapply Forall_impl; [exact HF|]. intros c (? & w & Hw & Hx).
      split; [done|]. exists w. split; [by right | done].
    + done.
    + intros w [-> | Hw]%elem_of_cons; [by left | by apply Hcov].
  - destruct (plain_bfs g fuel ∅ {[v]}) as [c|] eqn:Hc; [|done]. cbn.
    destruct (components_from g fuel (c ∪ seen) ns) as [cs'|] eqn:Hcs; [|done].
    cbn. intros [= <-].
    assert (∀ x, x ∈ c ↔ connected g v x) as Hclass.
    { eapply plain_bfs_spec; [|exact Hc]. split_and!.
      - set_solver.
      - intros x Hx. assert (x = v) as -> by set_solver. constructor.
      - intros x y d Hx. set_solver. }
    assert (c ## seen) as Hdis.
    { intros x Hx Hs. apply Hv. apply (Hcl x v Hs).
      apply connected_sym. by apply Hclass. }
    assert (closed g (c ∪ seen)) as Hcl'.
    { intros x y [Hx | Hx]%elem_of_union Hxy; apply elem_of_union.
      - left. apply Hclass. eapply connected_trans; [|exact Hxy].
        by apply Hclass.
      - right. by apply (Hcl x y). }
    destruct (IH _ _ Hcl' Hcs) as (HF & Hd & Hcov).
    assert (∀ c', c' ∈ cs' → c' ## c) as Hdc.
    { intros c' Hc'. rewrite Forall_forall in HF.
      destruct (HF c' Hc') as [Hdis' _]. set_solver. }
    split_and!.
    + constructor.
      * split; [done|]. exists v. split; [by left | done].
      * eapply Forall_impl; [exact HF|]. intros c' (Hdis' & w & Hw & Hx).
        split; [set_solver|]. exists w. split; [by right | done].
    + intros [|i] [|j] a b Ha Hb Hij; cbn in Ha, Hb.
      * done.
      * injection Ha as <-. symmetry. apply Hdc. by eapply list_elem_of_lookup_2.
      * injection Hb as <-. apply Hdc. by eapply list_elem_of_lookup_2.
      * apply (Hd i j); auto.
    + intros w [-> | Hw]%elem_of_cons.
      * right. exists c. split; [by left|]. apply Hclass. constructor.
      * destruct (Hcov w Hw) as [[Hc' | Hs]%elem_of_union | (c' & Hc' & Hw')].
        -- right. exists c. split; [by left | done].
        -- by left.
        -- right. exists c'. split; [by right | done].
Qed.

Lemma edge_get_subgraph g (A : gset Z) meta_ u v :
  wf g →
  edge_get (MoleculeContainer.subgraph g A meta_) u v =
  if decide (u ∈ A ∧ v ∈ A) then edge_get g u v else None.
Proof.
  intros Hwf. rewrite <- edge_get_induced.
  rewrite <- (edge_get_copy (induced g A) u v (wf_induced g A Hwf)).
  unfold MoleculeContainer.subgraph, MoleculeContainer._fix_stereo.
  by destruct meta_.
Qed.

Lemma node_get_subgraph g (A : gset Z) meta_ n :
  wf g →
  node_get (MoleculeContainer.subgraph g A meta_) n =
  if decide (n ∈ A) then node_get g n else None.
Proof.
  intros Hwf.
  assert (node (MoleculeContainer.subgraph g A meta_) = node (induced g A)) as Hn.
  { unfold MoleculeContainer.subgraph, MoleculeContainer._fix_stereo.
    destruct meta_; exact (copy_node _ (wf_induced g A Hwf)). }
  unfold node_get. rewrite Hn. apply alookup_filter.
Qed.

(** X22: [split] cuts an entity into its connected components.  The
    search ends, and the parts are the subgraphs on sets of atoms such
    that: every atom of the entity lies in one of the sets and the sets
    hold atoms of the entity only; two different sets share no atom; two
    atoms lie in the same set exactly when one can be reached from the
    other along bonds.  No atom and no bond is lost: each is found, with
    its data, in one of the parts. *)
Theorem split_components (m : Graph) (meta_ : bool) :
  wf m →
  ∃ cs, connected_components m = Some cs ∧
    CGRcore.split m meta_ =
      Some ((λ c : gset Z, MoleculeContainer.subgraph m c meta_) <$> cs) ∧
    (∀ x, x ∈ nodes_of m ↔ ∃ c, c ∈ cs ∧ x ∈ c) ∧
    (∀ i j c c', cs !! i = Some c → cs !! j = Some c' → i ≠ j → c ## c') ∧
    (∀ c x y, c ∈ cs → x ∈ c → y ∈ c ↔ connected m x y) ∧
    (∀ n a, node_get m n = Some a →
       ∃ c, c ∈ cs ∧
            node_get (MoleculeContainer.subgraph m c meta_) n = Some a) ∧
    (∀ u v d, edge_get m u v = Some d →
       ∃ c, c ∈ cs ∧
            edge_get (MoleculeContainer.subgraph m c meta_) u v = Some d).
Proof.
  intros Hwf. pose proof Hwf as (Hnd & Hk & Hends).
  destruct (components_from_terminates m (S (length (node m))) ∅ (nodes_of m))
    as [cs Hcs]; [done | done | lia |].
  assert (closed m ∅) as Hcl by (intros x y Hx; set_solver).
  destruct (components_from_spec m _ ∅ (nodes_of m) cs Hcl Hcs)
    as (HF & Hdis & Hcov).
  rewrite Forall_forall in HF.
  assert (∀ x, x ∈ nodes_of m → ∃ c, c ∈ cs ∧ x ∈ c) as Hin.
  { intros x Hx. destruct (Hcov x Hx) as [? | ?]; [set_solver | done]. }
  assert (∀ c x y, c ∈ cs → x ∈ c → y ∈ c ↔ connected m x y) as Hclass.
  { intros c x y Hc Hx. destruct (HF c Hc) as (_ & v & Hv & Hcv).
    apply Hcv in Hx. rewrite Hcv. split.
    - intros Hy. eapply connected_trans; [|exact Hy]. by apply connected_sym.
    - intros Hxy. by eapply connected_trans. }
  exists cs. unfold CGRcore.split, connected_components. rewrite Hcs.
  split_and!; try done.
  - intros x. split; [apply Hin|]. intros (c & Hc & Hx).
    destruct (HF c Hc) as (_ & v & Hv & Hcv).
    apply (connected_nodes m v x Hwf Hv). by apply Hcv.
  - intros n a Ha.
    assert (n ∈ nodes_of m) as Hn.
    { apply node_get_is_Some. by rewrite Ha. }
    destruct (Hin n Hn) as (c & Hc & Hnc). exists c. split; [done|].
    rewrite node_get_subgraph by done. by rewrite decide_True.
  - intros u v d Hd.
    pose proof Hd as (a & b & Hab & Hkey)%edge_get_elem; [|done].
    rewrite Forall_forall in Hends. destruct (Hends _ Hab) as [Ha Hb].
    cbn in Ha, Hb. destruct (Hin a Ha) as (c & Hc & Hac).
    assert (b ∈ c) as Hbc.
    { apply (Hclass c a b Hc Hac).
      eapply connected_step; [constructor|].
      apply elem_of_adj_in. exists a, b. split; [done | by left]. }
    exists c. split; [done|].
    rewrite edge_get_subgraph by done. rewrite decide_True; [done|].
    apply ekey_inj in Hkey as [[<- <-] | [<- <-]]; done.
Qed.

(* ===================================================================== *)
(** ** The further properties at work on the example entities            *)
(* ===================================================================== *)

Lemma scalar_all (a : attrs) :
  map_Forall (λ _ v, scalar v = true) a → ∀ k, scalar (get a k) = true.
Proof.
  intros H k. unfold get. destruct (a !! k) as [v|] eqn:E; [|done].
  exact (H k v E).
Qed.

Lemma elements_known_intro g :
  Forall (λ na : Z * attrs, is_Some (na.2 !! "element")) (node g) →
  elements_known g.
Proof.
  intros H n a Ha. apply alookup_Some_elem in Ha.
  rewrite Forall_forall in H. exact (H _ Ha).
Qed.

Lemma disjoint_intro m1 m2 :
  Forall (λ n, n ∉ nodes_of m2) (nodes_of m1) →
  ∀ n, n ∈ nodes_of m1 → n ∉ nodes_of m2.
Proof. intros H. by rewrite Forall_forall in H. Qed.

(** A third atom, with a product-side charge of its own, added to a CGR
    of two atoms. *)
Lemma cgr_add_atom_center_witness :
  ∃ m, (m ∉ nodes_of c2_reagents) ∧
       (m ∈ CGRContainer.get_center_atoms
              (add_node c2_reagents 3 (cgr_atom "N" 0 1 3)) ↔
        VInt 1 ≠ VNone ∧ VInt 1 ≠ VInt 0).
Proof.
  destruct (cgr_add_atom_center c2_reagents (VStr "N") (VInt 0) (VInt 1) None
              (VStr "0") (VInt 0) (VInt 0) (VInt 0) VNone VNone VNone
              (add_node c2_reagents 3 (cgr_atom "N" 0 1 3)))
    as (m & Hm & _ & _ & _ & Hc).
  - apply wf_intro. by vm_compute.
  - by vm_compute.
  - exists m. by split.
Defined.

(** The two marks of the bond 1-2, written in two calls and in one. *)
Lemma cgr_add_bond_sides_witness :
  ∃ g1 g2 g12,
    CGRContainer.add_bond c2_reagents 1 2 (VInt 1) VNone = Ok g1 ∧
    CGRContainer.add_bond g1 1 2 VNone (VInt 2) = Ok g2 ∧
    CGRContainer.add_bond c2_reagents 1 2 (VInt 1) (VInt 2) = Ok g12 ∧
    node g2 = node g12.
Proof.
  destruct (cgr_add_bond_sides c2_reagents 1 2 (VInt 1) (VInt 2))
    as (_ & g1 & g2 & g12 & H1 & H2 & H12 & _ & _ & Hn & _).
  - refine (bool_decide_unpack _ _). by vm_compute.
  - refine (bool_decide_unpack _ _). by vm_compute.
  - reflexivity.
  - reflexivity.
  - exists g1, g2, g12. by split_and!.
Defined.

(** Two atoms and a double bond, added to an empty molecule. *)
Lemma built_invariants_witness :
  wf c7_left ∧ atoms_recorded c7_left ∧ bonds_marked c7_left.
Proof.
  destruct (built_invariants c7_left) as (H1 & H2 & H3 & _).
  - apply (built_add_bond
             (mkGraph Molecule
                [(1, molecule_atom "C" 0 1); (2, molecule_atom "O" 0 2)] [] ∅)
             1 2 (VInt 2)); [| done | by vm_compute].
    apply (built_add_atom
             (mkGraph Molecule [(1, molecule_atom "C" 0 1)] [] ∅)
             (VStr "O") (VInt 0) None (VStr "0") (VInt 0) (VInt 0) (VInt 0));
      [| done | by vm_compute].
    apply (built_add_atom (mkGraph Molecule [] [] ∅)
             (VStr "C") (VInt 0) None (VStr "0") (VInt 0) (VInt 0) (VInt 0));
      [apply built_molecule | done | by vm_compute].
  - by split_and!.
Defined.

Lemma copy_faithful_witness :
  wf (MoleculeContainer.copy c7_left) ∧
  node (MoleculeContainer.copy c7_left) = node c7_left.
Proof.
  destruct (copy_faithful c7_left) as (H1 & _ & _ & H4 & _).
  - apply wf_intro. by vm_compute.
  - by split.
Defined.


Lemma pickle_schema_witness :
  nl_nodes (pickle c5_molecule) =
    keep_nodes (node_schema c5_molecule) (node c5_molecule) ∧
  nl_s_only (pickle c5_molecule) = bool_decide (class_ c5_molecule ≠ CGR).
Proof.
  destruct (pickle_schema c5_molecule) as (H1 & _ & _ & _ & _ & H6).
  - apply wf_intro. by vm_compute.
  - by split.
Defined.

Lemma molecule_round_trip_witness :
  ∃ g', unpickle (pickle c7_left) = Ok g' ∧
        nodes_of g' = nodes_of c7_left ∧
        MoleculeContainer.bonds_count g' = MoleculeContainer.bonds_count c7_left.
Proof.
  destruct (molecule_round_trip c7_left) as (g' & H1 & _ & _ & _ & H5 & H6 & _).
  - apply wf_intro. by vm_compute.
  - done.
  - exists g'. by split_and!.
Defined.

Lemma molecule_round_trip_stable_witness :
  ∃ g' g'', unpickle (pickle c7_left) = Ok g' ∧
            unpickle (pickle g') = Ok g'' ∧ node g'' = node g'.
Proof.
  destruct (molecule_round_trip_stable c7_left)
    as (g' & g'' & H1 & H2 & _ & _ & H5 & _).
  - apply wf_intro. by vm_compute.
  - done.
  - exists g', g''. by split_and!.
Defined.

(** Atom 1 alone and every bond of [c7_left]. *)
Lemma fix_data_molecule_witness :
  ∃ g, fix_data c7_left false (Some [1]) None = Ok g ∧
       fix_data g false (Some [1]) None = Ok g.
Proof.
  destruct (fix_data_molecule c7_left (Some [1]) None)
    as (g & H1 & _ & _ & _ & _ & _ & _ & _ & H9).
  - apply wf_intro. by vm_compute.
  - done.
  - exists g. by split.
Defined.

(** An atom whose charge changes from 0 to 1. *)
Lemma cgr_attr_renew_scalar_witness :
  ∃ r, CGRContainer._attr_renew (cgr_atom "C" 0 1 1) CGRContainer._node_marks
       = Ok r ∧
       r !! "sp_charge" = Some (pair_ (VInt 0) (VInt 1)) ∧
       CGRContainer._attr_renew r CGRContainer._node_marks = Ok ∅.
Proof.
  destruct (cgr_attr_renew_scalar (cgr_atom "C" 0 1 1) CGRContainer._node_marks)
    as (r & H1 & H2 & _ & _ & H5).
  - by left.
  - apply scalar_all. refine (bool_decide_unpack _ _). by vm_compute.
  - exists r. split_and!; [done | | done].
    rewrite (H2 "s_charge" "p_charge" "sp_charge"); [done|].
    refine (bool_decide_unpack _ _). by vm_compute.
Defined.



(** The environments of atom 1 of [c9_graph], up to two bonds away. *)
Lemma get_environment_chain_witness :
  ∃ rest : list (gset Z),
    MoleculeContainer.get_environment c9_graph [1] true 2 =
      inl ((λ A, MoleculeContainer.subgraph c9_graph A false)
             <$> (list_to_set [1] :: rest)) ∧
    (length rest ≤ Z.to_nat 2)%nat.
Proof.
  destruct (get_environment_chain c9_graph [1] 2)
    as (rest & H1 & _ & H3 & _).
  - apply wf_intro. by vm_compute.
  - exists rest. by split.
Defined.

(** [fix_data] on the one-atom CGR whose charge changes. *)
Lemma fix_data_keeps_structure_witness :
  nodes_of c4_once = nodes_of c4_cgr ∧ class_ c4_once = class_ c4_cgr.
Proof.
  destruct (fix_data_keeps_structure c4_cgr None None c4_once)
    as (H1 & _ & _ & _ & H5 & _).
  - by vm_compute.
  - by split.
Defined.

(** Two entities without bonds. *)
Lemma compose_result_has_no_bonds_witness :
  ∃ h, CGRcore.compose c2_reagents c2_products = Ok h ∧ edge h = [].
Proof.
  assert (∃ h, CGRcore.compose c2_reagents c2_products = Ok h) as [h Hh].
  { eexists. by vm_compute. }
  exists h. split; [done|].
  by destruct (compose_result_has_no_bonds c2_reagents c2_products h Hh)
    as (_ & ? & _).
Defined.

Lemma union_symmetric_witness :
  ∃ u u', CGRcore.union c7_left c7_right = Ok u ∧
          CGRcore.union c7_right c7_left = Ok u' ∧
          ∀ n, node_get u' n = node_get u n.
Proof.
  destruct (union_symmetric c7_left c7_right)
    as (u & u' & H1 & H2 & _ & _ & _ & _ & H7 & _).
  - apply wf_intro. by vm_compute.
  - apply wf_intro. by vm_compute.
  - apply disjoint_intro. refine (bool_decide_unpack _ _). by vm_compute.
  - exists u, u'. by split_and!.
Defined.

Lemma reaction_round_trip_witness :
  ∃ r', ReactionContainer.unpickle (ReactionContainer.pickle c7_reaction)
        = Ok (r', []) ∧
        ReactionContainer.__meta r' = ReactionContainer.__meta c7_reaction.
Proof.
  destruct (reaction_round_trip c7_reaction) as (r' & H1 & H2 & _).
  - split_and!.
    + constructor; [|constructor].
      split; [apply wf_intro; by vm_compute | done].
    + constructor; [|constructor].
      split; [apply wf_intro; by vm_compute | done].
    + constructor.
  - exists r'. by split.
Defined.

Lemma reaction_copy_witness :
  ∃ r', ReactionContainer.copy c7_reaction = (r', []) ∧
        ReactionContainer.__meta r' = ReactionContainer.__meta c7_reaction.
Proof.
  destruct (reaction_copy c7_reaction) as (r' & H1 & H2 & _).
  - split_and!.
    + constructor; [|constructor]. apply wf_intro. by vm_compute.
    + constructor; [|constructor]. apply wf_intro. by vm_compute.
    + constructor.
  - exists r'. by split.
Defined.

(** [c9_graph] has two parts: atoms 1 and 2 with their bond, and atom 3. *)
Lemma split_components_witness :
  ∃ cs, connected_components c9_graph = Some cs ∧
        CGRcore.split c9_graph false =
          Some ((λ c : gset Z, MoleculeContainer.subgraph c9_graph c false)
                  <$> cs) ∧
        ∀ x, x ∈ nodes_of c9_graph ↔ ∃ c, c ∈ cs ∧ x ∈ c.
Proof.
  destruct (split_components c9_graph false) as (cs & H1 & H2 & H3 & _).
  - apply wf_intro. by vm_compute.
  - exists cs. by split_and!.
Defined.

(* ===================================================================== *)
(** ** Charges and product-side marks, atom by atom                       *)
(* ===================================================================== *)

Lemma relabel_loop_nodes (L : Graph → Z → res attrs) l g g' :
  foldM (λ g i, label ← L g i; Ok (node_update g i label)) g l = Ok g' →
  nodes_of g' = nodes_of g.
Proof.
  apply (foldM_inv _ (λ s, nodes_of s = nodes_of g) (λ _, True));
    [| by apply Forall_forall | done].
  intros s x s' _ Hs. destruct (L s x) as [label|]; [|done].
  rewrite res_bind_Ok. intros [= <-]. rewrite <- Hs.
  unfold nodes_of, node_update. cbn [node with_node]. apply aalter_keys.
Qed.

Lemma relabelled_other (K : attrs → Prop) a a' k :
  (∀ label, K label → label !! k = None) →
  relabelled K a a' → a' !! k = a !! k.
Proof.
  intros HK. induction 1 as [label Hl | a' label _ IH Hl];
    unfold update; (rewrite lookup_union_r by (by apply HK)); done.
Qed.

Lemma relabelled_last (K : attrs → Prop) a a' k v :
  (∀ label, K label → label !! k = Some v) →
  relabelled K a a' → a' !! k = Some v.
Proof.
  intros HK. destruct 1 as [label Hl | a' label _ Hl];
    by apply update_lookup_new, HK.
Qed.

Lemma cgr_label_of_charges g i label :
  CGRContainer.label_of g i = Ok label →
  label !! "s_charge" = None ∧ label !! "p_charge" = None.
Proof.
  unfold CGRContainer.label_of.
  destruct (foldM (scan_bond g "s_bond") _ _) as [[sh sn]|]; simpl; [|done].
  destruct (foldM (scan_bond g "p_bond") _ _) as [[ph pn]|]; simpl; [|done].
  by intros [= <-].
Qed.

Lemma molecule_label_other label k :
  molecule_label label → k ∉ query_marks → label !! k = None.
Proof.
  intros (_ & _ & Hkeys) Hk. apply eq_None_not_Some. intros Hs. by apply Hk, Hkeys.
Qed.

(** The loop of [reset_query_marks] visits every atom: each atom of the
    result is an atom of the start, relabelled. *)
Lemma relabel_loop_all (L : Graph → Z → res attrs) (K : attrs → Prop) g g' :
  (∀ g i label, L g i = Ok label → K label) →
  foldM (λ g i, label ← L g i; Ok (node_update g i label)) g (nodes_of g)
  = Ok g' →
  ∀ n a, node_get g n = Some a →
         ∃ a', node_get g' n = Some a' ∧ relabelled K a a'.
Proof.
  intros HK Hfold n a Ha.
  pose proof (relabel_loop_nodes L _ _ _ Hfold) as Hn.
  assert (n ∈ nodes_of g) as Hin by (apply node_get_is_Some; by rewrite Ha).
  assert (is_Some (node_get g' n)) as [a' Ha'].
  { apply node_get_is_Some. by rewrite Hn. }
  destruct (relabel_loop L K HK _ _ _ Hfold n a' Ha') as (a0 & Ha0 & Hcase).
  rewrite Ha in Ha0. injection Ha0 as <-.
  exists a'. split; [done|]. by destruct Hcase as [[? _] | [_ ?]].
Qed.

Lemma fix_data_copy self nodes_bunch edges_bunch :
  fix_data self true nodes_bunch edges_bunch =
  fix_data (MoleculeContainer.copy self) false nodes_bunch edges_bunch.
Proof. reflexivity. Qed.

Lemma s_only_record element s_charge mark x y z m :
  s_only (molecule_record element s_charge mark x y z m).
Proof.
  intros k [v Hk]. unfold molecule_record in Hk.
  repeat (apply lookup_insert_Some in Hk as [[<- _] | [_ Hk]]; [done|]).
  done.
Qed.

Lemma molecule_add_atom_inv self element s_charge _map mark x y z g' :
  MoleculeContainer.add_atom self element s_charge _map mark x y z = Ok g' →
  ∃ m, (_map = None ∨ _map = Some m) ∧ (m ∉ nodes_of self) ∧
       g' = with_node self
              (node self ++ [(m, molecule_record element s_charge mark x y z m)]).
Proof.
  unfold MoleculeContainer.add_atom. destruct _map as [m|]; cbn.
  - destruct (has_node self m) eqn:Hn; cbn; [done|].
    apply has_node_false in Hn. intros [= <-]. exists m.
    split; [by right|]. split; [done|]. by rewrite add_node_fresh.
  - intros [= <-]. exists (max_default0 (nodes_of self) + 1)%Z.
    split; [by left|]. split; [apply max_default0_fresh|].
    by rewrite add_node_fresh by apply max_default0_fresh.
Qed.

Lemma reset_start_nodes (self : Graph) (copy_ : bool) :
  wf self →
  nodes_of (if copy_ then MoleculeContainer.copy self else self) = nodes_of self.
Proof.
  intros Hwf. destruct copy_; [|done]. unfold nodes_of.
  by rewrite molecule_copy_node.
Qed.

(** What a relabelling loop leaves alone: the keys no label holds. *)
Lemma reset_keeps (L : Graph → Z → res attrs) (K : attrs → Prop)
    (self : Graph) (copy_ : bool) g' :
  (∀ g i label, L g i = Ok label → K label) →
  wf self →
  foldM (λ g i, label ← L g i; Ok (node_update g i label))
        (if copy_ then MoleculeContainer.copy self else self)
        (nodes_of (if copy_ then MoleculeContainer.copy self else self))
  = Ok g' →
  nodes_of g' = nodes_of self ∧
  ∀ n a, node_get self n = Some a →
         ∃ a', node_get g' n = Some a' ∧ relabelled K a a'.
Proof.
  intros HK Hwf Hfold. split.
  - rewrite (relabel_loop_nodes L _ _ _ Hfold). by apply reset_start_nodes.
  - intros n a Ha. apply (relabel_loop_all L K _ _ HK Hfold).
    by rewrite reset_query_marks_start.
Qed.

(** C5 (amended).  Atom by atom.  [add_atom] of a CGR writes one new atom,
    which carries [s_charge] and [p_charge], the product charge being the
    reagent charge when none is given, and leaves every other atom as it
    is; [reset_query_marks] of a CGR leaves the two charges of every atom
    as they are.  [add_atom] of a molecule writes one new atom, which has
    no product-side key, and leaves every other atom as it is; [fix_data]
    on a molecule returns, and leaves no product-side key on the atoms its
    bunch selects and the other atoms as they are; [reset_query_marks] of
    a molecule writes [p_hyb = 1] and [p_neighbors = 0] on every atom and
    leaves every key other than the four query marks as it is. *)
Theorem charge_marks_kept :
  (∀ self element s_charge p_charge _map mark s_x s_y s_z p_x p_y p_z g',
     CGRContainer.add_atom self element s_charge p_charge _map mark
                           s_x s_y s_z p_x p_y p_z = Ok g' →
     ∃ m, (_map = None ∨ _map = Some m) ∧ (m ∉ nodes_of self) ∧
          nodes_of g' = nodes_of self ++ [m] ∧
          node_mark g' m "s_charge" = Some s_charge ∧
          node_mark g' m "p_charge" =
            Some (match p_charge with VNone => s_charge | _ => p_charge end) ∧
          ∀ n, n ≠ m → node_get g' n = node_get self n) ∧
  (∀ self copy_ g',
     wf self →
     CGRContainer.reset_query_marks self copy_ = Ok g' →
     nodes_of g' = nodes_of self ∧
     ∀ n, node_mark g' n "s_charge" = node_mark self n "s_charge" ∧
          node_mark g' n "p_charge" = node_mark self n "p_charge") ∧
  (∀ self element s_charge _map mark x y z g',
     MoleculeContainer.add_atom self element s_charge _map mark x y z = Ok g' →
     ∃ m a, (_map = None ∨ _map = Some m) ∧ (m ∉ nodes_of self) ∧
            nodes_of g' = nodes_of self ++ [m] ∧
            node_get g' m = Some a ∧ s_only a ∧
            ∀ n, n ≠ m → node_get g' n = node_get self n) ∧
  (∀ self copy_ nodes_bunch edges_bunch,
     class_ self = Molecule → wf self →
     ∃ g', fix_data self copy_ nodes_bunch edges_bunch = Ok g' ∧
           nodes_of g' = nodes_of self ∧
           ∀ n a, node_get self n = Some a →
             ∃ a', node_get g' n = Some a' ∧
                   (in_bunch nodes_bunch n = true → s_only a') ∧
                   (in_bunch nodes_bunch n = false → a' = a)) ∧
  (∀ self copy_ g',
     wf self →
     MoleculeContainer.reset_query_marks self copy_ = Ok g' →
     nodes_of g' = nodes_of self ∧
     ∀ n a, node_get self n = Some a →
       ∃ a', node_get g' n = Some a' ∧
             a' !! "p_hyb" = Some (VInt 1) ∧
             a' !! "p_neighbors" = Some (VInt 0) ∧
             ∀ k, k ∉ query_marks → a' !! k = a !! k).
Proof.
  split_and!.
  - intros self element s_charge p_charge _map mark s_x s_y s_z p_x p_y p_z g'
      (m & Hm & Hmap & ->)%cgr_add_atom_Ok.
    exists m. split_and!.
    + destruct _map as [k|]; [right; by rewrite (Hmap k eq_refl) | by left].
    + done.
    + unfold nodes_of. cbn [node with_node]. by rewrite fmap_app.
    + unfold node_mark, node_get. cbn [node with_node].
      rewrite alookup_snoc_fresh, decide_True by done. done.
    + unfold node_mark, node_get. cbn [node with_node].
      rewrite alookup_snoc_fresh, decide_True by done. cbn.
      by destruct p_charge.
    + intros n Hn. unfold node_get. cbn [node with_node].
      by rewrite alookup_snoc_fresh, decide_False.
  - intros self copy_ g' Hwf Hfold.
    unfold CGRContainer.reset_query_marks in Hfold.
    destruct (reset_keeps CGRContainer.label_of
                (λ label, label !! "s_charge" = None ∧ label !! "p_charge" = None)
                self copy_ g' cgr_label_of_charges Hwf Hfold) as [Hn Hatoms].
    split; [done|]. intros n. unfold node_mark.
    destruct (node_get self n) as [a|] eqn:Ha.
    + destruct (Hatoms n a Ha) as (a' & -> & Hrel). cbn.
      split; (eapply relabelled_other; [|exact Hrel]); by intros label [? ?].
    + assert (node_get g' n = None) as ->; [|done].
      apply eq_None_not_Some. rewrite node_get_is_Some, Hn, <- node_get_is_Some.
      rewrite Ha. by intros [? ?].
  - intros self element s_charge _map mark x y z g'
      (m & Hm & Hfresh & ->)%molecule_add_atom_inv.
    exists m, (molecule_record element s_charge mark x y z m). split_and!.
    + done.
    + done.
    + unfold nodes_of. cbn [node with_node]. by rewrite fmap_app.
    + unfold node_get. cbn [node with_node].
      by rewrite alookup_snoc_fresh, decide_True.
    + apply s_only_record.
    + intros n Hn. unfold node_get. cbn [node with_node].
      by rewrite alookup_snoc_fresh, decide_False.
  - intros self copy_ nodes_bunch edges_bunch Hc Hwf.
    set (g0 := if copy_ then MoleculeContainer.copy self else self).
    assert (fix_data self copy_ nodes_bunch edges_bunch =
            fix_data g0 false nodes_bunch edges_bunch) as ->.
    { unfold g0. destruct copy_; [apply fix_data_copy | done]. }
    assert (wf g0 ∧ class_ g0 ≠ CGR ∧ node g0 = node self) as (Hwf0 & Hc0 & Hn0).
    { unfold g0. destruct copy_.
      - destruct (copy_faithful_parts self Hwf) as (? & Hcl & _ & ? & _).
        split_and!; [done | by rewrite Hcl, Hc | done].
      - split_and!; [done | by rewrite Hc | done]. }
    rewrite fix_data_molecule_eq by done. eexists. split; [done|].
    assert (nodes_of g0 = nodes_of self) as Hns by (unfold nodes_of; by rewrite Hn0).
    split.
    + unfold nodes_of. cbn [node]. by rewrite renewed_nodes_keys, Hn0.
    + intros n a Ha. unfold node_get in *. cbn [node].
      rewrite alookup_renewed_nodes, Hn0, Ha. eexists. split; [done|].
      assert (n ∈ nodes_of g0) as Hin.
      { rewrite Hns. apply node_get_is_Some. unfold node_get. by rewrite Ha. }
      split; intros Hb.
      * rewrite decide_True by (by apply bunch_elem). apply s_only_renewed.
      * rewrite decide_False; [done|]. rewrite bunch_elem, Hb. by intros [_ ?].
  - intros self copy_ g' Hwf Hfold.
    unfold MoleculeContainer.reset_query_marks in Hfold.
    destruct (reset_keeps MoleculeContainer.label_of molecule_label
                self copy_ g' molecule_label_of Hwf Hfold) as [Hn Hatoms].
    split; [done|]. intros n a Ha.
    destruct (Hatoms n a Ha) as (a' & Ha' & Hrel).
    exists a'. split_and!; [done | | |].
    + eapply relabelled_last; [|exact Hrel]. by intros label (? & _).
    + eapply relabelled_last; [|exact Hrel]. by intros label (_ & ? & _).
    + intros k Hk. eapply relabelled_other; [|exact Hrel].
      intros label Hl. by apply molecule_label_other.
Qed.

(** The theorem on entities that hold atoms: an atom added to a CGR of
    three atoms and its [reset_query_marks]; an atom added to a molecule
    that carries the query marks, and its [fix_data]; [reset_query_marks]
    on the copy of a molecule of two atoms. *)
Lemma charge_marks_kept_witness :
  (∃ g', CGRContainer.add_atom c8_cgr (VStr "O") (VInt (-1)) VNone (Some 4)
           (VStr "0") (VInt 0) (VInt 0) (VInt 0) VNone VNone VNone = Ok g' ∧
         node_mark g' 4 "s_charge" = Some (VInt (-1)) ∧
         node_mark g' 4 "p_charge" = Some (VInt (-1)) ∧
         node_get g' 1 = node_get c8_cgr 1) ∧
  (∃ g', CGRContainer.reset_query_marks c8_cgr false = Ok g' ∧
         node_mark g' 1 "s_charge" = Some (VInt 0) ∧
         node_mark g' 1 "p_charge" = Some (VInt 1)) ∧
  (MoleculeContainer.reset_query_marks c5_molecule false = Ok c5_marked ∧
   ∃ g' a, MoleculeContainer.add_atom c5_marked (VStr "O") (VInt 0) (Some 2)
             (VStr "0") (VInt 0) (VInt 0) (VInt 0) = Ok g' ∧
           node_get g' 2 = Some a ∧ s_only a ∧
           node_get g' 1 = node_get c5_marked 1) ∧
  (∃ g' a', fix_data c5_marked false None None = Ok g' ∧
            node_get g' 1 = Some a' ∧ s_only a') ∧
  (∃ g' a', MoleculeContainer.reset_query_marks c7_left true = Ok g' ∧
            node_get g' 2 = Some a' ∧
            a' !! "p_hyb" = Some (VInt 1) ∧
            a' !! "element" = Some (VStr "O")).
Proof.
  destruct charge_marks_kept as (H1 & H2 & H3 & H4 & H5).
  split_and!.
  - assert (∃ g', CGRContainer.add_atom c8_cgr (VStr "O") (VInt (-1)) VNone
                    (Some 4) (VStr "0") (VInt 0) (VInt 0) (VInt 0)
                    VNone VNone VNone = Ok g') as [g' Hg].
    { eexists. by vm_compute. }
    destruct (H1 _ _ _ _ _ _ _ _ _ _ _ _ g' Hg)
      as (m & [Hm | Hm] & _ & _ & Hs & Hp & Hoth); [done|].
    injection Hm as <-. exists g'. split_and!; [done | done | done |].
    by apply Hoth.
  - assert (∃ g', CGRContainer.reset_query_marks c8_cgr false = Ok g')
      as [g' Hg].
    { eexists. by vm_compute. }
    assert (wf c8_cgr) as Hwf by (apply wf_intro; by vm_compute).
    destruct (H2 c8_cgr false g' Hwf Hg) as (_ & Hm).
    destruct (Hm 1) as [Hs Hp]. exists g'.
    split_and!; [done | by rewrite Hs | by rewrite Hp].
  - by vm_compute.
  - assert (∃ g', MoleculeContainer.add_atom c5_marked (VStr "O") (VInt 0)
                    (Some 2) (VStr "0") (VInt 0) (VInt 0) (VInt 0) = Ok g')
      as [g' Hg].
    { eexists. by vm_compute. }
    destruct (H3 _ _ _ _ _ _ _ _ g' Hg)
      as (m & a & [Hm | Hm] & _ & _ & Ha & Hs & Hoth); [done|].
    injection Hm as <-. exists g', a. split_and!; [done | done | done |].
    by apply Hoth.
  - assert (wf c5_marked) as Hwf by (apply wf_intro; by vm_compute).
    destruct (H4 c5_marked false None None eq_refl Hwf) as (g' & Hg & _ & Hat).
    destruct (Hat 1 _ eq_refl) as (a' & Ha' & Hs & _).
    exists g', a'. split_and!; [done | done | by apply Hs].
  - assert (∃ g', MoleculeContainer.reset_query_marks c7_left true = Ok g')
      as [g' Hg].
    { eexists. by vm_compute. }
    assert (wf c7_left) as Hwf by (apply wf_intro; by vm_compute).
    destruct (H5 c7_left true g' Hwf Hg) as (_ & Hat).
    destruct (Hat 2 (molecule_atom "O" 0 2) eq_refl) as (a' & Ha' & Hh & _ & Hk).
    exists g', a'. split_and!; [done | done | done |].
    rewrite (Hk "element"); [done|].
    refine (bool_decide_unpack _ _). by vm_compute.
Defined.
